(** * Total Nuclear Variation denoising (TNV_core.c): model and properties

    A shallow embedding of [src/Core/regularisers_CPU/TNV_core.c], the
    partitioned PDHG solver of the CCPi regularisation toolkit, followed by
    the properties of the solver that the design document states.

    Conventions of the embedding.
    - C [float] arithmetic is kept abstract: the program is written once over
      an interface [Arith] of the operations it uses.  Two instances are
      given: [binary32] (IEEE-754 single precision, round to nearest even, by
      the Standard Library's [SpecFloat]), on which the program runs, and the
      real numbers, the exact arithmetic in which the numerical properties of
      the proximal operator are stated.
    - C [int]/[long] sizes, indices and counters are natural numbers: no
      dimension is negative, and a size or an index that left the range of
      [int] would send the C program outside of its arrays.  The properties
      for which such a product matters bound it by a hypothesis
      ([int_range]).  The one product that is only converted to [float],
      the divisor of line 593, is computed as the C program computes it,
      in [int] with wrap-around ([int_mul]).
    - An array is a list; a read outside of it yields [0] and a write outside
      of it is dropped (both are undefined behaviour in C).  A property
      that depends on where the stores to a caller's volume land assumes
      that the volume holds the image the solver is set up for.
    - The scheduler of [hw_sched.h] is outside the file; it is modelled as
      running the task once per worker, in worker order, and reporting no
      error.  The tasks of one phase touch disjoint partitions, so the order
      is immaterial.  [malloc] never fails.
    - [printf]/[fprintf] lines, task dispatches and the calls of [coefF] are
      recorded in a trace. *)

From Stdlib Require Import ZArith List Bool Arith Lia.
From Stdlib Require Import Floats.SpecFloat.
From Stdlib Require Import Reals Lra Psatz.
Import ListNotations.

Set Implicit Arguments.

(** ** Floating-point interface *)

(** The [float] operations the solver uses.  [flt a b] is the C test
    [a < b] and [feq a b] the C test [a == b]; [a > b] is [flt b a] and
    [a != b] is [negb (feq a b)]. *)
Class Arith (F : Type) := {
  fofZ  : Z -> F;
  fadd  : F -> F -> F;
  fsub  : F -> F -> F;
  fmul  : F -> F -> F;
  fdiv  : F -> F -> F;
  fsqrt : F -> F;
  fabs  : F -> F;
  flt   : F -> F -> bool;
  feq   : F -> F -> bool
}.

(** Constants of [TNV_core.h], which is not part of the sources at hand:
    they are parameters of the model. *)
Class TNVHeader (F : Type) := {
  fTiny   : F;
  fLarge  : F;
  INFNORM : Z
}.

(** What the platform provides: the processor count reported by
    [hw_sched_get_cpu_count] and the indeterminate content of fresh [malloc]
    memory (by worker, allocation number and cell). *)
Class Platform (F : Type) := {
  hw_sched_get_cpu_count : nat;
  malloc_content : nat -> nat -> nat -> F
}.

Section Literals.
Context {F : Type} {AF : Arith F}.

(** The literal [n/d] (for instance [0.95f] is [lit 95 100]): the float
    nearest to the quotient, both integers being exact. *)
Definition lit (n d : Z) : F := fdiv (fofZ n) (fofZ d).

Definition f0 : F := fofZ 0.
Definition f1 : F := fofZ 1.
Definition f2 : F := fofZ 2.
Definition f4 : F := fofZ 4.

Definition fgt (a b : F) : bool := flt b a.
Definition fne (a b : F) : bool := negb (feq a b).

(** Modelled from the spec: the macro [MAX] of the absent header; the
    design document describes its uses as clamping to non-negative and
    flooring at zero, the larger of the two arguments, written as the
    usual conditional. *)
Definition MAX (a b : F) : F := if flt a b then b else a.
End Literals.

(** ** ProximalOperator: [coefF] *)

Section Proximal.
Context {F : Type} {AF : Arith F} {HF : TNVHeader F}.

(** Lines 37-42: eigenvalues of the symmetric matrix (M1 M2; M2 M3),
    clamped at zero. *)
Definition eigenvalues (M1 M2 M3 : F) : F * F :=
  let T := fadd M1 M3 in
  let D := fsub (fmul M1 M3) (fmul M2 M2) in
  let det := fsqrt (MAX (fsub (fdiv (fmul T T) f4) D) f0) in
  let eig1 := MAX (fadd (fdiv T f2) det) f0 in
  let eig2 := MAX (fsub (fdiv T f2) det) f0 in
  (eig1, eig2).

(** Lines 43-44: the singular values [sig1], [sig2]. *)
Definition singular_values (M1 M2 M3 : F) : F * F :=
  let '(eig1, eig2) := eigenvalues M1 M2 M3 in
  (fsqrt eig1, fsqrt eig2).

(** Lines 46-82: normalised eigenvectors, as (V1, V2, V3, V4). *)
Definition eigenvectors (M1 M2 M3 eig1 eig2 : F) : F * F * F * F :=
  if fne M2 f0 then
    let v0 := M2 in
    let v1 := fsub eig1 M3 in
    let v2 := fsub eig2 M3 in
    let mu1 := fsqrt (fadd (fmul v0 v0) (fmul v1 v1)) in
    let mu2 := fsqrt (fadd (fmul v0 v0) (fmul v2 v2)) in
    let '(V1, V3) :=
      if fgt mu1 fTiny then (fdiv v1 mu1, fdiv v0 mu1) else (f0, f0) in
    let '(V2, V4) :=
      if fgt mu2 fTiny then (fdiv v2 mu2, fdiv v0 mu2) else (f0, f0) in
    (V1, V2, V3, V4)
  else if fgt M1 M3 then (f1, f0, f0, f1)
  else (f0, f1, f1, f0).

(** The variables of the water-filling loop of lines 98-119. *)
Record l1state := mkL1 {
  proj_0 : F; proj_1 : F; l1sum : F; l1num : Z; shrinkfactor : F
}.

(** Lines 103-113: the body of the loop up to the end of its inner [for],
    which treats the two entries in turn. *)
Definition l1_pass (s : l1state) : l1state :=
  let p0 := MAX (fsub (proj_0 s) (shrinkfactor s)) f0 in
  let sum := fadd f0 (fabs p0) in
  let num := if fne p0 f0 then 1%Z else 0%Z in
  let p1 := MAX (fsub (proj_1 s) (shrinkfactor s)) f0 in
  let sum := fadd sum (fabs p1) in
  let num := if fne p1 f0 then (num + 1)%Z else num in
  mkL1 p0 p1 sum num (shrinkfactor s).

(** Lines 101-119: [while (sum > 1.0f)].  The loop has no structural
    bound; [fuel] bounds the number of passes and [None] means that the
    bound was reached with the loop still running. *)
Fixpoint l1_loop (fuel : nat) (s : l1state) : option l1state :=
  if fgt (l1sum s) f1 then
    match fuel with
    | O => None
    | S fuel' =>
        let s' := l1_pass s in
        if (0 <? l1num s')%Z then
          l1_loop fuel'
            (mkL1 (proj_0 s') (proj_1 s') (l1sum s') (l1num s')
                  (fdiv (fsub (l1sum s') f1) (fofZ (l1num s'))))
        else Some s'
    end
  else Some s.

(** Lines 94-100 and the loop: projection of (sigma |sig1|, sigma |sig2|). *)
Definition l1_projection (fuel : nat) (sigma sig1 sig2 : F)
  : option l1state :=
  l1_loop fuel
    (mkL1 (fmul sigma (fabs sig1)) (fmul sigma (fabs sig2)) fLarge 0%Z f0).

(** Lines 84-124: the shrunk singular values [sig1_upd], [sig2_upd]. *)
Definition prox_diag (fuel : nat) (sigma sig1 sig2 : F) (p : Z)
  : option (F * F) :=
  let divsigma := fdiv f1 sigma in
  if (p =? 1)%Z then
    Some (MAX (fsub sig1 divsigma) f0, MAX (fsub sig2 divsigma) f0)
  else if (p =? INFNORM)%Z then
    match l1_projection fuel sigma sig1 sig2 with
    | Some s => Some (fsub sig1 (fmul divsigma (proj_0 s)),
                      fsub sig2 (fmul divsigma (proj_1 s)))
    | None => None
    end
  else Some (f0, f0).

(** Lines 126-136. *)
Definition reconstruct (sig1 sig2 sig1_upd sig2_upd V1 V2 V3 V4 : F)
  : F * F * F :=
  let sig1_upd := if fgt sig1 fTiny then fdiv sig1_upd sig1 else sig1_upd in
  let sig2_upd := if fgt sig2 fTiny then fdiv sig2_upd sig2 else sig2_upd in
  (fadd (fmul (fmul sig1_upd V1) V1) (fmul (fmul sig2_upd V2) V2),
   fadd (fmul (fmul sig1_upd V1) V3) (fmul (fmul sig2_upd V2) V4),
   fadd (fmul (fmul sig1_upd V3) V3) (fmul (fmul sig2_upd V4) V4)).

(** [coefF(t, M1, M2, M3, sigma, p, q, r)]: the result is the content of
    [t[0..2]]; [None] only if the water-filling loop exhausts [fuel]. *)
Definition coefF (fuel : nat) (M1 M2 M3 sigma : F) (p q r : Z)
  : option (F * F * F) :=
  let '(eig1, eig2) := eigenvalues M1 M2 M3 in
  let '(sig1, sig2) := singular_values M1 M2 M3 in
  let '(V1, V2, V3, V4) := eigenvectors M1 M2 M3 eig1 eig2 in
  match prox_diag fuel sigma sig1 sig2 p with
  | Some (sig1_upd, sig2_upd) =>
      Some (reconstruct sig1 sig2 sig1_upd sig2_upd V1 V2 V3 V4)
  | None => None
  end.
End Proximal.

Arguments l1state : clear implicits.

(** ** Arrays *)

Section Arrays.
Context {A : Type}.

(** [a[i] = v]; a write past the end is dropped. *)
Fixpoint upd (l : list A) (i : nat) (v : A) : list A :=
  match l, i with
  | [], _ => []
  | _ :: t, O => v :: t
  | h :: t, S i' => h :: upd t i' v
  end.

(** [memset] of the first [n] cells with the value [v]. *)
Definition fill (l : list A) (v : A) (n : nat) : list A :=
  repeat v (Nat.min n (length l)) ++ skipn n l.
End Arrays.

(** ** Data model *)

(** The ten arrays a partition owns (the pointer fields of
    [tnv_thread_t]). *)
Inductive buffer :=
  Input | u | qx | qy | gradx | grady | div | div0 | udiff0 | udiff.

(** The six arrays that [tnv_start] and [tnv_restore] clear. *)
Definition mutable_fields : list buffer := [u; qx; qy; gradx; grady; div].

(** The tasks handed to the scheduler.  ([tnv_free] is defined in the file
    but never handed to it.) *)
Inductive task := TaskInit | TaskStart | TaskStep | TaskRestore | TaskFinish.

(** A volume handed in by the caller is named by its base pointer. *)
Definition ptr := nat.

Section DataModel.
Context {F : Type}.

(** The arrays of one partition. *)
Record buffers := mkBuffers {
  a_Input : list F; a_u : list F; a_qx : list F; a_qy : list F;
  a_gradx : list F; a_grady : list F; a_div : list F;
  a_div0 : list F; a_udiff0 : list F; a_udiff : list F
}.

Definition buf (b : buffers) (x : buffer) : list F :=
  match x with
  | Input => a_Input b | u => a_u b | qx => a_qx b | qy => a_qy b
  | gradx => a_gradx b | grady => a_grady b | div => a_div b
  | div0 => a_div0 b | udiff0 => a_udiff0 b | udiff => a_udiff b
  end.

Definition set_buf (b : buffers) (x : buffer) (l : list F) : buffers :=
  let '(mkBuffers i0 i1 i2 i3 i4 i5 i6 i7 i8 i9) := b in
  match x with
  | Input  => mkBuffers l i1 i2 i3 i4 i5 i6 i7 i8 i9
  | u      => mkBuffers i0 l i2 i3 i4 i5 i6 i7 i8 i9
  | qx     => mkBuffers i0 i1 l i3 i4 i5 i6 i7 i8 i9
  | qy     => mkBuffers i0 i1 i2 l i4 i5 i6 i7 i8 i9
  | gradx  => mkBuffers i0 i1 i2 i3 l i5 i6 i7 i8 i9
  | grady  => mkBuffers i0 i1 i2 i3 i4 l i6 i7 i8 i9
  | div    => mkBuffers i0 i1 i2 i3 i4 i5 l i7 i8 i9
  | div0   => mkBuffers i0 i1 i2 i3 i4 i5 i6 l i8 i9
  | udiff0 => mkBuffers i0 i1 i2 i3 i4 i5 i6 i7 l i9
  | udiff  => mkBuffers i0 i1 i2 i3 i4 i5 i6 i7 i8 l
  end.

(** The five statistics a partition reports after a step. *)
Record stats := mkStats {
  resprimal : F; resdual : F; unorm : F; qnorm : F; product : F
}.

(** [tnv_thread_t]: the row band, the arrays, the statistics. *)
Record tnv_thread_t := mkThread {
  offY : nat; stepY : nat; copY : nat;
  arrays : buffers;
  results : stats
}.

(** [tnv_context_t]. *)
Record tnv_context_t := mkContext {
  threads : nat;
  thr_ctx : list tnv_thread_t;
  InputT : ptr; uT : ptr;
  dimX : nat; dimY : nat; dimZ : nat; padZ : nat;
  lambda : F; sigma : F; tau : F; theta : F
}.

(** What the program prints and dispatches, in order. *)
Inductive event :=
| EvTask (t : task) (device_id : nat)
| EvCoefF (p q r : Z)
| EvStats (resprimal resdual b product unorm qnorm : F)
| EvWarnBacktrack
| EvStopped (iter : nat) (residual : F)
| EvReturn (v : F).

(** The global state: the scheduler singleton [sched] ([None] is [NULL],
    otherwise the size of the worker pool), the global [tnv_ctx], the
    caller's volumes, and the trace. *)
Record world := mkWorld {
  sched : option nat;
  tnv_ctx : tnv_context_t;
  mem : ptr -> list F;
  trace : list event
}.

Definition set_thr_ctx (c : tnv_context_t) (l : list tnv_thread_t) :=
  mkContext (threads c) l (InputT c) (uT c) (dimX c) (dimY c) (dimZ c)
            (padZ c) (lambda c) (sigma c) (tau c) (theta c).

Definition set_lambda (c : tnv_context_t) (v : F) :=
  mkContext (threads c) (thr_ctx c) (InputT c) (uT c) (dimX c) (dimY c)
            (dimZ c) (padZ c) v (sigma c) (tau c) (theta c).

Definition set_volumes (c : tnv_context_t) (i o : ptr) :=
  mkContext (threads c) (thr_ctx c) i o (dimX c) (dimY c) (dimZ c)
            (padZ c) (lambda c) (sigma c) (tau c) (theta c).

Definition set_steps (c : tnv_context_t) (sg ta th : F) :=
  mkContext (threads c) (thr_ctx c) (InputT c) (uT c) (dimX c) (dimY c)
            (dimZ c) (padZ c) (lambda c) sg ta th.

Definition set_ctx (w : world) (c : tnv_context_t) :=
  mkWorld (sched w) c (mem w) (trace w).

Definition set_thread (w : world) (device_id : nat) (t : tnv_thread_t) :=
  set_ctx w (set_thr_ctx (tnv_ctx w) (upd (thr_ctx (tnv_ctx w)) device_id t)).

Definition set_arrays (t : tnv_thread_t) (b : buffers) :=
  mkThread (offY t) (stepY t) (copY t) b (results t).

Definition log (w : world) (es : list event) :=
  mkWorld (sched w) (tnv_ctx w) (mem w) (trace w ++ es).

(** [p[i] = v] on a caller's volume.  A store outside of the volume is
    dropped (in C it is undefined and may land in another object): a
    property that depends on where the stores land assumes that the
    estimate volume holds the image, under which every store of the
    write-back falls inside it ([phase_writes_inside]). *)
Definition store (w : world) (p : ptr) (i : nat) (v : F) :=
  mkWorld (sched w) (tnv_ctx w)
          (fun q => if Nat.eqb q p then upd (mem w p) i v else mem w q)
          (trace w).
End DataModel.

Arguments buffers : clear implicits.
Arguments stats : clear implicits.
Arguments tnv_thread_t : clear implicits.
Arguments tnv_context_t : clear implicits.
Arguments event : clear implicits.
Arguments world : clear implicits.

(** ** Error monad: [None] is a run that does not return *)

Definition bind {A B : Type} (m : option A) (k : A -> option B) : option B :=
  match m with Some a => k a | None => None end.

Notation "x <- m ;; k" := (bind m (fun x => k))
  (at level 61, m at next level, right associativity).

(** Runs [f] on each element of [l] in turn, threading the state. *)
Fixpoint foldM {S A : Type} (f : A -> S -> option S) (l : list A) (s : S)
  : option S :=
  match l with
  | [] => Some s
  | a :: l' => s' <- f a s ;; foldM f l' s'
  end.

(** ** The partition tasks *)

Section Tasks.
Context {F : Type} {AF : Arith F} {HF : TNVHeader F} {PF : Platform F}.

(** Bound on the passes of the water-filling loop of [coefF]. *)
Variable fuel : nat.

Definition rd (b : buffers F) (x : buffer) (i : nat) : F :=
  nth i (buf b x) f0.

Definition wr (b : buffers F) (x : buffer) (i : nat) (v : F) : buffers F :=
  set_buf b x (upd (buf b x) i v).

(** [memset(ctx->x, 0, n * sizeof(float))]: all bits zero is [+0.0f]. *)
Definition clear (b : buffers F) (x : buffer) (n : nat) : buffers F :=
  set_buf b x (fill (buf b x) f0 n).

(** The [n]-th [malloc] of worker [device_id], of [len] floats. *)
Definition malloc (device_id n len : nat) : list F :=
  map (malloc_content device_id n) (seq 0 len).

(** [tnv_init], lines 181-217.  The sizes are the products as natural
    numbers; [int_allocation] below has them as lines 194-196 compute
    them, on [int], and the two agree when an [int] holds the products.
    The exit of line 213 on a failed [malloc] is outside the model:
    whatever is proved of a call that returns holds of a call whose
    allocations succeeded. *)
Definition tnv_init_thread (ctx : tnv_context_t F) (device_id : nat)
           (t : tnv_thread_t F) : tnv_thread_t F :=
  let DimTotal := dimX ctx * stepY t * padZ ctx in
  let Dim1Total := dimX ctx * (stepY t + 1) * padZ ctx in
  let DimRow := dimX ctx * padZ ctx in
  set_arrays t
    (mkBuffers (malloc device_id 0 Dim1Total) (malloc device_id 1 Dim1Total)
               (malloc device_id 2 DimTotal) (malloc device_id 3 DimTotal)
               (malloc device_id 4 DimTotal) (malloc device_id 5 DimTotal)
               (malloc device_id 6 Dim1Total) (malloc device_id 7 DimRow)
               (malloc device_id 8 DimRow) (malloc device_id 9 DimRow)).

Definition tnv_init (device_id : nat) (w : world F) : option (world F) :=
  t <- nth_error (thr_ctx (tnv_ctx w)) device_id ;;
  Some (set_thread w device_id (tnv_init_thread (tnv_ctx w) device_id t)).

(** The six [memset] calls shared by [tnv_start] (lines 237-242) and
    [tnv_restore] (lines 295-300). *)
Definition clear_fields (ctx : tnv_context_t F) (t : tnv_thread_t F)
  : buffers F :=
  let DimTotal := dimX ctx * stepY t * padZ ctx in
  let Dim1Total := dimX ctx * copY t * padZ ctx in
  let b := clear (arrays t) u Dim1Total in
  let b := clear b qx DimTotal in
  let b := clear b qy DimTotal in
  let b := clear b gradx DimTotal in
  let b := clear b grady DimTotal in
  clear b div Dim1Total.

(** Lines 247-248: one cell of the ingest copy. *)
Definition ingest_cell (ctx : tnv_context_t F) (m : ptr -> list F)
           (off k j : nat) (b : buffers F) (i : nat) : buffers F :=
  let dst := j * dimX ctx * padZ ctx + i * padZ ctx + k in
  let src := k * dimX ctx * dimY ctx + (j + off) * dimX ctx + i in
  let b := wr b Input dst (nth src (m (InputT ctx)) f0) in
  wr b u dst (nth src (m (uT ctx)) f0).

(** [tnv_start], lines 219-254. *)
Definition tnv_start_thread (ctx : tnv_context_t F) (m : ptr -> list F)
           (t : tnv_thread_t F) : tnv_thread_t F :=
  let b := clear_fields ctx t in
  set_arrays t
    (fold_left (fun b k =>
       fold_left (fun b j =>
         fold_left (ingest_cell ctx m (offY t) k j) (seq 0 (dimX ctx)) b)
         (seq 0 (copY t)) b)
       (seq 0 (dimZ ctx)) b).

Definition tnv_start (device_id : nat) (w : world F) : option (world F) :=
  t <- nth_error (thr_ctx (tnv_ctx w)) device_id ;;
  Some (set_thread w device_id (tnv_start_thread (tnv_ctx w) (mem w) t)).

(** [tnv_finish], lines 256-278: write the band back into [uT]. *)
Definition tnv_finish (device_id : nat) (w : world F) : option (world F) :=
  t <- nth_error (thr_ctx (tnv_ctx w)) device_id ;;
  let ctx := tnv_ctx w in
  Some
    (fold_left (fun w k =>
       fold_left (fun w j =>
         fold_left (fun w i =>
           store w (uT ctx)
                 (k * dimX ctx * dimY ctx + (j + offY t) * dimX ctx + i)
                 (rd (arrays t) u (j * dimX ctx * padZ ctx + i * padZ ctx + k)))
           (seq 0 (dimX ctx)) w)
         (seq 0 (stepY t)) w)
       (seq 0 (dimZ ctx)) w).

(** [tnv_restore], lines 281-303. *)
Definition tnv_restore_thread (ctx : tnv_context_t F) (t : tnv_thread_t F)
  : tnv_thread_t F :=
  set_arrays t (clear_fields ctx t).

Definition tnv_restore (device_id : nat) (w : world F) : option (world F) :=
  t <- nth_error (thr_ctx (tnv_ctx w)) device_id ;;
  Some (set_thread w device_id (tnv_restore_thread (tnv_ctx w) t)).

(** *** [tnv_step], lines 306-444 *)

(** The values [tnv_step] reads off the context and derives before its
    loops (lines 312-341), among them the arguments [p], [q], [r] it
    passes to [coefF]. *)
Record step_env := mkEnv {
  e_dimX : nat; e_dimZ : nat; e_padZ : nat;
  e_offY : nat; e_stepY : nat; e_copY : nat;
  e_p : Z; e_q : Z; e_r : Z;
  e_sigma : F; e_tau : F; e_theta : F;
  e_taulambda : F; e_divtau : F; e_divsigma : F; e_constant : F
}.

Definition step_env_of (ctx : tnv_context_t F) (t : tnv_thread_t F)
  : step_env :=
  let taulambda := fmul (tau ctx) (lambda ctx) in
  mkEnv (dimX ctx) (dimZ ctx) (padZ ctx) (offY t) (stepY t) (copY t)
        1%Z 1%Z 0%Z
        (sigma ctx) (tau ctx) (theta ctx)
        taulambda (fdiv f1 (tau ctx)) (fdiv f1 (sigma ctx))
        (fadd f1 taulambda).

(** The per-channel scratch arrays of [tnv_step] (lines 352-356).  They
    are written for every channel before they are read. *)
Record scratch := mkScratch {
  gradxdiff : list F; gradydiff : list F;
  ubarx : list F; ubary : list F; udiff_next : list F
}.

(** [(u[l] + tau * div[l] + taulambda * Input[l]) / constant]. *)
Definition primal_update (e : step_env) (b : buffers F) (l : nat) : F :=
  fdiv (fadd (fadd (rd b u l) (fmul (e_tau e) (rd b div l)))
             (fmul (e_taulambda e) (rd b Input l)))
       (e_constant e).

(** Lines 360-366: the body of the loop over the first row. *)
Definition first_row_cell (e : step_env) (b : buffers F) (l : nat)
  : buffers F :=
  let u_upd := primal_update e b l in
  let du := fsub (rd b u l) u_upd in
  let b := wr b udiff l du in
  let b := wr b udiff0 l du in
  let b := wr b div0 l (rd b div l) in
  wr b u l u_upd.

(** Lines 358-368. *)
Definition first_row (e : step_env) (b : buffers F) : buffers F :=
  fold_left (fun b i =>
    fold_left (fun b k => first_row_cell e b (i * e_padZ e + k))
              (seq 0 (e_dimZ e)) b)
    (seq 0 (e_dimX e)) b.

(** State of the first channel loop of a pixel (lines 378-397). *)
Record gathered := mkGathered {
  g_arr : buffers F; g_scr : scratch; g_M1 : F; g_M2 : F; g_M3 : F
}.

(** Lines 379-396: channel [k] of pixel [(j, i)]. *)
Definition gather (e : step_env) (j i : nat) (s : gathered) (k : nat)
  : gathered :=
  let l := (j * e_dimX e + i) * e_padZ e in
  let m := e_dimX e * e_padZ e in
  let b := g_arr s in
  let u_upd := primal_update e b (l + k + m) in
  let du_next := fsub (rd b u (l + k + m)) u_upd in
  let b := wr b u (l + k + m) u_upd in
  let gradx_upd :=
    if i =? e_dimX e - 1 then f0
    else fsub (rd b u (l + k + e_padZ e)) (rd b u (l + k)) in
  let grady_upd :=
    if j =? e_copY e - 1 then f0
    else fsub (rd b u (l + k + m)) (rd b u (l + k)) in
  let dgx := fsub (rd b gradx (l + k)) gradx_upd in
  let dgy := fsub (rd b grady (l + k)) grady_upd in
  let b := wr b gradx (l + k) gradx_upd in
  let b := wr b grady (l + k) grady_upd in
  let bx := fsub gradx_upd (fmul (e_theta e) dgx) in
  let by_ := fsub grady_upd (fmul (e_theta e) dgy) in
  let vx := fadd bx (fmul (e_divsigma e) (rd b qx (l + k))) in
  let vy := fadd by_ (fmul (e_divsigma e) (rd b qy (l + k))) in
  mkGathered b
    (mkScratch (upd (gradxdiff (g_scr s)) k dgx)
               (upd (gradydiff (g_scr s)) k dgy)
               (upd (ubarx (g_scr s)) k bx)
               (upd (ubary (g_scr s)) k by_)
               (upd (udiff_next (g_scr s)) k du_next))
    (fadd (g_M1 s) (fmul vx vx))
    (fadd (g_M2 s) (fmul vx vy))
    (fadd (g_M3 s) (fmul vy vy)).

(** What channel [k] of the second loop computes before it accumulates:
    the arrays after lines 403-425 and the locals [udiff], [divdiff],
    [qxdiff], [qydiff]. *)
Record dual_cell := mkDual {
  d_arr : buffers F; d_udiff : F; d_divdiff : F; d_qxdiff : F; d_qydiff : F
}.

(** Lines 403-415 and 419-425. *)
Definition dual_update (e : step_env) (j i : nat) (t : F * F * F)
           (sc : scratch) (b : buffers F) (k : nat) : dual_cell :=
  let '(t0, t1, t2) := t in
  let l := (j * e_dimX e + i) * e_padZ e in
  let m := e_dimX e * e_padZ e in
  let vx := fadd (nth k (ubarx sc) f0) (fmul (e_divsigma e) (rd b qx (l + k))) in
  let vy := fadd (nth k (ubary sc) f0) (fmul (e_divsigma e) (rd b qy (l + k))) in
  let gx_upd := fadd (fmul vx t0) (fmul vy t1) in
  let gy_upd := fadd (fmul vx t1) (fmul vy t2) in
  let qxdiff := fmul (e_sigma e) (fsub (nth k (ubarx sc) f0) gx_upd) in
  let qydiff := fmul (e_sigma e) (fsub (nth k (ubary sc) f0) gy_upd) in
  let b := wr b qx (l + k) (fadd (rd b qx (l + k)) qxdiff) in
  let b := wr b qy (l + k) (fadd (rd b qy (l + k)) qydiff) in
  let du := rd b udiff (i * e_padZ e + k) in
  let b := wr b udiff (i * e_padZ e + k) (nth k (udiff_next sc) f0) in
  let div_upd := f0 in
  let div_upd :=
    fsub div_upd (if 0 <? i then rd b qx (l + k - e_padZ e) else f0) in
  let div_upd :=
    fsub div_upd (if 0 <? j then rd b qy (l + k - m) else f0) in
  let div_upd :=
    fadd div_upd (if i <? e_dimX e - 1 then rd b qx (l + k) else f0) in
  let div_upd :=
    fadd div_upd (if j <? e_copY e - 1 then rd b qy (l + k) else f0) in
  let divdiff := fsub (rd b div (l + k)) div_upd in
  let b := wr b div (l + k) div_upd in
  mkDual b du divdiff qxdiff qydiff.

(** The summand of line 427: [fabs(divtau * udiff + divdiff)]. *)
Definition primal_term (e : step_env) (d : dual_cell) : F :=
  fabs (fadd (fmul (e_divtau e) (d_udiff d)) (d_divdiff d)).

(** Lines 416-417 and 427-430: the five running sums. *)
Definition accumulate (e : step_env) (j k : nat) (sc : scratch)
           (d : dual_cell) (a : stats F) : stats F :=
  let dgx := nth k (gradxdiff sc) f0 in
  let dgy := nth k (gradydiff sc) f0 in
  mkStats
    (fadd (resprimal a)
          (if (e_offY e =? 0) || (0 <? j) then primal_term e d else f0))
    (fadd (fadd (resdual a)
                (fabs (fadd (fmul (e_divsigma e) (d_qxdiff d)) dgx)))
          (fabs (fadd (fmul (e_divsigma e) (d_qydiff d)) dgy)))
    (fadd (unorm a) (fmul (d_udiff d) (d_udiff d)))
    (fadd (qnorm a)
          (fadd (fmul (d_qxdiff d) (d_qxdiff d))
                (fmul (d_qydiff d) (d_qydiff d))))
    (fsub (product a)
          (fadd (fmul dgx (d_qxdiff d)) (fmul dgy (d_qydiff d)))).

(** Lines 402-431: channel [k] of the second loop. *)
Definition scatter (e : step_env) (j i : nat) (t : F * F * F)
           (sc : scratch) (s : buffers F * stats F) (k : nat)
  : buffers F * stats F :=
  let d := dual_update e j i t sc (fst s) k in
  (d_arr d, accumulate e j k sc d (snd s)).

(** State carried from pixel to pixel. *)
Record step_state := mkStep {
  s_arr : buffers F; s_scr : scratch; s_acc : stats F;
  s_calls : list (event F)
}.

(** Lines 371-433: pixel [(j, i)]. *)
Definition pixel (e : step_env) (j i : nat) (s : step_state)
  : option step_state :=
  let g := fold_left (gather e j i) (seq 0 (e_dimZ e))
                     (mkGathered (s_arr s) (s_scr s) f0 f0 f0) in
  t <- coefF fuel (g_M1 g) (g_M2 g) (g_M3 g) (e_sigma e)
             (e_p e) (e_q e) (e_r e) ;;
  let r := fold_left (scatter e j i t (g_scr g)) (seq 0 (e_dimZ e))
                     (g_arr g, s_acc s) in
  Some (mkStep (fst r) (g_scr g) (snd r)
               (s_calls s ++ [EvCoefF (e_p e) (e_q e) (e_r e)])).

Definition scratch0 (n : nat) : scratch :=
  mkScratch (repeat f0 n) (repeat f0 n) (repeat f0 n) (repeat f0 n)
            (repeat f0 n).

Definition stats0 : stats F := mkStats f0 f0 f0 f0 f0.

(** Lines 370-434: the loops over rows and columns. *)
Definition step_rows (e : step_env) (s : step_state) : option step_state :=
  foldM (fun j s => foldM (fun i s => pixel e j i s) (seq 0 (e_dimX e)) s)
        (seq 0 (e_stepY e)) s.

Definition tnv_step_thread (ctx : tnv_context_t F) (t : tnv_thread_t F)
  : option (tnv_thread_t F * list (event F)) :=
  let e := step_env_of ctx t in
  let b := first_row e (arrays t) in
  s <- step_rows e (mkStep b (scratch0 (e_dimZ e)) stats0 []) ;;
  Some (mkThread (offY t) (stepY t) (copY t) (s_arr s) (s_acc s),
        s_calls s).

Definition tnv_step (device_id : nat) (w : world F) : option (world F) :=
  t <- nth_error (thr_ctx (tnv_ctx w)) device_id ;;
  r <- tnv_step_thread (tnv_ctx w) t ;;
  Some (log (set_thread w device_id (fst r)) (snd r)).

(** *** The scheduler *)

Definition run_task (t : task) : nat -> world F -> option (world F) :=
  match t with
  | TaskInit => tnv_init
  | TaskStart => tnv_start
  | TaskStep => tnv_step
  | TaskRestore => tnv_restore
  | TaskFinish => tnv_finish
  end.

(** [hw_sched_schedule_thread_task] followed by [hw_sched_wait_task]:
    the task runs once on every worker of the pool.  The scheduler is
    taken to report no error, so the exits of lines 480, 484, 539, 560,
    612 and 634 are outside the model: what is proved of a dispatch holds
    of a run in which the scheduler reported none. *)
Definition hw_sched_run (t : task) (w : world F) : option (world F) :=
  n <- sched w ;;
  foldM (fun d w => run_task t d (log w [EvTask t d])) (seq 0 n) w.
End Tasks.

Arguments step_env : clear implicits.
Arguments scratch : clear implicits.
Arguments gathered : clear implicits.
Arguments dual_cell : clear implicits.
Arguments step_state : clear implicits.

(** ** C [int] arithmetic *)

Definition INT_MAX : Z := 2147483647.

(** The [int] that a mathematical integer wraps to: 32 bits, two's
    complement. *)
Definition int_wrap (z : Z) : Z :=
  ((z + 2147483648) mod 4294967296 - 2147483648)%Z.

(** [a * b] on [int]. *)
Definition int_mul (a b : Z) : Z := int_wrap (a * b).

(** A count that an [int] holds. *)
Definition int_range (n : nat) : Prop := (Z.of_nat n <= INT_MAX)%Z.

(** ** The orchestrator *)

Section Orchestrator.
Context {F : Type} {AF : Arith F} {HF : TNVHeader F} {PF : Platform F}.
Variable fuel : nat.

Definition empty_buffers : buffers F :=
  mkBuffers [] [] [] [] [] [] [] [] [] [].

(** Lines 468-477: the loop that lays out the row bands; [count] is the
    number of bands still to lay out. *)
Fixpoint split_rows (count i off step extra nthreads : nat)
  : list (tnv_thread_t F) :=
  match count with
  | O => []
  | S count' =>
      let size := step + (if i <? extra then 1 else 0) in
      mkThread off size (if i =? nthreads - 1 then size else size + 1)
               empty_buffers stats0
      :: split_rows count' (S i) (off + size) step extra nthreads
  end.

(** Lines 460-461: the number of partitions. *)
Definition partition_count (cpus dimY : nat) : nat :=
  if dimY <? cpus then dimY / 2 else cpus.

(** [TNV_CPU_init], lines 446-485.  A zero partition count makes line 463
    divide by zero: the run does not return. *)
Definition TNV_CPU_init (inT outT : ptr) (dimX dimY dimZ : nat)
           (w : world F) : option (world F) :=
  match sched w with
  | Some _ => Some w
  | None =>
      let nthreads := partition_count hw_sched_get_cpu_count dimY in
      if nthreads =? 0 then None
      else
        let step := dimY / nthreads in
        let extra := dimY mod nthreads in
        let c := tnv_ctx w in
        let c' :=
          mkContext nthreads
                    (split_rows nthreads 0 0 step extra nthreads)
                    (InputT c) (uT c)
                    dimX dimY dimZ dimZ
                    (lambda c) (sigma c) (tau c) (theta c) in
        hw_sched_run fuel TaskInit
                     (mkWorld (Some nthreads) c' (mem w) (trace w))
  end.

(** The local variables of [TNV_CPU_main] that change from one iteration
    to the next. *)
Record pdhg := mkPdhg {
  p_tau : F; p_sigma : F; p_alpha : F; p_started : bool; p_residual : F
}.

(** Lines 517-528. *)
Definition theta0 : F := f1.
Definition s_bt : F := f1.
Definition gamma : F := lit 75 100.
Definition beta : F := lit 95 100.
Definition alpha0 : F := lit 2 10.
Definition delta : F := lit 15 10.
Definition eta : F := lit 95 100.

Definition pdhg0 : pdhg := mkPdhg (lit 5 10) (lit 5 10) alpha0 false fLarge.

(** Lines 570-579: one cell of the boundary row between partitions
    [j-1] ([c0]) and [j] ([c1]); [rp] is the local [resprimal]. *)
Definition border_cell (dimX padZ : nat) (divtau : F) (m : nat)
           (s : buffers F * buffers F * F) (l : nat)
  : buffers F * buffers F * F :=
  let '(c0, c1, rp) := s in
  let divdiff := fsub (rd c1 div0 l) (rd c1 div l) in
  let du := rd c1 udiff0 l in
  let c1 := wr c1 div l (fsub (rd c1 div l) (rd c0 qy (l + m))) in
  let c0 := wr c0 div (m + l + dimX * padZ) (rd c1 div l) in
  let divdiff := fadd divdiff (rd c0 qy (l + m)) in
  (c0, c1, fadd rp (fabs (fadd (fmul divtau du) divdiff))).

(** Lines 564-581: the boundary between partitions [j-1] and [j]. *)
Definition border (dimX dimZ padZ : nat) (divtau : F) (j : nat)
           (s : list (tnv_thread_t F) * F)
  : option (list (tnv_thread_t F) * F) :=
  let '(ts, rp) := s in
  t0 <- nth_error ts (j - 1) ;;
  t1 <- nth_error ts j ;;
  let m := (stepY t0 - 1) * dimX * padZ in
  let r :=
    fold_left (fun s i =>
      fold_left (fun s k => border_cell dimX padZ divtau m s (i * padZ + k))
                (seq 0 dimZ) s)
      (seq 0 dimX) (arrays t0, arrays t1, rp) in
  let '(c0, c1, rp') := r in
  Some (upd (upd ts (j - 1) (set_arrays t0 c0)) j (set_arrays t1 c1), rp').

(** Lines 563-582. *)
Definition borders (dimX dimZ padZ nthreads : nat) (divtau : F)
           (ts : list (tnv_thread_t F))
  : option (list (tnv_thread_t F) * F) :=
  foldM (border dimX dimZ padZ divtau) (seq 1 (nthreads - 1)) (ts, f0).

(** Lines 584-591: the sums over the partitions, on top of the boundary
    contribution [rp] to the primal residual. *)
Definition aggregate (nthreads : nat) (ts : list (tnv_thread_t F)) (rp : F)
  : option (stats F) :=
  foldM (fun j a =>
           t <- nth_error ts j ;;
           Some (mkStats (fadd (resprimal a) (resprimal (results t)))
                         (fadd (resdual a) (resdual (results t)))
                         (fadd (unorm a) (unorm (results t)))
                         (fadd (qnorm a) (qnorm (results t)))
                         (fadd (product a) (product (results t)))))
        (seq 0 nthreads) (mkStats rp f0 f0 f0 f0).

(** Line 594: the balance ratio. *)
Definition balance (st : pdhg) (a : stats F) : F :=
  fdiv (fmul (fmul (fmul f2 (p_tau st)) (p_sigma st)) (product a))
       (fadd (fmul (fmul gamma (p_sigma st)) (unorm a))
             (fmul (fmul gamma (p_tau st)) (qnorm a))).

(** Lines 552-591: dispatch of the step, boundary pass and sums. *)
Definition measure (dimX dimZ : nat) (w : world F) (st : pdhg)
  : option (world F * stats F) :=
  let pz := padZ (tnv_ctx w) in
  let divtau := fdiv f1 (p_tau st) in
  let w := set_ctx w (set_steps (tnv_ctx w) (p_sigma st) (p_tau st) theta0) in
  w <- hw_sched_run fuel TaskStep w ;;
  r <- borders dimX dimZ pz (threads (tnv_ctx w)) divtau
               (thr_ctx (tnv_ctx w)) ;;
  a <- aggregate (threads (tnv_ctx w)) (fst r) (snd r) ;;
  Some (set_ctx w (set_thr_ctx (tnv_ctx w) (fst r)), a).

(** Lines 600-627: the step-size controller. *)
Definition adapt (w : world F) (st : pdhg) (a : stats F) (residual : F)
  : option (world F * pdhg) :=
  let b := balance st a in
  let dual_dot_delta := fmul (fmul (resdual a) s_bt) delta in
  let dual_div_delta := fdiv (fmul (resdual a) s_bt) delta in
  if fgt b f1 then
    let tau' := fdiv (fmul beta (p_tau st)) b in
    let sigma' := fdiv (fmul beta (p_sigma st)) b in
    let st' := mkPdhg tau' sigma' alpha0 (p_started st) residual in
    if p_started st then Some (log w [EvWarnBacktrack], st')
    else
      w <- hw_sched_run fuel TaskRestore w ;;
      Some (w, st')
  else
    if fgt (resprimal a) dual_dot_delta then
      Some (w, mkPdhg (fdiv (p_tau st) (fsub f1 (p_alpha st)))
                      (fmul (p_sigma st) (fsub f1 (p_alpha st)))
                      (fmul (p_alpha st) eta) true residual)
    else if flt (resprimal a) dual_div_delta then
      Some (w, mkPdhg (fmul (p_tau st) (fsub f1 (p_alpha st)))
                      (fdiv (p_sigma st) (fsub f1 (p_alpha st)))
                      (fmul (p_alpha st) eta) true residual)
    else Some (w, mkPdhg (p_tau st) (p_sigma st) (p_alpha st) true residual).

(** Lines 546-627: the body of the iteration loop up to the test of the
    tolerance.  Line 593 multiplies the dimensions of the call in [int]
    before it converts the product to [float]. *)
Definition iteration (dimX dimY dimZ : nat) (w : world F) (st : pdhg)
  : option (world F * pdhg) :=
  r <- measure dimX dimZ w st ;;
  let '(w, a) := r in
  let cells :=
    int_mul (int_mul (Z.of_nat dimX) (Z.of_nat dimY)) (Z.of_nat dimZ) in
  let residual := fdiv (fadd (resprimal a) (resdual a)) (fofZ cells) in
  let w := log w [EvStats (resprimal a) (resdual a) (balance st a)
                          (product a) (unorm a) (qnorm a)] in
  adapt w st a residual.

(** Lines 545-630: [for (iter = 0; iter < maxIter; iter++)] with the
    [break] of line 629; [n] iterations remain.  The result carries the
    value of [iter] on leaving the loop. *)
Fixpoint iterate (n iter : nat) (tol : F) (dimX dimY dimZ : nat)
         (w : world F) (st : pdhg) : option (world F * pdhg * nat) :=
  match n with
  | O => Some (w, st, iter)
  | S n' =>
      r <- iteration dimX dimY dimZ w st ;;
      if flt (p_residual (snd r)) tol then Some (fst r, snd r, iter)
      else iterate n' (S iter) tol dimX dimY dimZ (fst r) (snd r)
  end.

(** [TNV_CPU_main], lines 507-642: the returned float and the state the
    call leaves behind. *)
Definition TNV_CPU_main (inT outT : ptr) (lam : F) (maxIter : nat)
           (tol : F) (dimX dimY dimZ : nat) (w : world F)
  : option (F * world F) :=
  let lam := fdiv f1 (fmul f2 lam) in
  let w := set_ctx w (set_lambda (tnv_ctx w) lam) in
  w <- TNV_CPU_init inT outT dimX dimY dimZ w ;;
  let w := set_ctx w (set_volumes (tnv_ctx w) inT outT) in
  w <- hw_sched_run fuel TaskStart w ;;
  r <- iterate maxIter 0 tol dimX dimY dimZ w pdhg0 ;;
  let '(w, st, iter) := r in
  w <- hw_sched_run fuel TaskFinish w ;;
  let ret := nth 0 (mem w outT) f0 in
  Some (ret, log w [EvStopped iter (p_residual st); EvReturn ret]).

(** The state of a process that has not called the solver yet: no
    scheduler, a zeroed context, the caller's memory [m]. *)
Definition boot (m : ptr -> list F) : world F :=
  mkWorld None (mkContext 0 [] 0 0 0 0 0 0 f0 f0 f0 f0) m [].
End Orchestrator.

Arguments pdhg : clear implicits.

(** ** The two arithmetics *)

(** IEEE-754 binary32: 24 bits of precision, exponents up to 128. *)
Definition binary32 : Type := spec_float.

Definition b32_of_Z (z : Z) : binary32 := binary_normalize 24 128 z 0 false.

#[export] Instance binary32_arith : Arith binary32 := {
  fofZ := b32_of_Z;
  fadd := SFadd 24 128;
  fsub := SFsub 24 128;
  fmul := SFmul 24 128;
  fdiv := SFdiv 24 128;
  fsqrt := SFsqrt 24 128;
  fabs := SFabs;
  flt := SFltb;
  feq := SFeqb
}.

(** Exact arithmetic over the real numbers. *)
#[export] Instance real_arith : Arith R := {
  fofZ := IZR;
  fadd := Rplus;
  fsub := Rminus;
  fmul := Rmult;
  fdiv := Rdiv;
  fsqrt := sqrt;
  fabs := Rabs;
  flt := fun a b => if Rlt_dec a b then true else false;
  feq := fun a b => if Req_dec_T a b then true else false
}.

(** A header to run the program with: [fTiny = 0.00000001f],
    [fLarge = 100000000.0f], [INFNORM = -1]. *)
Definition toolkit_header {F : Type} {AF : Arith F} : TNVHeader F :=
  {| fTiny := lit 1 100000000; fLarge := fofZ 100000000; INFNORM := (-1)%Z |}.

(** ** Notions used to state the properties *)

(** Number of non-zero entries contributed by a real [x] (0 or 1). *)
Definition nz (x : R) : Z := if Req_dec_T x 0 then 0%Z else 1%Z.

Section ProjectionStates.
Context {HF : TNVHeader R}.

(** The loop state after a pass that left the entries [p0], [p1], with
    shrink factor [sh]. *)
Definition settled (sh p0 p1 : R) : l1state R :=
  mkL1 p0 p1 (p0 + p1)%R (nz p0 + nz p1)%Z sh.

(** Line 116 on that state. *)
Definition next_shrink (p0 p1 : R) : R :=
  ((p0 + p1 - 1) / IZR (nz p0 + nz p1))%R.

(** The loop returned, and the entries sum to at most one. *)
Definition converged (o : option (l1state R)) : Prop :=
  exists s, o = Some s /\ (proj_0 s + proj_1 s <= 1)%R.
End ProjectionStates.

Section Notions.
Context {F : Type} {AF : Arith F} {HF : TNVHeader F} {PF : Platform F}.

(** The row band of a partition. *)
Definition band (t : tnv_thread_t F) : nat * nat * nat :=
  (offY t, stepY t, copY t).

(** What a solve holds fixed: the worker pool, the partition count, the
    stored dimensions, the volume pointers, lambda and the row bands. *)
Definition layout (w : world F) :=
  let c := tnv_ctx w in
  (sched w, threads c, (dimX c, dimY c, dimZ c, padZ c),
   (InputT c, uT c), lambda c, map band (thr_ctx c)).

(** [w'] comes from [w] without change of layout, writing only to the
    volumes in [W] and adding to the trace only events in [P]. *)
Definition evolves (W : ptr -> Prop) (P : event F -> Prop) (w w' : world F)
  : Prop :=
  layout w' = layout w /\
  (forall p, ~ W p -> mem w' p = mem w p) /\
  exists evs, trace w' = trace w ++ evs /\ Forall P evs.

(** The pool has one worker per partition. *)
Definition pooled (w : world F) : Prop :=
  sched w = Some (threads (tnv_ctx w)) /\
  length (thr_ctx (tnv_ctx w)) = threads (tnv_ctx w).

Definition no_volume : ptr -> Prop := fun _ => False.
Definition any_event : event F -> Prop := fun _ => True.

(** A call of [coefF] is one with [p = 1]. *)
Definition calls_L1 (e : event F) : Prop :=
  match e with EvCoefF p _ _ => p = 1%Z | _ => True end.




(** The events of an iteration other than the dispatch of a restore. *)
Definition iteration_alphabet (P : event F -> Prop) : Prop :=
  (forall d, P (EvTask TaskStep d)) /\
  P (EvCoefF 1 1 0) /\
  (forall a b c d e f, P (EvStats a b c d e f)) /\
  P (@EvWarnBacktrack F).

Variable fuel : nat.

(** *** The summands of the primal residual of a step *)

(** The cells [(j, i, k)] of pixel [(j, i)] for the channels [ks], each
    with what the second channel loop computed there. *)
Fixpoint channel_cells (e : step_env F) (j i : nat) (t : F * F * F)
         (sc : scratch F) (b : buffers F) (ks : list nat)
  : list (nat * nat * nat * dual_cell F) :=
  match ks with
  | [] => []
  | k :: ks' =>
      let d := dual_update e j i t sc b k in
      (j, i, k, d) :: channel_cells e j i t sc (d_arr d) ks'
  end.

Definition pixel_cells (e : step_env F) (j i : nat) (s : step_state F)
  : option (list (nat * nat * nat * dual_cell F)) :=
  let g := fold_left (gather e j i) (seq 0 (e_dimZ e))
                     (mkGathered (s_arr s) (s_scr s) f0 f0 f0) in
  t <- coefF fuel (g_M1 g) (g_M2 g) (g_M3 g) (e_sigma e)
             (e_p e) (e_q e) (e_r e) ;;
  Some (channel_cells e j i t (g_scr g) (g_arr g) (seq 0 (e_dimZ e))).

Fixpoint cells_from (e : step_env F) (px : list (nat * nat))
         (s : step_state F)
  : option (list (nat * nat * nat * dual_cell F)) :=
  match px with
  | [] => Some []
  | (j, i) :: px' =>
      c <- pixel_cells e j i s ;;
      s' <- pixel fuel e j i s ;;
      cs <- cells_from e px' s' ;;
      Some (c ++ cs)
  end.

(** The pixels of a partition in the order of the loops. *)
Definition pixels (e : step_env F) : list (nat * nat) :=
  list_prod (seq 0 (e_stepY e)) (seq 0 (e_dimX e)).

(** Row, column and channel of every cell of a partition, in loop order. *)
Definition cell_indices (e : step_env F) : list (nat * nat * nat) :=
  flat_map (fun ji => map (fun k => (fst ji, snd ji, k)) (seq 0 (e_dimZ e)))
           (pixels e).

(** All cells a step of partition [t] visits. *)
Definition step_cells (ctx : tnv_context_t F) (t : tnv_thread_t F)
  : option (list (nat * nat * nat * dual_cell F)) :=
  let e := step_env_of ctx t in
  cells_from e (pixels e)
             (mkStep (first_row e (arrays t)) (scratch0 (e_dimZ e)) stats0 []).

Definition cell_row (c : nat * nat * nat * dual_cell F) : nat :=
  fst (fst (fst c)).

(** The primal residual as the code accumulates it: the summand of every
    cell, except on row 0 of the partitions whose offset is not 0. *)
Definition primal_residual (e : step_env F)
           (cells : list (nat * nat * nat * dual_cell F)) (r0 : F) : F :=
  fold_left (fun r c =>
               fadd r (if (e_offY e =? 0) || (0 <? cell_row c)
                       then primal_term e (snd c) else f0))
            cells r0.

(** The primal residual as the design document words it: the summand of
    every cell, except on row 0 of the partition whose offset is 0. *)
Definition primal_residual_documented (e : step_env F)
           (cells : list (nat * nat * nat * dual_cell F)) (r0 : F) : F :=
  fold_left (fun r c =>
               fadd r (if (e_offY e =? 0) && (cell_row c =? 0)
                       then f0 else primal_term e (snd c)))
            cells r0.
End Notions.

(** ** A small run in binary32 *)

(** A machine with [cpus] processors whose fresh memory holds sevens. *)
Definition demo_platform (cpus : nat) : Platform binary32 :=
  {| hw_sched_get_cpu_count := cpus;
     malloc_content := fun _ _ _ => b32_of_Z 7 |}.

(** A 2 x 4 image with one channel: columns 0 and 1. *)
Definition demo_image : list binary32 :=
  map b32_of_Z [0; 1; 0; 1; 0; 1; 0; 1]%Z.

(** The caller's memory: the noisy volume at 1 and the estimate, warm
    started with the same image, at 2. *)
Definition demo_memory : ptr -> list binary32 :=
  fun p => if p =? 1 then demo_image else if p =? 2 then demo_image else [].

(** The events of a call that finds the scheduler in place: no task of
    initialization among them. *)
Definition solve_alphabet {F : Type} (P : event F -> Prop) : Prop :=
  iteration_alphabet P /\
  (forall d, P (EvTask TaskStart d)) /\
  (forall d, P (EvTask TaskRestore d)) /\
  (forall d, P (EvTask TaskFinish d)) /\
  (forall i r, P (EvStopped i r)) /\
  (forall v, P (EvReturn v)).


(** The cells of a mutable field [x] that [tnv_start] and [tnv_restore]
    clear: [copY] rows of [u] and [div], [stepY] rows of the others. *)
Definition extent {F : Type} (ctx : tnv_context_t F) (t : tnv_thread_t F)
           (x : buffer) : list F :=
  let rows := match x with u | div => copY t | _ => stepY t end in
  firstn (dimX ctx * rows * padZ ctx) (buf (arrays t) x).

(** The mutable fields [u], [qx], [qy], [gradx], [grady], [div] of every
    partition, over these cells. *)
Definition mutable_state {F : Type} (w : world F) : list (list (list F)) :=
  map (fun t => map (extent (tnv_ctx w) t) mutable_fields)
      (thr_ctx (tnv_ctx w)).

Section Demo.
#[local] Existing Instance toolkit_header.

(** First initialization on a machine with [cpus] processors, for an image
    of two columns, [rows] rows and one channel. *)
Definition demo_init (cpus rows : nat) : option (world binary32) :=
  TNV_CPU_init (PF:=demo_platform cpus) 0 1 2 2 rows 1 (boot demo_memory).

#[local] Instance two_processors : Platform binary32 := demo_platform 2.

(** A call of the entry point on two processors, with the noisy volume at
    1, the estimate at 2, lambda = 1 and tolerance 0. *)
Definition demo_main (maxIter dX dY dZ : nat) (w : world binary32)
  : option (binary32 * world binary32) :=
  TNV_CPU_main 0 1 2 (b32_of_Z 1) maxIter (b32_of_Z 0) dX dY dZ w.

(** The state after initialization and ingest of the 2 x 4 x 1 image. *)
Definition demo_ingested : option (world binary32) :=
  w <- demo_init 2 4 ;;
  hw_sched_run 0 TaskStart (set_ctx w (set_volumes (tnv_ctx w) 1 2)).

(** The first iteration of the solve on it. *)
Definition demo_iteration (w : world binary32)
  : option (world binary32 * pdhg binary32) :=
  iteration 0 2 4 1 w pdhg0.

Definition demo_first_iteration : option (world binary32 * pdhg binary32) :=
  w <- demo_ingested ;; demo_iteration w.

(** For partition [d] at the first step: the primal residual the step
    leaves, the sum over its cells by the rule of the code, and the sum by
    the rule of the design document. *)
Definition demo_residuals (d : nat)
  : option (binary32 * binary32 * binary32) :=
  w <- demo_ingested ;;
  let ctx := set_steps (tnv_ctx w) (p_sigma pdhg0) (p_tau pdhg0) theta0 in
  t <- nth_error (thr_ctx ctx) d ;;
  r <- tnv_step_thread 0 ctx t ;;
  cells <- step_cells 0 ctx t ;;
  Some (resprimal (results (fst r)),
        primal_residual (step_env_of ctx t) cells f0,
        primal_residual_documented (step_env_of ctx t) cells f0).
End Demo.

(** All six mutable fields of partition [t] are zero over the cells that
    [tnv_start] and [tnv_restore] clear. *)
Definition zeroed {F : Type} {AF : Arith F} (ctx : tnv_context_t F)
           (t : tnv_thread_t F) : Prop :=
  forall x, In x mutable_fields -> Forall (eq f0) (extent ctx t x).
(** ** Notions used by the further properties *)

(** The factor by which the [p = 1] rule of [coefF] scales a singular
    value [s]: lines 87-88 followed by lines 126-127. *)
Definition soft_factor {HF : TNVHeader R} (sigma s : R) : R :=
  let x := Rmax (s - 1 / sigma) 0 in
  if Rlt_dec fTiny s then (x / s)%R else x.

(** The loop returned entries that lie between zero and the inputs [a],
    [b] and sum to one. *)
Definition projected (a b : R) (o : option (l1state R)) : Prop :=
  exists s, o = Some s /\
            (0 <= proj_0 s <= a)%R /\ (0 <= proj_1 s <= b)%R /\
            (proj_0 s + proj_1 s = 1)%R.

(** The step sizes stay positive, their product stays below its initial
    value 1/4, and the adaptation rate stays in (0, 1/5]. *)
Definition step_sizes_ok (st : pdhg R) : Prop :=
  (0 < p_tau st)%R /\ (0 < p_sigma st)%R /\
  (p_tau st * p_sigma st <= 1 / 4)%R /\
  (0 < p_alpha st <= 1 / 5)%R.

(** The ten arrays, in the order of the fields of [tnv_thread_t]. *)
Definition all_buffers : list buffer :=
  [Input; u; qx; qy; gradx; grady; div; div0; udiff0; udiff].

Section Shapes.
Context {F : Type} {AF : Arith F} {HF : TNVHeader F} {PF : Platform F}.

(** The lengths of the ten arrays of a partition. *)
Definition shape (t : tnv_thread_t F) : list nat :=
  map (fun x => length (buf (arrays t) x)) all_buffers.

(** The array lengths of all partitions. *)
Definition sizes (w : world F) : list (list nat) :=
  map shape (thr_ctx (tnv_ctx w)).

(** Number of cells [tnv_init] allocates for array [x] (lines 191-214). *)
Definition allocation (ctx : tnv_context_t F) (t : tnv_thread_t F)
           (x : buffer) : nat :=
  match x with
  | Input | u | div => dimX ctx * (stepY t + 1) * padZ ctx
  | qx | qy | gradx | grady => dimX ctx * stepY t * padZ ctx
  | div0 | udiff0 | udiff => dimX ctx * padZ ctx
  end.

(** The state [TNV_CPU_init] sets up: no padding of the channels, every
    band with at most one halo row, every array of the size [tnv_init]
    allocates. *)
Definition initialized (w : world F) : Prop :=
  padZ (tnv_ctx w) = dimZ (tnv_ctx w) /\
  forall t, In t (thr_ctx (tnv_ctx w)) ->
    stepY t <= copY t <= stepY t + 1 /\
    forall x, length (buf (arrays t) x) = allocation (tnv_ctx w) t x.

(** What task [t] makes of partition [device_id] when it finds it in
    state [c]: the new state and the calls recorded.  [tnv_finish] leaves
    the partition as it is. *)
Definition task_on (fuel : nat) (t : task) (ctx : tnv_context_t F)
           (m : ptr -> list F) (device_id : nat) (c : tnv_thread_t F)
  : option (tnv_thread_t F * list (event F)) :=
  match t with
  | TaskInit => Some (tnv_init_thread ctx device_id c, [])
  | TaskStart => Some (tnv_start_thread ctx m c, [])
  | TaskStep => tnv_step_thread fuel ctx c
  | TaskRestore => Some (tnv_restore_thread ctx c, [])
  | TaskFinish => Some (c, [])
  end.
End Shapes.

(** [b'] has the arrays of [b] in size. *)
Definition same_lengths {F : Type} (b b' : buffers F) : Prop :=
  forall x, length (buf b' x) = length (buf b x).

Section Indices.
Context {F : Type}.

(** Line 247: where a partition keeps cell (row [j], column [i], channel
    [k]) of its band: channels innermost. *)
Definition local_index (ctx : tnv_context_t F) (j i k : nat) : nat :=
  j * dimX ctx * padZ ctx + i * padZ ctx + k.

(** Line 248: where a caller's volume keeps row [j] of the band at offset
    [off]: channels outermost. *)
Definition volume_index (ctx : tnv_context_t F) (off j i k : nat) : nat :=
  k * dimX ctx * dimY ctx + (j + off) * dimX ctx + i.
End Indices.

(** Cell [(k, j, i)] comes before cell [(k0, j0, i0)] in the order of the
    loops of [tnv_start]. *)
Definition ingested_before (k0 j0 i0 k j i : nat) : Prop :=
  k < k0 \/ (k = k0 /\ (j < j0 \/ (j = j0 /\ i < i0))).

Section IngestStates.
Context {F : Type} {AF : Arith F}.
Variable ctx : tnv_context_t F.
Variable m : ptr -> list F.
Variable t : tnv_thread_t F.

(** Both copies of cell [(k, j, i)] of the band of [t] are in place in
    [b]: the estimate in [u], the noisy volume in [Input]. *)
Definition copied (b : buffers F) (k j i : nat) : Prop :=
  rd b u (local_index ctx j i k)
  = nth (volume_index ctx (offY t) j i k) (m (uT ctx)) f0 /\
  rd b Input (local_index ctx j i k)
  = nth (volume_index ctx (offY t) j i k) (m (InputT ctx)) f0.

(** The arrays [b] have the sizes of those of [t], and the cells for which
    [P] holds are copied. *)
Definition ingested (P : nat -> nat -> nat -> Prop) (b : buffers F) : Prop :=
  same_lengths (arrays t) b /\
  forall k j i, k < dimZ ctx -> j < copY t -> i < dimX ctx ->
                P k j i -> copied b k j i.
End IngestStates.

(** What the boundary pass of lines 563-582 has no business with: the
    band, the statistics and every array but [div]. *)
Definition beside_div {F : Type} (t : tnv_thread_t F) :=
  (band t, results t,
   map (buf (arrays t)) [Input; u; qx; qy; gradx; grady; div0; udiff0; udiff]).

(** The two residuals and the two norms are sums of magnitudes and of
    squares. *)
Definition nonneg_stats (a : stats R) : Prop :=
  (0 <= resprimal a)%R /\ (0 <= resdual a)%R /\
  (0 <= unorm a)%R /\ (0 <= qnorm a)%R.

(** The partition's copy of its band of the noisy volume. *)
Definition input_copy {F : Type} (t : tnv_thread_t F) : list F :=
  buf (arrays t) Input.

Section WriteBack.
Context {F : Type} {AF : Arith F}.

(** The stores of [tnv_finish] (lines 268-276) for a partition in state
    [c], in the order of the loops: index into the estimate volume and
    value stored. *)
Definition finish_writes (ctx : tnv_context_t F) (c : tnv_thread_t F)
  : list (nat * F) :=
  flat_map (fun k =>
    flat_map (fun j =>
      map (fun i => (volume_index ctx (offY c) j i k,
                     rd (arrays c) u (local_index ctx j i k)))
          (seq 0 (dimX ctx)))
      (seq 0 (stepY c)))
    (seq 0 (dimZ ctx)).

(** A list after a sequence of stores. *)
Definition apply_writes (l : list F) (ws : list (nat * F)) : list F :=
  fold_left (fun l x => upd l (fst x) (snd x)) ws l.

(** The stores of the first [n] partitions. *)
Definition phase_writes (ctx : tnv_context_t F) (n : nat) : list (nat * F) :=
  flat_map (fun d => match nth_error (thr_ctx ctx) d with
                     | Some c => finish_writes ctx c
                     | None => []
                     end)
           (seq 0 n).

(** The bands lie inside the image and do not overlap: each ends where
    a later one starts, or before. *)
Definition tiled (w : world F) : Prop :=
  forall d c, nth_error (thr_ctx (tnv_ctx w)) d = Some c ->
    offY c + stepY c <= dimY (tnv_ctx w) /\
    forall d' c', nth_error (thr_ctx (tnv_ctx w)) d' = Some c' -> d < d' ->
                  offY c + stepY c <= offY c'.
End WriteBack.

Section DualStep.
Context {F : Type} {AF : Arith F}.

(** Lines 390-392 for one channel: the vector (vx, vy) whose products
    enter the matrix handed to [coefF], from the channel's [ubarx],
    [ubary], [qx], [qy]. *)
Definition dual_arg (divsigma : F) (c : F * F * F * F) : F * F :=
  let '(bx, by_, qx_, qy_) := c in
  (fadd bx (fmul divsigma qx_), fadd by_ (fmul divsigma qy_)).

(** Lines 377 and 393-395: the sums M1, M2, M3 over the channels. *)
Definition gram (divsigma : F) (cs : list (F * F * F * F)) : F * F * F :=
  fold_left (fun M c =>
               let '(M1, M2, M3) := M in
               let '(vx, vy) := dual_arg divsigma c in
               (fadd M1 (fmul vx vx), fadd M2 (fmul vx vy),
                fadd M3 (fmul vy vy)))
            cs (f0, f0, f0).

(** Lines 403-413 for one channel: the new values of [qx] and [qy]. *)
Definition dual_step (sigma divsigma : F) (t : F * F * F)
           (c : F * F * F * F) : F * F :=
  let '(t0, t1, t2) := t in
  let '(bx, by_, qx_, qy_) := c in
  let vx := fadd bx (fmul divsigma qx_) in
  let vy := fadd by_ (fmul divsigma qy_) in
  let gx_upd := fadd (fmul vx t0) (fmul vy t1) in
  let gy_upd := fadd (fmul vx t1) (fmul vy t2) in
  (fadd qx_ (fmul sigma (fsub bx gx_upd)),
   fadd qy_ (fmul sigma (fsub by_ gy_upd))).
End DualStep.

(** Sum of a list of reals. *)
Definition sum_R (l : list R) : R := fold_right Rplus 0%R l.

(** The Gram matrix (sum of squares of the first entries, sum of products,
    sum of squares of the second entries) of a list of pairs. *)
Definition gram_of (l : list (R * R)) : R * R * R :=
  (sum_R (map (fun p => fst p * fst p) l),
   sum_R (map (fun p => fst p * snd p) l),
   sum_R (map (fun p => snd p * snd p) l))%R.

(** A symmetric 2 x 2 matrix (a b; b c) is positive semidefinite with
    eigenvalues at most one: spectral norm at most one for a Gram
    matrix. *)
Definition within_unit_ball (g : R * R * R) : Prop :=
  let '(a, b, c) := g in
  (0 <= a <= 1)%R /\ (0 <= c <= 1)%R /\ (b * b <= a * c)%R /\
  (b * b <= (1 - a) * (1 - c))%R.

(** The Gram matrix of the new dual values of a pixel, from the Gram
    matrix [M] of its channel vectors and the matrix [t] that [coefF]
    returned: sigma^2 (I - T) M (I - T). *)
Definition dual_gram (sigma : R) (M t : R * R * R) : R * R * R :=
  let '(M1, M2, M3) := M in
  let '(t0, t1, t2) := t in
  let r0 := (1 - t0)%R in
  let r1 := (- t1)%R in
  let r2 := (1 - t2)%R in
  (sigma * sigma * (r0 * r0 * M1 + 2 * (r0 * r1) * M2 + r1 * r1 * M3),
   sigma * sigma * (r0 * r1 * M1 + (r0 * r2 + r1 * r1) * M2 + r1 * r2 * M3),
   sigma * sigma * (r1 * r1 * M1 + 2 * (r1 * r2) * M2 + r2 * r2 * M3))%R.

Section PixelChannels.
Context {F : Type} {AF : Arith F}.

(** Where pixel [(j, i)] of a partition keeps its first channel. *)
Definition pixel_base (e : step_env F) (j i : nat) : nat :=
  (j * e_dimX e + i) * e_padZ e.

(** The data of channel [k] of pixel [(j, i)] that determine its new dual
    value: [ubarx] and [ubary] as the first channel loop left them in the
    scratch arrays [sc], and [qx] and [qy] as the arrays [b] had them
    before the pixel. *)
Definition channel (e : step_env F) (j i : nat) (sc : scratch F)
           (b : buffers F) (k : nat) : F * F * F * F :=
  (nth k (ubarx sc) f0, nth k (ubary sc) f0,
   rd b qx (pixel_base e j i + k), rd b qy (pixel_base e j i + k)).

(** One step of the sums of lines 393-395. *)
Definition gram_step (divsigma : F) (M : F * F * F) (c : F * F * F * F)
  : F * F * F :=
  let '(M1, M2, M3) := M in
  let '(vx, vy) := dual_arg divsigma c in
  (fadd M1 (fmul vx vx), fadd M2 (fmul vx vy), fadd M3 (fmul vy vy)).
End PixelChannels.

(** *** Inputs for the further properties *)

(** A machine with [cpus] processors in exact arithmetic; fresh memory
    holds zeros. *)
Definition real_platform (cpus : nat) : Platform R :=
  {| hw_sched_get_cpu_count := cpus;
     malloc_content := fun _ _ _ => 0%R |}.

(** A caller's memory over the reals: the 2 x 4 image of columns 0 and 1
    at 1, a zero estimate at 2. *)
Definition real_memory : ptr -> list R :=
  fun p => if p =? 1 then map IZR [0; 1; 0; 1; 0; 1; 0; 1]%Z
           else if p =? 2 then repeat 0%R 8 else [].

(** A 2 x 4 checkerboard of +1 and -1 with one channel. *)
Definition checker_image : list binary32 :=
  map b32_of_Z [1; -1; -1; 1; 1; -1; -1; 1]%Z.

(** The caller's memory of a cold start: the checkerboard at 1, a zero
    estimate at 2. *)
Definition cold_memory : ptr -> list binary32 :=
  fun p => if p =? 1 then checker_image
           else if p =? 2 then repeat (b32_of_Z 0) 8 else [].

Section ColdDemo.
#[local] Existing Instance toolkit_header.
#[local] Instance cold_processors : Platform binary32 := demo_platform 2.

(** Lines 530-538 on the cold start: lambda = 1, two processors. *)
Definition cold_booted : option (world binary32) :=
  let w := boot cold_memory in
  let w := set_ctx w (set_lambda (tnv_ctx w) (fdiv f1 (fmul f2 (b32_of_Z 1)))) in
  w <- TNV_CPU_init 0 1 2 2 4 1 w ;;
  Some (set_ctx w (set_volumes (tnv_ctx w) 1 2)).

(** The state after ingest. *)
Definition cold_ingested : option (world binary32) :=
  w <- cold_booted ;; hw_sched_run 0 TaskStart w.

(** The states of the cold start before and after ingest ([boot] stands
    for a run that does not return). *)
Definition cold_world0 : world binary32 :=
  match cold_booted with Some w => w | None => boot cold_memory end.

Definition cold_world : world binary32 :=
  match cold_ingested with Some w => w | None => boot cold_memory end.

(** The first iteration on it, and the statistics it measures. *)
Definition cold_first : world binary32 * pdhg binary32 :=
  match iteration 0 2 4 1 cold_world pdhg0 with
  | Some r => r
  | None => (cold_world, pdhg0)
  end.

Definition cold_measured : world binary32 * stats binary32 :=
  match measure 0 2 1 cold_world pdhg0 with
  | Some r => r
  | None => (cold_world, stats0)
  end.
End ColdDemo.

(** The dual values of the channels of pixel [(j, i)] in the arrays [b]:
    the columns of the 2 x dimZ matrix whose spectral norm the dual step
    bounds. *)
Definition pixel_duals {F : Type} {AF : Arith F} (e : step_env F)
           (j i : nat) (b : buffers F) : list (F * F) :=
  map (fun k => (rd b qx (pixel_base e j i + k),
                 rd b qy (pixel_base e j i + k)))
      (seq 0 (e_dimZ e)).

(** A context over the reals for an image of one pixel with two channels
    and all step sizes equal to one. *)
Definition pair_context : tnv_context_t R :=
  mkContext 1 [] 1 2 1 1 2 2 1%R 1%R 1%R 1%R.

(** Arrays of the pixel: the estimate and its gradients at zero, the dual
    values (3, 0) in the first channel and (0, 4) in the second. *)
Definition pair_arrays : buffers R :=
  let z := repeat 0%R 4 in
  mkBuffers z z [3; 0; 0; 0]%R [0; 4; 0; 0]%R z z z z z z.

Definition pair_thread : tnv_thread_t R :=
  mkThread 0 1 1 pair_arrays stats0.

Definition pair_state : step_state R :=
  mkStep pair_arrays (scratch0 2) stats0 [].


(** *** Notions and inputs for the properties of a whole call *)

(** The cells of the image a call works on.  Once the scheduler exists
    they are those of the dimensions that the first call stored, whatever
    dimensions the call is given. *)
Definition solve_cells {F : Type} (w : world F) (dX dY dZ : nat) : nat :=
  match sched w with
  | Some _ => dimX (tnv_ctx w) * dimY (tnv_ctx w) * dimZ (tnv_ctx w)
  | None => dX * dY * dZ
  end.


Section AliasedDemo.
#[local] Existing Instance toolkit_header.
#[local] Instance aliased_processors : Platform binary32 := demo_platform 2.

(** The noisy volume after a call with one iteration that is given the
    same volume, at 1, as input and as estimate. *)
Definition demo_aliased : option (list binary32) :=
  option_map (fun r => mem (snd r) 1)
             (TNV_CPU_main 0 1 1 (b32_of_Z 1) 1 (b32_of_Z 0) 2 4 1
                           (boot demo_memory)).

End AliasedDemo.

(** Lines 194-196: the number of floats of array [x] as [tnv_init]
    computes it, by products on [int]. *)
Definition int_allocation {F : Type} (ctx : tnv_context_t F)
           (t : tnv_thread_t F) (x : buffer) : Z :=
  let dX := Z.of_nat (dimX ctx) in
  let pZ := Z.of_nat (padZ ctx) in
  match x with
  | Input | u | div => int_mul (int_mul dX (Z.of_nat (stepY t + 1))) pZ
  | qx | qy | gradx | grady => int_mul (int_mul dX (Z.of_nat (stepY t))) pZ
  | div0 | udiff0 | udiff => int_mul dX pZ
  end.

(** The float 1e20, whose square exceeds the largest binary32 number. *)
Definition huge32 : binary32 := b32_of_Z (10 ^ 20).

(** The singular values, in binary32, of the matrix
    (1.303e15 0; 0 1e12): about 3.6e7 and 1e6. *)
Definition wide_singular_values : binary32 * binary32 :=
  singular_values (b32_of_Z (1303 * 10 ^ 12)) f0 (b32_of_Z (10 ^ 12)).


(** * Properties *)

Unset Implicit Arguments.

(** ** The proximal operator in exact arithmetic *)

Section ProximalReal.
Context {HF : TNVHeader R}.
Open Scope R_scope.

Ltac real_ops :=
  unfold f0, f1, f2, f4, lit in *;
  cbn [fofZ fadd fsub fmul fdiv fsqrt fabs real_arith] in *.

Lemma MAX_Rmax (a b : R) : MAX a b = Rmax a b.
Proof.
  unfold MAX, Rmax; simpl.
  destruct (Rlt_dec a b), (Rle_dec a b); try reflexivity; lra.
Qed.

Lemma fgt_real_true (a b : R) : b < a -> fgt a b = true.
Proof. intros; unfold fgt; simpl. destruct (Rlt_dec b a); auto; lra. Qed.

Lemma fgt_real_false (a b : R) : a <= b -> fgt a b = false.
Proof. intros; unfold fgt; simpl. destruct (Rlt_dec b a); auto; lra. Qed.

Lemma fne_real_refl (a : R) : fne a a = false.
Proof. unfold fne; simpl. destruct (Req_dec_T a a); auto; lra. Qed.

Lemma singular_values_real (M1 M2 M3 : R) :
  let det :=
    sqrt (Rmax ((M1 + M3) * (M1 + M3) / 4 - (M1 * M3 - M2 * M2)) 0) in
  singular_values M1 M2 M3 =
  (sqrt (Rmax ((M1 + M3) / 2 + det) 0), sqrt (Rmax ((M1 + M3) / 2 - det) 0)).
Proof.
  unfold singular_values, eigenvalues. rewrite !MAX_Rmax. reflexivity.
Qed.

Lemma singular_values_order (M1 M2 M3 : R) :
  0 <= snd (singular_values M1 M2 M3) <= fst (singular_values M1 M2 M3).
Proof.
  rewrite singular_values_real. cbv zeta. cbn [fst snd].
  split; [apply sqrt_pos|].
  apply sqrt_le_1_alt.
  set (d := sqrt _). assert (0 <= d) by apply sqrt_pos.
  apply Rle_max_compat_r. lra.
Qed.

(** *** The water-filling loop *)

Lemma l1_loop_exit n (s : l1state R) : l1sum s <= 1 -> l1_loop n s = Some s.
Proof. intros. destruct n; cbn [l1_loop]; rewrite fgt_real_false; auto. Qed.

Lemma l1_pass_real (p0 p1 sm sh : R) (nm : Z) :
  l1_pass (mkL1 p0 p1 sm nm sh) =
  settled sh (Rmax (p0 - sh) 0) (Rmax (p1 - sh) 0).
Proof.
  unfold l1_pass, settled, nz. cbn [proj_0 proj_1 shrinkfactor].
  rewrite !MAX_Rmax. unfold fne. real_ops.
  set (q0 := Rmax (p0 - sh) 0). set (q1 := Rmax (p1 - sh) 0).
  assert (0 <= q0) by apply Rmax_r. assert (0 <= q1) by apply Rmax_r.
  f_equal.
  - rewrite !Rabs_pos_eq by auto. lra.
  - cbn [feq real_arith].
    destruct (Req_dec_T q0 0), (Req_dec_T q1 0); reflexivity.
Qed.

Lemma l1_loop_step n (s : l1state R) :
  1 < l1sum s ->
  let q0 := Rmax (proj_0 s - shrinkfactor s) 0 in
  let q1 := Rmax (proj_1 s - shrinkfactor s) 0 in
  l1_loop (S n) s =
  if (0 <? nz q0 + nz q1)%Z
  then l1_loop n (settled (next_shrink q0 q1) q0 q1)
  else Some (settled (shrinkfactor s) q0 q1).
Proof.
  intros Hs q0 q1. cbn [l1_loop]. rewrite fgt_real_true by assumption.
  destruct s as [p0 p1 sm nm sh]. rewrite l1_pass_real.
  cbn [proj_0 proj_1 l1sum l1num shrinkfactor settled]. reflexivity.
Qed.

Lemma nz_pos (x : R) : 0 < x -> nz x = 1%Z.
Proof. intros; unfold nz; destruct (Req_dec_T x 0); auto; lra. Qed.

Lemma nz_zero : nz 0 = 0%Z.
Proof. unfold nz; destruct (Req_dec_T 0 0); auto; lra. Qed.

Lemma converged_exit n s :
  l1sum s <= 1 -> proj_0 s + proj_1 s <= 1 -> converged (l1_loop n s).
Proof. intros; exists s; split; [apply l1_loop_exit|]; assumption. Qed.

(** With a single entry left, one more pass brings it to one. *)
Lemma l1_loop_single n (p : R) :
  1 <= p ->
  converged (l1_loop (S n) (settled (next_shrink p 0) p 0)) /\
  converged (l1_loop (S n) (settled (next_shrink 0 p) 0 p)).
Proof.
  intros Hp. unfold next_shrink. rewrite nz_zero, nz_pos by lra.
  cbn [Z.add]. replace ((p + 0 - 1) / 1) with (p - 1) by lra.
  replace ((0 + p - 1) / 1) with (p - 1) by lra.
  destruct (Req_dec_T p 1) as [->|Hne].
  - split; apply converged_exit; cbn; lra.
  - assert (1 < p) by lra.
    split; rewrite l1_loop_step by (cbn; lra); cbv zeta;
      cbn [proj_0 proj_1 shrinkfactor settled];
      replace (p - (p - 1)) with 1 by lra;
      rewrite (Rmax_left 1 0) by lra;
      rewrite (Rmax_right (0 - (p - 1)) 0) by lra;
      rewrite nz_zero, nz_pos by lra; cbn [Z.add Z.ltb Z.compare];
      apply converged_exit; cbn; lra.
Qed.

(** After the first pass at most two more are needed. *)
Lemma l1_loop_settled n (p0 p1 : R) :
  0 <= p0 -> 0 <= p1 ->
  converged (l1_loop (S (S n)) (settled (next_shrink p0 p1) p0 p1)).
Proof.
  intros H0 H1.
  destruct (Rle_dec (p0 + p1) 1) as [Hle|Hgt].
  { apply converged_exit; cbn; lra. }
  assert (Hs : 1 < p0 + p1) by lra.
  destruct (Req_dec_T p1 0) as [->|Hp1].
  { apply (l1_loop_single (S n)); lra. }
  destruct (Req_dec_T p0 0) as [->|Hp0].
  { apply (l1_loop_single (S n)); lra. }
  assert (Esh : next_shrink p0 p1 = (p0 + p1 - 1) / 2).
  { unfold next_shrink. rewrite !nz_pos by lra. reflexivity. }
  rewrite Esh. set (sh := (p0 + p1 - 1) / 2).
  rewrite l1_loop_step by (cbn; lra). cbv zeta.
  cbn [proj_0 proj_1 shrinkfactor settled].
  destruct (Rle_dec sh p0) as [A0|A0]; destruct (Rle_dec sh p1) as [A1|A1].
  - rewrite (Rmax_left (p0 - sh) 0), (Rmax_left (p1 - sh) 0) by lra.
    assert (E : p0 - sh + (p1 - sh) = 1) by (unfold sh; lra).
    destruct (0 <? nz (p0 - sh) + nz (p1 - sh))%Z.
    + apply converged_exit; cbn; lra.
    + eexists; split; [reflexivity|cbn; lra].
  - rewrite (Rmax_left (p0 - sh) 0), (Rmax_right (p1 - sh) 0) by lra.
    rewrite nz_zero, nz_pos by (unfold sh in *; lra).
    cbn [Z.add Z.ltb Z.compare].
    apply (l1_loop_single n). unfold sh in *; lra.
  - rewrite (Rmax_right (p0 - sh) 0), (Rmax_left (p1 - sh) 0) by lra.
    rewrite nz_zero, nz_pos by (unfold sh in *; lra).
    cbn [Z.add Z.ltb Z.compare].
    apply (l1_loop_single n). unfold sh in *; lra.
  - exfalso. unfold sh in *. lra.
Qed.

Lemma l1_loop_converges (a b L : R) (n : nat) :
  0 <= a -> 0 <= b -> 1 < L -> (3 <= n)%nat ->
  converged (l1_loop n (mkL1 a b L 0%Z 0)).
Proof.
  intros Ha Hb HL Hn.
  destruct n as [|[|[|n]]]; try lia.
  rewrite l1_loop_step by (cbn; lra). cbv zeta.
  cbn [proj_0 proj_1 shrinkfactor].
  replace (a - 0) with a by lra. replace (b - 0) with b by lra.
  rewrite !Rmax_left by lra.
  destruct (0 <? nz a + nz b)%Z eqn:E.
  - apply l1_loop_settled; assumption.
  - eexists; split; [reflexivity|]. cbn.
    unfold nz in E.
    destruct (Req_dec_T a 0), (Req_dec_T b 0); try discriminate. lra.
Qed.

Lemma l1_loop_returns (a b L : R) (n : nat) :
  0 <= a -> 0 <= b -> (3 <= n)%nat ->
  exists s, l1_loop n (mkL1 a b L 0%Z 0) = Some s.
Proof.
  intros Ha Hb Hn. destruct (Rlt_dec 1 L) as [HL|HL].
  - destruct (l1_loop_converges a b L n Ha Hb HL Hn) as [s [E _]]. eauto.
  - eexists. apply l1_loop_exit. cbn. lra.
Qed.
End ProximalReal.

(** The loop treats both entries alike (in any arithmetic). *)
Lemma l1_loop_symmetric {F : Type} {AF : Arith F} (n : nat) :
  forall s s' : l1state F,
    l1_loop n s = Some s' -> proj_0 s = proj_1 s -> proj_0 s' = proj_1 s'.
Proof.
  induction n as [|n IH]; intros s s'; cbn [l1_loop].
  - destruct (fgt (l1sum s) f1); congruence.
  - destruct (fgt (l1sum s) f1); [|congruence].
    assert (E : proj_0 s = proj_1 s -> proj_0 (l1_pass s) = proj_1 (l1_pass s)).
    { intros E. unfold l1_pass. cbn [proj_0 proj_1]. now rewrite E. }
    destruct (0 <? l1num (l1_pass s))%Z.
    + intros H1 H2. apply (IH _ _ H1). cbn [proj_0 proj_1]. auto.
    + intros H1 H2. injection H1 as <-. auto.
Qed.

(** C7. In exact arithmetic, for a positive-semidefinite input matrix
    (M1 >= 0, M3 >= 0, M1 M3 >= M2 M2) the singular values computed by
    [coefF] satisfy sig1 >= sig2 >= 0. *)
Theorem C7_singular_values_ordered (M1 M2 M3 : R) :
  (0 <= M1)%R -> (0 <= M3)%R -> (M2 * M2 <= M1 * M3)%R ->
  (snd (singular_values M1 M2 M3) <= fst (singular_values M1 M2 M3))%R /\
  (0 <= snd (singular_values M1 M2 M3))%R.
Proof.
  intros _ _ _. destruct (singular_values_order M1 M2 M3). split; assumption.
Qed.

Lemma C7_singular_values_ordered_witness :
  (snd (singular_values 2 1 2) <= fst (singular_values 2 1 2))%R /\
  (0 <= snd (singular_values 2 1 2))%R.
Proof. apply (C7_singular_values_ordered 2 1 2); lra. Defined.

(** C8. In exact arithmetic, with [fLarge > 1] and for every input matrix
    and every sigma > 0, the water-filling loop of the [INFNORM] branch
    returns within three passes, and the two projected magnitudes then sum
    to at most 1 + eps, for every tolerance eps >= 0. *)
Theorem C8_water_filling_bound (HF : TNVHeader R) (fuel : nat)
        (M1 M2 M3 sigma eps : R) :
  (0 < sigma)%R -> (0 <= eps)%R -> (1 < fLarge)%R -> 3 <= fuel ->
  exists s,
    l1_projection fuel sigma (fst (singular_values M1 M2 M3))
                  (snd (singular_values M1 M2 M3)) = Some s /\
    (proj_0 s + proj_1 s <= 1 + eps)%R.
Proof.
  intros Hs He HL Hf. unfold l1_projection.
  destruct (l1_loop_converges
              (sigma * Rabs (fst (singular_values M1 M2 M3)))%R
              (sigma * Rabs (snd (singular_values M1 M2 M3)))%R
              fLarge fuel) as [s [E B]]; auto.
  - apply Rmult_le_pos; [lra|apply Rabs_pos].
  - apply Rmult_le_pos; [lra|apply Rabs_pos].
  - exists s. split; [exact E|lra].
Qed.

Lemma C8_water_filling_bound_witness :
  exists s,
    l1_projection (HF:=toolkit_header) 3 1%R
                  (fst (singular_values 4 0 1)%R)
                  (snd (singular_values 4 0 1)%R) = Some s /\
    (proj_0 s + proj_1 s <= 1 + 0)%R.
Proof.
  apply (C8_water_filling_bound toolkit_header 3 4 0 1 1 0)%R; try lra.
  - cbn. lra.
  - lia.
Defined.

(** C6. In exact arithmetic, for a matrix with M2 = 0 and M1 = M3 and for
    sigma > 0, under both shrinkage rules (p = 1 and p = INFNORM) [coefF]
    returns a multiple of the identity: t1 = 0 and t0 = t2. *)
Theorem C6_identity_multiple (HF : TNVHeader R) (fuel : nat)
        (M1 M2 M3 sigma : R) (p q r : Z) :
  M2 = 0%R -> M1 = M3 -> (0 < sigma)%R -> p = 1%Z \/ p = INFNORM ->
  3 <= fuel ->
  exists c : R, coefF fuel M1 M2 M3 sigma p q r = Some (c, 0%R, c).
Proof.
  intros -> <- Hs Hp Hf.
  assert (Eeig : eigenvalues M1 0%R M1 = (Rmax M1 0, Rmax M1 0)).
  { unfold eigenvalues. rewrite !MAX_Rmax.
    unfold f0, f2, f4; cbn [fofZ fadd fsub fmul fdiv fsqrt real_arith].
    replace ((M1 + M1) * (M1 + M1) / 4 - (M1 * M1 - 0 * 0))%R with 0%R by lra.
    rewrite (Rmax_left 0 0) by lra. rewrite sqrt_0.
    f_equal; f_equal; lra. }
  unfold coefF, singular_values. rewrite Eeig.
  set (sg := fsqrt (Rmax M1 0)).
  assert (Evec : eigenvectors M1 0%R M1 (Rmax M1 0) (Rmax M1 0)
                 = (f0, f1, f1, f0)).
  { unfold eigenvectors. change (fne 0%R f0) with (fne 0%R 0%R).
    rewrite fne_real_refl. rewrite fgt_real_false by lra. reflexivity. }
  rewrite Evec.
  assert (Hdiag : exists x, prox_diag fuel sigma sg sg p = Some (x, x)).
  { unfold prox_diag. destruct (p =? 1)%Z; [eauto|].
    destruct (p =? INFNORM)%Z; [|eauto].
    unfold l1_projection.
    destruct (l1_loop_returns (fmul sigma (fabs sg)) (fmul sigma (fabs sg))
                fLarge fuel) as [s E]; auto;
      try (apply Rmult_le_pos; [lra|apply Rabs_pos]).
    unfold f0 at 1. cbn [fofZ real_arith].
    rewrite E. rewrite (l1_loop_symmetric _ _ _ E) by reflexivity. eauto. }
  destruct Hdiag as [x ->].
  unfold reconstruct.
  set (y := if fgt sg fTiny then fdiv x sg else x).
  exists y. unfold f0, f1; cbn [fofZ fadd fmul real_arith].
  f_equal. f_equal; [f_equal|]; lra.
Qed.

Lemma C6_identity_multiple_witness :
  exists c : R,
    coefF (HF:=toolkit_header) 3 2%R 0%R 2%R 1%R (-1)%Z 1%Z 0%Z
    = Some (c, 0%R, c).
Proof.
  apply (C6_identity_multiple toolkit_header 3 2 0 2 1 (-1) 1 0)%R;
    try reflexivity; try lra; try lia; right; reflexivity.
Defined.

(** ** Arrays and folds *)

Lemma upd_length {A : Type} (l : list A) : forall i v,
  length (upd l i v) = length l.
Proof.
  induction l as [|h t IH]; intros [|i] v; cbn; auto.
Qed.

Lemma map_upd {A B : Type} (f : A -> B) (l : list A) : forall i v,
  map f (upd l i v) = upd (map f l) i (f v).
Proof.
  induction l as [|h t IH]; intros [|i] v; cbn; auto. now rewrite IH.
Qed.

Lemma upd_same {A : Type} (l : list A) : forall i v,
  nth_error l i = Some v -> upd l i v = l.
Proof.
  induction l as [|h t IH]; intros [|i] v; cbn; auto.
  - congruence.
  - intros E. now rewrite IH.
Qed.

Lemma fold_left_ind {S A : Type} (I : S -> Prop) (f : S -> A -> S)
      (l : list A) :
  (forall s a, In a l -> I s -> I (f s a)) -> forall s, I s -> I (fold_left f l s).
Proof.
  induction l as [|a l IH]; cbn; intros Hf s Hs; [assumption|].
  apply IH; auto.
Qed.

Lemma foldM_ind {S A : Type} (I : S -> Prop) (f : A -> S -> option S)
      (l : list A) :
  (forall a s s', In a l -> I s -> f a s = Some s' -> I s') ->
  forall s s', I s -> foldM f l s = Some s' -> I s'.
Proof.
  induction l as [|a l IH]; cbn; intros Hf s s' Hs E.
  - now inversion E; subst.
  - destruct (f a s) as [s1|] eqn:E1; cbn in E; [|discriminate].
    apply (IH (fun a s s' Hin => Hf a s s' (or_intror Hin)) s1 s'); eauto.
Qed.

Lemma foldM_total {S A : Type} (I : S -> Prop) (f : A -> S -> option S)
      (l : list A) :
  (forall a s, In a l -> I s -> exists s', f a s = Some s' /\ I s') ->
  forall s, I s -> exists s', foldM f l s = Some s' /\ I s'.
Proof.
  induction l as [|a l IH]; cbn; intros Hf s Hs; eauto.
  destruct (Hf a s (or_introl eq_refl) Hs) as [s1 [E1 H1]].
  rewrite E1; cbn. apply IH; auto.
Qed.

Lemma foldM_app {S A : Type} (f : A -> S -> option S) (l1 l2 : list A) :
  forall s, foldM f (l1 ++ l2) s = (s' <- foldM f l1 s ;; foldM f l2 s').
Proof.
  induction l1 as [|a l1 IH]; cbn; intros s; auto.
  destruct (f a s); cbn; auto.
Qed.

Lemma foldM_map {S A B : Type} (f : B -> S -> option S) (g : A -> B)
      (l : list A) :
  forall s, foldM f (map g l) s = foldM (fun a => f (g a)) l s.
Proof.
  induction l as [|a l IH]; cbn; intros s; auto.
  destruct (f (g a) s); cbn; auto.
Qed.

(** ** What the tasks and the orchestrator leave in place *)

Section Frames.
Context {F : Type} {AF : Arith F} {HF : TNVHeader F} {PF : Platform F}.
Variable fuel : nat.
Variable W : ptr -> Prop.
Variable P : event F -> Prop.

Lemma evolves_refl (w : world F) : evolves W P w w.
Proof.
  split; [reflexivity|]. split; [reflexivity|].
  exists []. now rewrite app_nil_r.
Qed.

Lemma evolves_trans (w1 w2 w3 : world F) :
  evolves W P w1 w2 -> evolves W P w2 w3 -> evolves W P w1 w3.
Proof.
  intros [L1 [M1 [e1 [T1 F1]]]] [L2 [M2 [e2 [T2 F2]]]].
  split; [congruence|]. split.
  - intros p Hp. rewrite M2, M1; auto.
  - exists (e1 ++ e2). rewrite T2, T1, app_assoc. split; auto.
    apply Forall_app; auto.
Qed.

Lemma evolves_silent (w w' : world F) :
  layout w' = layout w -> mem w' = mem w -> trace w' = trace w ->
  evolves W P w w'.
Proof.
  intros L M T. split; [assumption|]. split.
  - intros; now rewrite M.
  - exists []. now rewrite app_nil_r.
Qed.

Lemma evolves_log (w : world F) (es : list (event F)) :
  Forall P es -> evolves W P w (log w es).
Proof.
  intros H. split; [reflexivity|]. split; [reflexivity|]. now exists es.
Qed.

Lemma layout_uT (w w' : world F) :
  layout w' = layout w -> uT (tnv_ctx w') = uT (tnv_ctx w).
Proof. unfold layout. intros E. now injection E. Qed.

Lemma layout_sched (w w' : world F) :
  layout w' = layout w -> sched w' = sched w.
Proof. unfold layout. intros E. now injection E. Qed.

Lemma layout_threads (w w' : world F) :
  layout w' = layout w -> threads (tnv_ctx w') = threads (tnv_ctx w).
Proof. unfold layout. intros E. now injection E. Qed.

Lemma layout_length (w w' : world F) :
  layout w' = layout w ->
  length (thr_ctx (tnv_ctx w')) = length (thr_ctx (tnv_ctx w)).
Proof.
  intros E.
  assert (B : map band (thr_ctx (tnv_ctx w')) = map band (thr_ctx (tnv_ctx w)))
    by (unfold layout in E; now injection E).
  rewrite <- (length_map band (thr_ctx (tnv_ctx w'))), B. apply length_map.
Qed.

Lemma layout_pooled (w w' : world F) :
  layout w' = layout w -> pooled w -> pooled w'.
Proof.
  intros L [H1 H2]. unfold pooled.
  rewrite (layout_sched _ _ L), (layout_threads _ _ L), (layout_length _ _ L).
  auto.
Qed.

Lemma bands_upd (ts : list (tnv_thread_t F)) (d : nat) (t t' : tnv_thread_t F) :
  nth_error ts d = Some t -> band t' = band t ->
  map band (upd ts d t') = map band ts.
Proof.
  intros E B. rewrite map_upd, B. apply upd_same.
  now apply map_nth_error.
Qed.

Lemma evolves_set_thread (w : world F) (d : nat) (t t' : tnv_thread_t F) :
  nth_error (thr_ctx (tnv_ctx w)) d = Some t -> band t' = band t ->
  evolves W P w (set_thread w d t').
Proof.
  intros E B. apply evolves_silent; try reflexivity.
  unfold layout, set_thread, set_ctx, set_thr_ctx. cbn.
  now rewrite (bands_upd _ _ _ _ E B).
Qed.

Lemma evolves_store (w : world F) (p : ptr) (i : nat) (v : F) :
  W p -> evolves W P w (store w p i v).
Proof.
  intros Hp. split; [reflexivity|]. split.
  - intros q Hq. cbn. destruct (Nat.eqb_spec q p); [subst; tauto|reflexivity].
  - exists []. cbn. now rewrite app_nil_r.
Qed.

(** *** The tasks *)

Lemma tnv_init_evolves (d : nat) (w w' : world F) :
  tnv_init d w = Some w' -> evolves W P w w'.
Proof.
  unfold tnv_init. destruct (nth_error _ d) as [t|] eqn:E; cbn; [|discriminate].
  intros H; injection H as <-. now apply (evolves_set_thread _ _ _ _ E).
Qed.

Lemma tnv_start_evolves (d : nat) (w w' : world F) :
  tnv_start d w = Some w' -> evolves W P w w'.
Proof.
  unfold tnv_start. destruct (nth_error _ d) as [t|] eqn:E; cbn; [|discriminate].
  intros H; injection H as <-. now apply (evolves_set_thread _ _ _ _ E).
Qed.

Lemma tnv_restore_evolves (d : nat) (w w' : world F) :
  tnv_restore d w = Some w' -> evolves W P w w'.
Proof.
  unfold tnv_restore. destruct (nth_error _ d) as [t|] eqn:E; cbn; [|discriminate].
  intros H; injection H as <-. now apply (evolves_set_thread _ _ _ _ E).
Qed.

Lemma tnv_finish_evolves (d : nat) (w w' : world F) :
  W (uT (tnv_ctx w)) -> tnv_finish d w = Some w' -> evolves W P w w'.
Proof.
  intros HW. unfold tnv_finish.
  destruct (nth_error _ d) as [t|] eqn:E; cbn; [|discriminate].
  intros H; injection H as <-.
  apply fold_left_ind; [|apply evolves_refl]. intros w1 k _ H1.
  apply fold_left_ind; [|assumption]. intros w2 j _ H2.
  apply fold_left_ind; [|assumption]. intros w3 i _ H3.
  eapply evolves_trans; [exact H3|]. now apply evolves_store.
Qed.

Lemma pixel_calls (e : step_env F) (j i : nat) (s s' : step_state F) :
  pixel fuel e j i s = Some s' ->
  s_calls s' = s_calls s ++ [EvCoefF (e_p e) (e_q e) (e_r e)].
Proof.
  unfold pixel. destruct (coefF _ _ _ _ _ _ _ _); cbn; [|discriminate].
  intros H; now injection H as <-.
Qed.

Lemma step_rows_calls (e : step_env F) (s s' : step_state F) :
  step_rows fuel e s = Some s' ->
  exists evs, s_calls s' = s_calls s ++ evs /\
              Forall (eq (EvCoefF (e_p e) (e_q e) (e_r e))) evs.
Proof.
  unfold step_rows.
  set (I := fun s' : step_state F =>
              exists evs, s_calls s' = s_calls s ++ evs /\
                          Forall (eq (EvCoefF (e_p e) (e_q e) (e_r e))) evs).
  apply (foldM_ind I).
  - intros j s1 s2 _ I1. apply (foldM_ind I); [|assumption].
    intros i s3 s4 _ [evs [E3 F3]] E.
    exists (evs ++ [EvCoefF (e_p e) (e_q e) (e_r e)]).
    rewrite (pixel_calls _ _ _ _ _ E), E3, app_assoc. split; auto.
    apply Forall_app; auto.
  - exists []. now rewrite app_nil_r.
Qed.

Lemma tnv_step_thread_spec (ctx : tnv_context_t F) (t t' : tnv_thread_t F)
      (evs : list (event F)) :
  tnv_step_thread fuel ctx t = Some (t', evs) ->
  band t' = band t /\ Forall (eq (EvCoefF 1 1 0)) evs.
Proof.
  unfold tnv_step_thread.
  destruct (step_rows _ _ _) as [s|] eqn:E; cbn; [|discriminate].
  intros H; injection H as <- <-. split; [reflexivity|].
  destruct (step_rows_calls _ _ _ E) as [evs [E1 F1]].
  cbn in E1. now rewrite E1.
Qed.

Lemma tnv_step_evolves (d : nat) (w w' : world F) :
  P (EvCoefF 1 1 0) -> tnv_step fuel d w = Some w' -> evolves W P w w'.
Proof.
  intros HP. unfold tnv_step.
  destruct (nth_error _ d) as [t|] eqn:E; cbn; [|discriminate].
  destruct (tnv_step_thread _ _ _) as [[t' evs]|] eqn:E1; cbn; [|discriminate].
  intros H; injection H as <-.
  destruct (tnv_step_thread_spec _ _ _ _ E1) as [B C].
  eapply evolves_trans; [apply (evolves_set_thread _ _ _ _ E B)|].
  apply evolves_log. eapply Forall_impl; [|exact C]. now intros a <-.
Qed.

Lemma run_task_evolves (t : task) (d : nat) (w w' : world F) :
  (t = TaskFinish -> W (uT (tnv_ctx w))) ->
  (t = TaskStep -> P (EvCoefF 1 1 0)) ->
  run_task fuel t d w = Some w' -> evolves W P w w'.
Proof.
  intros HW HP. destruct t; cbn.
  - apply tnv_init_evolves.
  - apply tnv_start_evolves.
  - apply tnv_step_evolves; auto.
  - apply tnv_restore_evolves.
  - apply tnv_finish_evolves; auto.
Qed.

Lemma hw_sched_run_evolves (t : task) (w w' : world F) :
  (forall d, P (EvTask t d)) ->
  (t = TaskFinish -> W (uT (tnv_ctx w))) ->
  (t = TaskStep -> P (EvCoefF 1 1 0)) ->
  hw_sched_run fuel t w = Some w' -> evolves W P w w'.
Proof.
  intros HT HW HP. unfold hw_sched_run.
  destruct (sched w) as [n|]; cbn; [|discriminate].
  apply (foldM_ind (evolves W P w)); [|apply evolves_refl].
  intros d s s' _ I E.
  eapply evolves_trans; [exact I|].
  eapply evolves_trans; [apply (evolves_log s [EvTask t d]); auto|].
  eapply run_task_evolves; [| |exact E]; auto.
  intros ->. cbn. destruct I as [L _]. rewrite (layout_uT _ _ L). auto.
Qed.
End Frames.

(** *** The orchestrator *)

Section Orchestration.
Context {F : Type} {AF : Arith F} {HF : TNVHeader F} {PF : Platform F}.
Variable fuel : nat.
Variable W : ptr -> Prop.
Variable P : event F -> Prop.

Lemma border_bands (dX dZ pz : nat) (divtau : F) (j : nat)
      (s s' : list (tnv_thread_t F) * F) :
  border dX dZ pz divtau j s = Some s' ->
  map band (fst s') = map band (fst s).
Proof.
  destruct s as [ts rp]. unfold border.
  destruct (nth_error ts (j - 1)) as [t0|] eqn:E0; cbn; [|discriminate].
  destruct (nth_error ts j) as [t1|] eqn:E1; cbn; [|discriminate].
  destruct (fold_left _ _ _) as [[c0 c1] rp'].
  intros H; injection H as <-. cbn.
  rewrite !map_upd.
  change (band (set_arrays t0 c0)) with (band t0).
  change (band (set_arrays t1 c1)) with (band t1).
  rewrite (upd_same _ (j - 1)) by now apply map_nth_error.
  apply upd_same. now apply map_nth_error.
Qed.

Lemma borders_bands (dX dZ pz n : nat) (divtau : F)
      (ts : list (tnv_thread_t F)) (r : list (tnv_thread_t F) * F) :
  borders dX dZ pz n divtau ts = Some r -> map band (fst r) = map band ts.
Proof.
  unfold borders.
  apply (foldM_ind (fun s => map band (fst s) = map band ts)); [|reflexivity].
  intros j s s' _ I E. now rewrite (border_bands _ _ _ _ _ _ _ E).
Qed.

Lemma measure_evolves (dX dZ : nat) (w w' : world F) (st : pdhg F)
      (a : stats F) :
  (forall d, P (EvTask TaskStep d)) -> P (EvCoefF 1 1 0) ->
  measure fuel dX dZ w st = Some (w', a) -> evolves W P w w'.
Proof.
  intros HT HC. unfold measure.
  set (w0 := set_ctx w _).
  destruct (hw_sched_run fuel TaskStep w0) as [w1|] eqn:E1; cbn; [|discriminate].
  destruct (borders _ _ _ _ _ _) as [r|] eqn:E2; cbn; [|discriminate].
  destruct (aggregate _ _ _) as [a'|]; cbn; [|discriminate].
  intros H; injection H as <- <-.
  apply evolves_trans with w0; [now apply evolves_silent|].
  apply evolves_trans with w1.
  - apply (hw_sched_run_evolves fuel W P TaskStep); auto. discriminate.
  - apply evolves_silent; try reflexivity.
    unfold layout, set_ctx, set_thr_ctx. cbn.
    now rewrite (borders_bands _ _ _ _ _ _ _ E2).
Qed.

Lemma adapt_evolves (w w' : world F) (st st' : pdhg F) (a : stats F)
      (res : F) :
  iteration_alphabet P ->
  (p_started st = false -> forall d, P (EvTask TaskRestore d)) ->
  adapt fuel w st a res = Some (w', st') -> evolves W P w w'.
Proof.
  intros [_ [_ [_ HWarn]]] HR. unfold adapt.
  destruct (fgt (balance st a) f1).
  - destruct (p_started st) eqn:Es.
    + intros H; injection H as <- <-. apply evolves_log. auto.
    + destruct (hw_sched_run fuel TaskRestore w) as [w1|] eqn:E1; cbn;
        [|discriminate].
      intros H; injection H as <- <-.
      apply (hw_sched_run_evolves fuel W P TaskRestore); auto; discriminate.
  - destruct (fgt _ _); [|destruct (flt _ _)];
      intros H; injection H as <- <-; apply evolves_refl.
Qed.

Lemma adapt_started (w w' : world F) (st st' : pdhg F) (a : stats F)
      (res : F) :
  adapt fuel w st a res = Some (w', st') ->
  p_started st' = p_started st || negb (fgt (balance st a) f1).
Proof.
  unfold adapt. destruct (fgt (balance st a) f1); cbn.
  - rewrite orb_false_r. destruct (p_started st).
    + intros H; now injection H as <- <-.
    + destruct (hw_sched_run fuel TaskRestore w); cbn; [|discriminate].
      intros H; now injection H as <- <-.
  - rewrite orb_true_r.
    destruct (fgt _ _); [|destruct (flt _ _)];
      intros H; now injection H as <- <-.
Qed.

Lemma iteration_evolves (dX dY dZ : nat) (w w' : world F) (st st' : pdhg F) :
  iteration_alphabet P ->
  (p_started st = false -> forall d, P (EvTask TaskRestore d)) ->
  iteration fuel dX dY dZ w st = Some (w', st') -> evolves W P w w'.
Proof.
  intros HA HR. unfold iteration.
  destruct (measure fuel dX dZ w st) as [[w1 a]|] eqn:E1; cbn; [|discriminate].
  intros E2.
  apply evolves_trans with w1.
  { apply (measure_evolves _ _ _ _ _ _ (proj1 HA) (proj1 (proj2 HA)) E1). }
  eapply evolves_trans; [|exact (adapt_evolves _ _ _ _ _ _ HA HR E2)].
  apply evolves_log. constructor; [|constructor]. apply HA.
Qed.

Lemma iteration_started (dX dY dZ : nat) (w w' : world F) (st st' : pdhg F) :
  iteration fuel dX dY dZ w st = Some (w', st') ->
  p_started st = true -> p_started st' = true.
Proof.
  unfold iteration.
  destruct (measure fuel dX dZ w st) as [[w1 a]|]; cbn; [|discriminate].
  intros E Hs. rewrite (adapt_started _ _ _ _ _ _ E), Hs. reflexivity.
Qed.

Lemma iterate_evolves (tol : F) (dX dY dZ : nat) (n : nat) :
  iteration_alphabet P ->
  forall (iter : nat) (w w' : world F) (st st' : pdhg F) (iter' : nat),
    (p_started st = false -> forall d, P (EvTask TaskRestore d)) ->
    iterate fuel n iter tol dX dY dZ w st = Some (w', st', iter') ->
    evolves W P w w' /\ (p_started st = true -> p_started st' = true).
Proof.
  intros HA. induction n as [|n IH]; intros iter w w' st st' iter' HR; cbn.
  - intros H; injection H as <- <- <-. split; [apply evolves_refl|auto].
  - destruct (iteration fuel dX dY dZ w st) as [[w1 st1]|] eqn:E1; cbn;
      [|discriminate].
    pose proof (iteration_evolves _ _ _ _ _ _ _ HA HR E1) as V1.
    pose proof (iteration_started _ _ _ _ _ _ _ E1) as S1.
    destruct (flt (p_residual st1) tol).
    + intros H; injection H as <- <- <-. split; assumption.
    + intros E2. apply IH in E2.
      * destruct E2 as [V2 S2]. split; [now apply evolves_trans with w1|auto].
      * intros Hs. apply HR. destruct (p_started st); [|reflexivity].
        rewrite S1 in Hs; [discriminate|reflexivity].
Qed.
End Orchestration.

(** ** The solver returns *)

Section Returns.
Context {F : Type} {AF : Arith F} {HF : TNVHeader F} {PF : Platform F}.
Variable fuel : nat.

(** With [p = 1] the soft threshold is taken and the loop is not entered,
    whatever the fuel and the value of [INFNORM]. *)
Lemma prox_diag_L1 (sg s1 s2 : F) :
  prox_diag fuel sg s1 s2 1 =
  Some (MAX (fsub s1 (fdiv f1 sg)) f0, MAX (fsub s2 (fdiv f1 sg)) f0).
Proof. reflexivity. Qed.

Lemma coefF_L1 (M1 M2 M3 sg : F) (q r : Z) :
  exists t, coefF fuel M1 M2 M3 sg 1 q r = Some t.
Proof.
  unfold coefF. destruct (eigenvalues M1 M2 M3) as [e1 e2].
  destruct (singular_values M1 M2 M3) as [s1 s2].
  destruct (eigenvectors M1 M2 M3 e1 e2) as [[[V1 V2] V3] V4].
  rewrite prox_diag_L1. eauto.
Qed.

Lemma pixel_returns (e : step_env F) (j i : nat) (s : step_state F) :
  e_p e = 1%Z -> exists s', pixel fuel e j i s = Some s'.
Proof.
  intros Ep. unfold pixel. rewrite Ep.
  destruct (coefF_L1 (g_M1 (fold_left (gather e j i) (seq 0 (e_dimZ e))
                              (mkGathered (s_arr s) (s_scr s) f0 f0 f0)))
                     (g_M2 (fold_left (gather e j i) (seq 0 (e_dimZ e))
                              (mkGathered (s_arr s) (s_scr s) f0 f0 f0)))
                     (g_M3 (fold_left (gather e j i) (seq 0 (e_dimZ e))
                              (mkGathered (s_arr s) (s_scr s) f0 f0 f0)))
                     (e_sigma e) (e_q e) (e_r e)) as [t ->].
  cbn. eauto.
Qed.

Lemma step_rows_returns (e : step_env F) (s : step_state F) :
  e_p e = 1%Z -> exists s', step_rows fuel e s = Some s'.
Proof.
  intros Ep. unfold step_rows.
  destruct (foldM_total (fun _ => True)
              (fun j s => foldM (fun i s => pixel fuel e j i s)
                                (seq 0 (e_dimX e)) s)
              (seq 0 (e_stepY e))) with (s := s) as [s' [E _]]; eauto.
  intros j s1 _ _.
  apply (foldM_total (fun _ => True)); auto.
  intros i s2 _ _. destruct (pixel_returns e j i s2 Ep) as [s3 E]. eauto.
Qed.

Lemma tnv_step_thread_returns (ctx : tnv_context_t F) (t : tnv_thread_t F) :
  exists r, tnv_step_thread fuel ctx t = Some r.
Proof.
  unfold tnv_step_thread.
  destruct (step_rows_returns (step_env_of ctx t)
              (mkStep (first_row (step_env_of ctx t) (arrays t))
                      (scratch0 (e_dimZ (step_env_of ctx t))) stats0 []))
    as [s ->]; [reflexivity|].
  cbn. eauto.
Qed.

Lemma run_task_returns (t : task) (d : nat) (w : world F) :
  d < length (thr_ctx (tnv_ctx w)) -> exists w', run_task fuel t d w = Some w'.
Proof.
  intros Hd.
  destruct (nth_error (thr_ctx (tnv_ctx w)) d) as [c|] eqn:E;
    [|apply nth_error_None in E; lia].
  destruct t; cbn;
    unfold tnv_init, tnv_start, tnv_step, tnv_restore, tnv_finish;
    rewrite E; cbn; eauto.
  destruct (tnv_step_thread_returns (tnv_ctx w) c) as [r ->]. cbn. eauto.
Qed.

Lemma hw_sched_run_returns (t : task) (w : world F) :
  pooled w ->
  exists w', hw_sched_run fuel t w = Some w' /\ layout w' = layout w.
Proof.
  intros [Hs Hl]. unfold hw_sched_run. rewrite Hs. cbn.
  apply (foldM_total (fun s => layout s = layout w)); [|reflexivity].
  intros d s Hin L. apply in_seq in Hin.
  destruct (run_task_returns t d (log s [EvTask t d])) as [w' E].
  { cbn. rewrite (layout_length _ _ L). lia. }
  exists w'. split; [assumption|].
  destruct (run_task_evolves fuel (fun _ => True) (@any_event F) t d _ _
              (fun _ => I) (fun _ => I) E) as [L' _].
  rewrite L'. exact L.
Qed.

Lemma border_returns (dX dZ pz : nat) (divtau : F) (j : nat)
      (s : list (tnv_thread_t F) * F) :
  j < length (fst s) ->
  exists s', border dX dZ pz divtau j s = Some s' /\
             length (fst s') = length (fst s).
Proof.
  destruct s as [ts rp]. cbn. intros Hj. unfold border.
  destruct (nth_error ts (j - 1)) as [t0|] eqn:E0;
    [|apply nth_error_None in E0; lia].
  destruct (nth_error ts j) as [t1|] eqn:E1;
    [|apply nth_error_None in E1; lia].
  cbn. destruct (fold_left _ _ _) as [[c0 c1] rp'].
  eexists. split; [reflexivity|]. cbn. now rewrite !upd_length.
Qed.

Lemma borders_returns (dX dZ pz n : nat) (divtau : F)
      (ts : list (tnv_thread_t F)) :
  n <= length ts ->
  exists r, borders dX dZ pz n divtau ts = Some r /\
            length (fst r) = length ts.
Proof.
  intros Hn. unfold borders.
  apply (foldM_total (fun s => length (fst s) = length ts)); [|reflexivity].
  intros j s Hin L. apply in_seq in Hin.
  destruct (border_returns dX dZ pz divtau j s) as [s' [E L']]; [lia|].
  exists s'. split; [assumption|congruence].
Qed.

Lemma aggregate_returns (n : nat) (ts : list (tnv_thread_t F)) (rp : F) :
  n <= length ts -> exists a, aggregate n ts rp = Some a.
Proof.
  intros Hn. unfold aggregate.
  destruct (foldM_total (fun _ : stats F => True)
    (fun j a =>
       t <- nth_error ts j ;;
       Some (mkStats (fadd (resprimal a) (resprimal (results t)))
                     (fadd (resdual a) (resdual (results t)))
                     (fadd (unorm a) (unorm (results t)))
                     (fadd (qnorm a) (qnorm (results t)))
                     (fadd (product a) (product (results t)))))
    (seq 0 n)) with (s := mkStats rp f0 f0 f0 f0) as [a [E _]]; eauto.
  intros j a Hin _. apply in_seq in Hin.
  destruct (nth_error ts j) as [t|] eqn:E;
    [|apply nth_error_None in E; lia].
  cbn. eauto.
Qed.

Lemma measure_returns (dX dZ : nat) (w : world F) (st : pdhg F) :
  pooled w ->
  exists w' a, measure fuel dX dZ w st = Some (w', a) /\ pooled w'.
Proof.
  intros Hp. unfold measure.
  set (w0 := set_ctx w _).
  assert (Hp0 : pooled w0) by exact Hp.
  destruct (hw_sched_run_returns TaskStep w0 Hp0) as [w1 [E1 L1]].
  rewrite E1; cbn.
  pose proof (layout_pooled _ _ L1 Hp0) as [Hs1 Hl1].
  destruct (borders_returns dX dZ (padZ (tnv_ctx w)) (threads (tnv_ctx w1))
              (fdiv f1 (p_tau st)) (thr_ctx (tnv_ctx w1))) as [r [E2 L2]];
    [lia|].
  change (padZ (tnv_ctx w0)) with (padZ (tnv_ctx w)).
  rewrite E2; cbn.
  destruct (aggregate_returns (threads (tnv_ctx w1)) (fst r) (snd r))
    as [a ->]; [lia|].
  cbn. eexists; eexists; split; [reflexivity|].
  split; cbn; [assumption|lia].
Qed.

Lemma adapt_returns (w : world F) (st : pdhg F) (a : stats F) (res : F) :
  pooled w ->
  exists w' st', adapt fuel w st a res = Some (w', st') /\ pooled w'.
Proof.
  intros Hp. unfold adapt.
  destruct (fgt (balance st a) f1).
  - destruct (p_started st).
    + eexists; eexists; split; [reflexivity|exact Hp].
    + destruct (hw_sched_run_returns TaskRestore w Hp) as [w1 [-> L1]].
      cbn. eexists; eexists; split; [reflexivity|].
      exact (layout_pooled _ _ L1 Hp).
  - destruct (fgt _ _); [|destruct (flt _ _)];
      (eexists; eexists; split; [reflexivity|exact Hp]).
Qed.

Lemma iteration_returns (dX dY dZ : nat) (w : world F) (st : pdhg F) :
  pooled w ->
  exists w' st', iteration fuel dX dY dZ w st = Some (w', st') /\ pooled w'.
Proof.
  intros Hp. unfold iteration.
  destruct (measure_returns dX dZ w st Hp) as [w1 [a [-> Hp1]]]. cbn.
  apply adapt_returns. exact Hp1.
Qed.

Lemma iterate_returns (tol : F) (dX dY dZ : nat) (n : nat) :
  forall (iter : nat) (w : world F) (st : pdhg F),
    pooled w ->
    exists w' st' iter',
      iterate fuel n iter tol dX dY dZ w st = Some (w', st', iter') /\
      pooled w'.
Proof.
  induction n as [|n IH]; intros iter w st Hp; cbn.
  - eexists; eexists; eexists; split; [reflexivity|exact Hp].
  - destruct (iteration_returns dX dY dZ w st Hp) as [w1 [st1 [-> Hp1]]].
    cbn. destruct (flt (p_residual st1) tol).
    + eexists; eexists; eexists; split; [reflexivity|exact Hp1].
    + apply IH. exact Hp1.
Qed.

Lemma split_rows_length (count : nat) : forall i off step extra n,
  length (split_rows (F:=F) count i off step extra n) = count.
Proof.
  induction count as [|c IH]; intros; cbn; [reflexivity|]. now rewrite IH.
Qed.

Lemma TNV_CPU_init_reuses (inT outT : ptr) (dX dY dZ : nat) (w : world F) :
  sched w <> None -> TNV_CPU_init fuel inT outT dX dY dZ w = Some w.
Proof.
  unfold TNV_CPU_init. destruct (sched w); [reflexivity|congruence].
Qed.

Lemma TNV_CPU_init_first (inT outT : ptr) (dX dY dZ : nat) (w : world F) :
  sched w = None -> partition_count hw_sched_get_cpu_count dY <> 0 ->
  exists w',
    TNV_CPU_init fuel inT outT dX dY dZ w = Some w' /\ pooled w' /\
    threads (tnv_ctx w') = partition_count hw_sched_get_cpu_count dY.
Proof.
  intros Hs Hn. unfold TNV_CPU_init. rewrite Hs.
  destruct (Nat.eqb_spec (partition_count hw_sched_get_cpu_count dY) 0)
    as [E|_]; [contradiction|].
  match goal with |- context [hw_sched_run fuel TaskInit ?x] => set (w0 := x) end.
  assert (Hp0 : pooled w0).
  { split; [reflexivity|]. cbn. apply split_rows_length. }
  destruct (hw_sched_run_returns TaskInit w0 Hp0) as [w' [E L]].
  exists w'. split; [assumption|]. split; [exact (layout_pooled _ _ L Hp0)|].
  now rewrite (layout_threads _ _ L).
Qed.

Lemma TNV_CPU_main_returns (inT outT : ptr) (lam : F) (maxIter : nat)
      (tol : F) (dX dY dZ : nat) (w : world F) :
  pooled w \/
  (sched w = None /\ partition_count hw_sched_get_cpu_count dY <> 0) ->
  exists ret w',
    TNV_CPU_main fuel inT outT lam maxIter tol dX dY dZ w = Some (ret, w') /\
    pooled w'.
Proof.
  intros Hw. unfold TNV_CPU_main.
  set (w0 := set_ctx w _).
  assert (Hi : exists w1, TNV_CPU_init fuel inT outT dX dY dZ w0 = Some w1 /\
                          pooled w1).
  { destruct Hw as [Hp|[Hs Hn]].
    - exists w0. split; [|exact Hp].
      apply TNV_CPU_init_reuses. destruct Hp as [Hs _]. cbn. congruence.
    - destruct (TNV_CPU_init_first inT outT dX dY dZ w0 Hs Hn)
        as [w1 [E [Hp _]]]. eauto. }
  destruct Hi as [w1 [-> Hp1]]. cbn.
  set (w2 := set_ctx w1 _).
  assert (Hp2 : pooled w2) by exact Hp1.
  destruct (hw_sched_run_returns TaskStart w2 Hp2) as [w3 [-> L3]]. cbn.
  pose proof (layout_pooled _ _ L3 Hp2) as Hp3.
  destruct (iterate_returns tol dX dY dZ maxIter 0 w3 (pdhg0 (F:=F)) Hp3)
    as [w4 [st [it [-> Hp4]]]]. cbn.
  destruct (hw_sched_run_returns TaskFinish w4 Hp4) as [w5 [-> L5]]. cbn.
  eexists; eexists; split; [reflexivity|].
  exact (layout_pooled _ _ L5 Hp4).
Qed.
End Returns.

(** ** A whole call of the solver *)

Section Solve.
Context {F : Type} {AF : Arith F} {HF : TNVHeader F} {PF : Platform F}.
Variable fuel : nat.

Lemma TNV_CPU_init_inv (P : event F -> Prop) (inT outT : ptr)
      (dX dY dZ : nat) (w w1 : world F) :
  (forall d, P (EvTask TaskInit d)) ->
  TNV_CPU_init fuel inT outT dX dY dZ w = Some w1 ->
  (forall p, mem w1 p = mem w p) /\
  (exists evs, trace w1 = trace w ++ evs /\ Forall P evs) /\
  lambda (tnv_ctx w1) = lambda (tnv_ctx w).
Proof.
  intros HP. unfold TNV_CPU_init. destruct (sched w).
  - intros H; injection H as <-. repeat split.
    exists []. now rewrite app_nil_r.
  - destruct (_ =? 0); [discriminate|].
    intros E.
    apply (hw_sched_run_evolves fuel no_volume P TaskInit) in E;
      auto; try discriminate.
    destruct E as [L [M T]]. repeat split.
    + intros p. apply M. unfold no_volume. tauto.
    + exact T.
    + unfold layout in L. cbn in L. now injection L.
Qed.

Lemma TNV_CPU_main_inv (inT outT : ptr) (lam : F) (maxIter : nat) (tol : F)
      (dX dY dZ : nat) (w w' : world F) (ret : F) :
  TNV_CPU_main fuel inT outT lam maxIter tol dX dY dZ w = Some (ret, w') ->
  exists w1,
    TNV_CPU_init fuel inT outT dX dY dZ
                 (set_ctx w (set_lambda (tnv_ctx w) (fdiv f1 (fmul f2 lam))))
    = Some w1 /\
    forall (W : ptr -> Prop) (P : event F -> Prop),
      W outT -> solve_alphabet P ->
      evolves W P (set_ctx w1 (set_volumes (tnv_ctx w1) inT outT)) w'.
Proof.
  unfold TNV_CPU_main.
  destruct (TNV_CPU_init _ _ _ _ _ _ _) as [w1|]; cbn; [|discriminate].
  set (w2 := set_ctx w1 _).
  destruct (hw_sched_run fuel TaskStart w2) as [w3|] eqn:E3; cbn;
    [|discriminate].
  destruct (iterate _ _ _ _ _ _ _ _ _) as [[[w4 st] it]|] eqn:E4; cbn;
    [|discriminate].
  destruct (hw_sched_run fuel TaskFinish w4) as [w5|] eqn:E5; cbn;
    [|discriminate].
  intros H; injection H as <- <-.
  exists w1. split; [reflexivity|].
  intros W P HW [HA [HT1 [HT2 [HT3 [HS HRet]]]]].
  assert (V3 : evolves W P w2 w3).
  { apply (hw_sched_run_evolves fuel W P TaskStart); auto; discriminate. }
  assert (V4 : evolves W P w3 w4).
  { apply (iterate_evolves fuel W P tol dX dY dZ maxIter HA 0 w3 w4
             (pdhg0 (F:=F)) st it); auto. }
  assert (V5 : evolves W P w4 w5).
  { apply (hw_sched_run_evolves fuel W P TaskFinish); auto; try discriminate.
    intros _. destruct V3 as [L3 _]. destruct V4 as [L4 _].
    rewrite (layout_uT _ _ L4), (layout_uT _ _ L3). exact HW. }
  apply evolves_trans with w3; [assumption|].
  apply evolves_trans with w4; [assumption|].
  apply evolves_trans with w5; [assumption|].
  apply evolves_log. repeat constructor; auto.
Qed.

Lemma any_solve_alphabet : solve_alphabet (@any_event F).
Proof. repeat split. Qed.

Lemma calls_L1_solve_alphabet : solve_alphabet (@calls_L1 F).
Proof. repeat split. Qed.


End Solve.

(** C9. Every call of [coefF] made during a solve passes [p = 1]; and with
    [p = 1] the shrinkage is the soft threshold of the L1 branch, computed
    without entering the water-filling loop (for any bound on its passes
    and any value of [INFNORM]). *)
Theorem C9_only_L1_branch
        {F : Type} {AF : Arith F} {HF : TNVHeader F} {PF : Platform F}
        (fuel : nat) (inT outT : ptr) (lam : F) (maxIter : nat) (tol : F)
        (dX dY dZ : nat) (w w' : world F) (ret : F) :
  TNV_CPU_main fuel inT outT lam maxIter tol dX dY dZ w = Some (ret, w') ->
  (exists evs, trace w' = trace w ++ evs /\
               forall p q r, In (EvCoefF p q r) evs -> p = 1%Z) /\
  (forall n sg s1 s2,
      prox_diag n sg s1 s2 1 =
      Some (MAX (fsub s1 (fdiv f1 sg)) f0, MAX (fsub s2 (fdiv f1 sg)) f0)).
Proof.
  intros E. split; [|intros; apply prox_diag_L1].
  destruct (TNV_CPU_main_inv _ _ _ _ _ _ _ _ _ _ _ _ E) as [w1 [E1 V]].
  destruct (V (fun _ => True) (@calls_L1 F) I calls_L1_solve_alphabet)
    as [_ [_ [evs2 [T2 F2]]]].
  destruct (TNV_CPU_init_inv fuel (@calls_L1 F) _ _ _ _ _ _ _
              (fun _ => I) E1) as [_ [[evs1 [T1 F1]] _]].
  exists (evs1 ++ evs2). split.
  - rewrite T2. cbn. rewrite T1. cbn. now rewrite app_assoc.
  - intros p q r Hin.
    assert (Fa : Forall (@calls_L1 F) (evs1 ++ evs2)) by now apply Forall_app.
    rewrite Forall_forall in Fa. exact (Fa _ Hin).
Qed.

(** C2 (amended). On the first call, with at least two rows and at least one
    processor, initialization returns and the partition count P it chooses
    is at most the available parallelism and at most dimY; it is dimY/2
    when the parallelism exceeds dimY and the parallelism itself
    otherwise. *)
Theorem C2_partition_count_bounds
        {F : Type} {AF : Arith F} {HF : TNVHeader F} {PF : Platform F}
        (fuel : nat) (inT outT : ptr) (dX dY dZ : nat) (w : world F) :
  2 <= dY -> 1 <= hw_sched_get_cpu_count -> sched w = None ->
  exists w',
    TNV_CPU_init fuel inT outT dX dY dZ w = Some w' /\
    threads (tnv_ctx w') <= hw_sched_get_cpu_count /\
    threads (tnv_ctx w') <= dY /\
    (dY < hw_sched_get_cpu_count -> threads (tnv_ctx w') = dY / 2) /\
    (hw_sched_get_cpu_count <= dY ->
     threads (tnv_ctx w') = hw_sched_get_cpu_count).
Proof.
  intros HY HC Hs.
  assert (Hdiv : 1 <= dY / 2 <= dY).
  { split; [apply Nat.div_le_lower_bound; lia|apply Nat.Div0.div_le_upper_bound; lia]. }
  assert (Hpc : partition_count hw_sched_get_cpu_count dY <> 0).
  { unfold partition_count. destruct (dY <? hw_sched_get_cpu_count); lia. }
  destruct (TNV_CPU_init_first fuel inT outT dX dY dZ w Hs Hpc)
    as [w' [E [_ Ht]]].
  exists w'. split; [exact E|]. rewrite Ht. unfold partition_count.
  destruct (Nat.ltb_spec dY hw_sched_get_cpu_count); repeat split; lia.
Qed.

(** ** The primal residual of a step *)

Section PrimalResidual.
Context {F : Type} {AF : Arith F} {HF : TNVHeader F} {PF : Platform F}.
Variable fuel : nat.

Lemma primal_residual_app (e : step_env F)
      (c1 c2 : list (nat * nat * nat * dual_cell F)) (r0 : F) :
  primal_residual e (c1 ++ c2) r0 =
  primal_residual e c2 (primal_residual e c1 r0).
Proof. unfold primal_residual. apply fold_left_app. Qed.

Lemma scatter_cells (e : step_env F) (j i : nat) (t : F * F * F)
      (sc : scratch F) (ks : list nat) :
  forall (b : buffers F) (a : stats F),
    resprimal (snd (fold_left (scatter e j i t sc) ks (b, a))) =
    primal_residual e (channel_cells e j i t sc b ks) (resprimal a) /\
    map fst (channel_cells e j i t sc b ks) = map (fun k => (j, i, k)) ks.
Proof.
  induction ks as [|k ks IH]; intros b a; cbn [fold_left channel_cells map].
  - split; reflexivity.
  - destruct (IH (d_arr (dual_update e j i t sc b k))
                 (accumulate e j k sc (dual_update e j i t sc b k) a))
      as [IH1 IH2].
    split.
    + unfold scatter at 2. cbn [fst snd]. rewrite IH1. reflexivity.
    + cbn [fst]. now rewrite IH2.
Qed.

Lemma pixel_cells_spec (e : step_env F) (j i : nat) (s s' : step_state F) :
  pixel fuel e j i s = Some s' ->
  exists c,
    pixel_cells fuel e j i s = Some c /\
    resprimal (s_acc s') = primal_residual e c (resprimal (s_acc s)) /\
    map fst c = map (fun k => (j, i, k)) (seq 0 (e_dimZ e)).
Proof.
  unfold pixel, pixel_cells.
  destruct (coefF _ _ _ _ _ _ _ _) as [t|]; cbn [bind]; [|discriminate].
  intros H; injection H as <-. cbn [s_acc].
  eexists. split; [reflexivity|]. apply scatter_cells.
Qed.

Lemma step_rows_flat (e : step_env F) (s : step_state F) :
  step_rows fuel e s =
  foldM (fun ji s => pixel fuel e (fst ji) (snd ji) s) (pixels e) s.
Proof.
  unfold step_rows, pixels. revert s.
  induction (seq 0 (e_stepY e)) as [|j js IH]; intros s; [reflexivity|].
  cbn [foldM list_prod]. rewrite foldM_app, foldM_map. cbn [fst snd].
  destruct (foldM _ (seq 0 (e_dimX e)) s); cbn [bind]; auto.
Qed.

Lemma cells_from_spec (e : step_env F) (px : list (nat * nat)) :
  forall s s' : step_state F,
    foldM (fun ji s => pixel fuel e (fst ji) (snd ji) s) px s = Some s' ->
    exists cells,
      cells_from fuel e px s = Some cells /\
      resprimal (s_acc s') = primal_residual e cells (resprimal (s_acc s)) /\
      map fst cells =
      flat_map (fun ji => map (fun k => (fst ji, snd ji, k))
                              (seq 0 (e_dimZ e))) px.
Proof.
  induction px as [|[j i] px IH]; intros s s'; cbn [foldM cells_from flat_map].
  - intros H; injection H as <-. exists []. repeat split.
  - cbn [fst snd].
    destruct (pixel fuel e j i s) as [s1|] eqn:E1; cbn [bind]; [|discriminate].
    intros E2.
    destruct (pixel_cells_spec _ _ _ _ _ E1) as [c [-> [R1 I1]]].
    destruct (IH _ _ E2) as [cs [-> [R2 I2]]]. cbn [bind].
    exists (c ++ cs). split; [reflexivity|]. split.
    + now rewrite primal_residual_app, <- R1.
    + now rewrite map_app, I1, I2.
Qed.
End PrimalResidual.

(** C3 (amended). A step of a partition returns, and the primal residual it
    leaves is the sum, in the order of the loops, over the cells of every
    row j < stepY, column i < dimX and channel k < dimZ, of the summand
    |udiff/tau + divdiff| of the cell; the only cells left out (0 is added
    for them) are those of row 0 of the partitions whose offset is not 0. *)
Theorem C3_primal_residual_cells
        {F : Type} {AF : Arith F} {HF : TNVHeader F} {PF : Platform F}
        (fuel : nat) (ctx : tnv_context_t F) (t : tnv_thread_t F) :
  exists t' evs cells,
    tnv_step_thread fuel ctx t = Some (t', evs) /\
    step_cells fuel ctx t = Some cells /\
    map fst cells = cell_indices (step_env_of ctx t) /\
    resprimal (results t') = primal_residual (step_env_of ctx t) cells f0.
Proof.
  destruct (tnv_step_thread_returns fuel ctx t) as [[t' evs] E].
  exists t', evs. revert E. unfold tnv_step_thread, step_cells.
  set (e := step_env_of ctx t).
  set (s0 := mkStep _ _ _ _).
  destruct (step_rows fuel e s0) as [s|] eqn:E1; cbn [bind]; [|discriminate].
  intros H; injection H as <- <-.
  rewrite step_rows_flat in E1.
  destruct (cells_from_spec fuel e _ _ _ E1) as [cells [Ec [R I0]]].
  exists cells. repeat split; assumption.
Qed.

(** C3 as stated fails.  At the first step of the demo run the first
    partition (offset 0) leaves the primal residual 4, which is the sum over
    all its cells, row 0 included; leaving out its row 0, as stated, would
    give 2.  The second partition (offset 2) leaves 2, its row 0 left out;
    including it, as stated, would give 4. *)
Lemma C3_counterexample :
  demo_residuals 0 = Some (b32_of_Z 4, b32_of_Z 4, b32_of_Z 2) /\
  demo_residuals 1 = Some (b32_of_Z 2, b32_of_Z 2, b32_of_Z 4) /\
  b32_of_Z 4 <> b32_of_Z 2.
Proof. repeat split; try (vm_compute; reflexivity). discriminate. Qed.

(** ** The step-size controller *)

Section Controller.
Context {F : Type} {AF : Arith F} {HF : TNVHeader F} {PF : Platform F}.
Variable fuel : nat.



Lemma measure_sched (dX dZ : nat) (w w1 : world F) (st : pdhg F)
      (a : stats F) :
  measure fuel dX dZ w st = Some (w1, a) ->
  exists n, sched w = Some n /\ sched w1 = Some n.
Proof.
  intros E.
  destruct (measure_evolves fuel (fun _ => True) (@any_event F) _ _ _ _ _ _
              (fun _ => I) I E) as [L _].
  apply layout_sched in L. revert E. unfold measure, hw_sched_run.
  cbn [sched set_ctx]. destruct (sched w) as [n|]; cbn [bind]; [|discriminate].
  intros _. exists n. split; [reflexivity|assumption].
Qed.





End Controller.


(** ** What a rollback leaves *)

Lemma firstn_fill {A : Type} (l : list A) (v : A) (n : nat) :
  firstn n (fill l v n) = repeat v (Nat.min n (length l)).
Proof.
  unfold fill. rewrite firstn_app, repeat_length.
  rewrite (firstn_all2 (n:=n) (repeat v (Nat.min n (length l))))
    by (rewrite repeat_length; lia).
  destruct (Nat.le_gt_cases n (length l)) as [H|H].
  - replace (n - Nat.min n (length l)) with 0 by lia.
    cbn. apply app_nil_r.
  - rewrite skipn_all2 by lia. rewrite firstn_nil. apply app_nil_r.
Qed.

Lemma foldM_seq_ind {St : Type} (I : nat -> St -> Prop)
      (f : nat -> St -> option St) (k : nat) :
  forall (a : nat) (s s' : St),
    I a s ->
    (forall d s s', a <= d < a + k -> I d s -> f d s = Some s' -> I (1 + d) s') ->
    foldM f (seq a k) s = Some s' -> I (a + k) s'.
Proof.
  induction k as [|k IH]; intros a s s' Ha Hf; cbn [seq foldM].
  - intros H; injection H as <-. now rewrite Nat.add_0_r.
  - destruct (f a s) as [s1|] eqn:E1; cbn [bind]; [|discriminate].
    intros E. replace (a + S k) with (S a + k) by lia.
    apply (IH (S a) s1 s'); [|intros d s2 s3 Hd; apply Hf; lia|exact E].
    apply (Hf a s s1); [lia|assumption|assumption].
Qed.

Lemma nth_error_upd {A : Type} (l : list A) : forall i j v x,
  nth_error (upd l i v) j = Some x ->
  (i = j /\ x = v) \/ (i <> j /\ nth_error l j = Some x).
Proof.
  induction l as [|h t IH]; intros [|i] [|j] v x; cbn; try discriminate.
  - intros H; injection H as <-. left; split; reflexivity.
  - intros H. right. split; [discriminate|assumption].
  - intros H. right. split; [discriminate|assumption].
  - intros H. destruct (IH _ _ _ _ H) as [[-> ->]|[Hne E]].
    + left; split; reflexivity.
    + right. split; [congruence|assumption].
Qed.

Section Rollback.
Context {F : Type} {AF : Arith F} {HF : TNVHeader F} {PF : Platform F}.
Variable fuel : nat.

Lemma zeroed_dims (c1 c2 : tnv_context_t F) (t : tnv_thread_t F) :
  (dimX c1, padZ c1) = (dimX c2, padZ c2) -> zeroed c1 t -> zeroed c2 t.
Proof.
  intros E Z x Hx. specialize (Z x Hx). unfold extent in *.
  injection E as E1 E2. now rewrite <- E1, <- E2.
Qed.

(** [tnv_restore] leaves every mutable field of its partition zero. *)
Lemma tnv_restore_thread_zeroed (ctx : tnv_context_t F) (t : tnv_thread_t F) :
  zeroed ctx (tnv_restore_thread ctx t).
Proof.
  intros x Hx. unfold tnv_restore_thread, extent, clear_fields, clear.
  destruct t as [o s c [i0 i1 i2 i3 i4 i5 i6 i7 i8 i9] r].
  cbn in Hx. cbn [arrays stepY copY set_arrays].
  repeat (destruct Hx as [<-|Hx]); try contradiction;
    cbn [buf set_buf a_Input a_u a_qx a_qy a_gradx a_grady a_div];
    rewrite firstn_fill; apply Forall_forall; intros y Hy;
    symmetry; exact (repeat_spec _ _ _ Hy).
Qed.

Lemma hw_sched_run_restore_zeroed (n : nat) (w w' : world F) :
  sched w = Some n -> hw_sched_run fuel TaskRestore w = Some w' ->
  forall (d : nat) (t : tnv_thread_t F),
    d < n -> nth_error (thr_ctx (tnv_ctx w')) d = Some t ->
    zeroed (tnv_ctx w') t.
Proof.
  intros Hs. unfold hw_sched_run. rewrite Hs. cbn [bind].
  set (I := fun (k : nat) (s : world F) =>
              (dimX (tnv_ctx s), padZ (tnv_ctx s))
              = (dimX (tnv_ctx w), padZ (tnv_ctx w)) /\
              forall d t, d < k -> nth_error (thr_ctx (tnv_ctx s)) d = Some t ->
                          zeroed (tnv_ctx w) t).
  intros E.
  assert (H : I (0 + n) w').
  { revert E. apply (foldM_seq_ind I).
    - split; [reflexivity|]. intros d t Hd. lia.
    - intros d s s' _ [Hdim Hz]. cbn [run_task]. unfold tnv_restore.
      cbn [log tnv_ctx].
      destruct (nth_error (thr_ctx (tnv_ctx s)) d) as [c|] eqn:Ec;
        cbn [bind]; [|discriminate].
      intros H; injection H as <-. split; [exact Hdim|].
      intros i t Hi Hn. cbn in Hn.
      destruct (nth_error_upd _ _ _ _ _ Hn) as [[-> ->]|[Hne Hn']].
      + apply (zeroed_dims (tnv_ctx s)); [exact Hdim|].
        apply tnv_restore_thread_zeroed.
      + apply (Hz i t); [lia|assumption]. }
  destruct H as [Hdim Hz]. intros d t Hd Hn.
  apply (zeroed_dims (tnv_ctx w)); [now symmetry|]. now apply (Hz d).
Qed.

(** An iteration with b > 1 and the flag unset leaves every mutable field
    of every partition zero, whatever ingest had put there. *)
Lemma rollback_zeroes (dX dY dZ : nat) (w w' : world F) (st st' : pdhg F)
      (w1 : world F) (a : stats F) :
  iteration fuel dX dY dZ w st = Some (w', st') ->
  measure fuel dX dZ w st = Some (w1, a) ->
  fgt (balance st a) f1 = true -> p_started st = false -> pooled w ->
  forall t, In t (thr_ctx (tnv_ctx w')) -> zeroed (tnv_ctx w') t.
Proof.
  unfold iteration. intros E E1 Hb Hst Hp. rewrite E1 in E. cbn [bind] in E.
  unfold adapt in E. rewrite Hb, Hst in E.
  destruct (hw_sched_run fuel TaskRestore _) as [w2|] eqn:E2; cbn [bind] in E;
    [|discriminate].
  injection E as <- _.
  destruct (measure_sched fuel _ _ _ _ _ _ E1) as [n [Hs Hs1]].
  assert (L1 : layout w1 = layout w).
  { destruct (measure_evolves fuel (fun _ => True) (@any_event F) _ _ _ _ _ _
                (fun _ => I) I E1) as [L _]. exact L. }
  pose proof (layout_pooled _ _ L1 Hp) as [Hs1' Hl1].
  assert (L2 : layout w2 = layout (log w1 [EvStats (resprimal a) (resdual a)
              (balance st a) (product a) (unorm a) (qnorm a)])).
  { destruct (hw_sched_run_evolves fuel (fun _ => True) (@any_event F)
                TaskRestore _ _ (fun _ => I) (fun H => I)
                (fun H => I) E2) as [L _]. exact L. }
  intros t Hin. apply In_nth_error in Hin. destruct Hin as [d Hd].
  match type of E2 with
  | hw_sched_run _ _ ?x = _ =>
      apply (hw_sched_run_restore_zeroed n x w2 Hs1 E2 d t); [|exact Hd]
  end.
  assert (Hlen : d < length (thr_ctx (tnv_ctx w2))).
  { apply nth_error_Some. congruence. }
  rewrite (layout_length _ _ L2) in Hlen. cbn in Hlen.
  rewrite Hs1 in Hs1'. injection Hs1' as ->. lia.
Qed.
End Rollback.

(** ** The run on the 2 x 4 image *)

Lemma demo_init_pooled :
  exists w, demo_init 2 4 = Some w /\ pooled w.
Proof.
  destruct (TNV_CPU_init_first (PF:=demo_platform 2) (HF:=toolkit_header)
              0 1 2 2 4 1 (boot demo_memory)) as [w [E [Hp _]]].
  - reflexivity.
  - vm_compute. discriminate.
  - exists w. split; assumption.
Qed.

Lemma demo_ingested_pooled :
  exists w, demo_ingested = Some w /\ pooled w.
Proof.
  unfold demo_ingested.
  destruct demo_init_pooled as [w0 [-> Hp0]]. cbn [bind].
  destruct (hw_sched_run_returns (PF:=demo_platform 2) (HF:=toolkit_header)
              0 TaskStart (set_ctx w0 (set_volumes (tnv_ctx w0) 1 2)) Hp0)
    as [w [E L]].
  exists w. split; [exact E|]. exact (layout_pooled _ _ L Hp0).
Qed.

(** C1, at a warm-started input.  The estimate volume holds the image
    itself.  After ingest the partitions hold [u] = 0 1 0 1 0 1 and
    0 1 0 1 and zeros in the other five fields.  The first iteration prints
    the balance ratio 4/3 > 1 and the orchestrator dispatches restore to
    both partitions, the flag staying unset.  Afterwards all six fields are
    zero (as [rollback_zeroes] shows they are for every input): [u] is not
    back to its state after ingest. *)
Theorem C1_restore_drops_warm_start :
  let z := b32_of_Z 0 in
  let o := b32_of_Z 1 in
  let z4 := [z; z; z; z] in
  let z6 := [z; z; z; z; z; z] in
  option_map mutable_state demo_ingested =
  Some [[[z; o; z; o; z; o]; z4; z4; z4; z4; z6];
        [[z; o; z; o]; z4; z4; z4; z4; z4]] /\
  option_map (fun r => (skipn 14 (trace (fst r)), p_started (snd r)))
             demo_first_iteration =
  Some ([EvStats (b32_of_Z 8) (b32_of_Z 4) (lit 4 3) (b32_of_Z 4) z
                 (b32_of_Z 4);
         EvTask TaskRestore 0; EvTask TaskRestore 1], false) /\
  fgt (lit 4 3 : binary32) f1 = true /\
  option_map (fun r => mutable_state (fst r)) demo_first_iteration =
  Some [[z6; z4; z4; z4; z4; z6]; [z4; z4; z4; z4; z4; z4]] /\
  [z; o; z; o; z; o] <> z6.
Proof.
  cbv zeta. repeat split; try (vm_compute; reflexivity). discriminate.
Qed.

(** C2 as stated fails: with four rows and four processors, initialization
    chooses four partitions, more than dimY/2 = 2. *)
Lemma C2_counterexample :
  2 <= 4 /\
  exists w, demo_init 4 4 = Some w /\
            ~ (threads (tnv_ctx w)
               <= hw_sched_get_cpu_count (Platform:=demo_platform 4) /\
               threads (tnv_ctx w) <= 4 / 2).
Proof.
  split; [lia|].
  destruct (TNV_CPU_init_first (PF:=demo_platform 4) (HF:=toolkit_header)
              0 1 2 2 4 1 (boot demo_memory)) as [w [E [_ Ht]]].
  - reflexivity.
  - vm_compute. discriminate.
  - exists w. split; [exact E|]. rewrite Ht. vm_compute. lia.
Qed.

Lemma C2_partition_count_bounds_witness :
  exists w,
    demo_init 2 4 = Some w /\
    threads (tnv_ctx w) <= 2 /\ threads (tnv_ctx w) <= 4 /\
    (4 < 2 -> threads (tnv_ctx w) = 4 / 2) /\
    (2 <= 4 -> threads (tnv_ctx w) = 2).
Proof.
  apply (C2_partition_count_bounds (PF:=demo_platform 2) (HF:=toolkit_header)
           0 1 2 2 4 1 (boot demo_memory)).
  - lia.
  - simpl. lia.
  - reflexivity.
Defined.


Lemma C9_only_L1_branch_witness :
  exists (ret : binary32) (w' : world binary32),
    demo_main 2 2 4 1 (boot demo_memory) = Some (ret, w') /\
    exists evs, trace w' = trace (boot demo_memory) ++ evs /\
                forall p q r, In (EvCoefF p q r) evs -> p = 1%Z.
Proof.
  destruct (TNV_CPU_main_returns (PF:=demo_platform 2) (HF:=toolkit_header)
              0 1 2 (b32_of_Z 1) 2 (b32_of_Z 0) 2 4 1 (boot demo_memory))
    as [ret [w' [E _]]].
  - right. split; [reflexivity|]. vm_compute. discriminate.
  - exists ret, w'. split; [exact E|].
    exact (proj1 (C9_only_L1_branch (PF:=demo_platform 2)
                    (HF:=toolkit_header) 0 1 2 (b32_of_Z 1) 2 (b32_of_Z 0)
                    2 4 1 (boot demo_memory) w' ret E)).
Defined.

(** * Further properties of the code *)

Section ProximalShrinkage.
Context {HF : TNVHeader R}.
Open Scope R_scope.

Ltac real_arith_ops :=
  unfold f0, f1, f2, f4, lit in *;
  cbn [fofZ fadd fsub fmul fdiv fsqrt fabs real_arith] in *.

Lemma eigenvalues_diag (M1 M3 : R) :
  0 <= M1 -> 0 <= M3 ->
  eigenvalues M1 0 M3 = (Rmax M1 M3, Rmin M1 M3).
Proof.
  intros H1 H3. unfold eigenvalues. rewrite !MAX_Rmax. real_arith_ops.
  destruct (Rle_dec M1 M3) as [L|L].
  - replace ((M1 + M3) * (M1 + M3) / 4 - (M1 * M3 - 0 * 0))
      with (((M3 - M1) / 2) * ((M3 - M1) / 2)) by field.
    rewrite (Rmax_left (_ * _) 0) by nra.
    rewrite sqrt_square by lra.
    rewrite (Rmax_right M1 M3), (Rmin_left M1 M3) by lra.
    f_equal; rewrite Rmax_left by lra; lra.
  - replace ((M1 + M3) * (M1 + M3) / 4 - (M1 * M3 - 0 * 0))
      with (((M1 - M3) / 2) * ((M1 - M3) / 2)) by field.
    rewrite (Rmax_left (_ * _) 0) by nra.
    rewrite sqrt_square by lra.
    rewrite (Rmax_left M1 M3), (Rmin_right M1 M3) by lra.
    f_equal; rewrite Rmax_left by lra; lra.
Qed.

Lemma coefF_diag (fuel : nat) (M1 M3 sigma : R) (q r : Z) :
  0 <= M1 -> 0 <= M3 ->
  coefF fuel M1 0 M3 sigma 1 q r =
  Some (soft_factor sigma (sqrt M1), 0, soft_factor sigma (sqrt M3)).
Proof.
  intros H1 H3. unfold coefF, singular_values.
  rewrite (eigenvalues_diag M1 M3 H1 H3).
  unfold eigenvectors. change (fne 0 f0) with (fne 0 0).
  rewrite fne_real_refl.
  unfold prox_diag. cbn [Z.eqb Pos.eqb]. rewrite !MAX_Rmax.
  unfold reconstruct, soft_factor, fgt. real_arith_ops.
  cbn [flt real_arith].
  destruct (Rlt_dec M3 M1) as [L|L].
  - rewrite (Rmax_left M1 M3), (Rmin_right M1 M3) by lra.
    destruct (Rlt_dec fTiny (sqrt M1)), (Rlt_dec fTiny (sqrt M3));
      (apply f_equal; apply f_equal2; [apply f_equal2|]; ring).
  - rewrite (Rmax_right M1 M3), (Rmin_left M1 M3) by lra.
    destruct (Rlt_dec fTiny (sqrt M1)), (Rlt_dec fTiny (sqrt M3));
      (apply f_equal; apply f_equal2; [apply f_equal2|]; ring).
Qed.

Lemma coefF_below_threshold (fuel : nat) (M1 M2 M3 sigma : R) (q r : Z) :
  fst (singular_values M1 M2 M3) <= 1 / sigma ->
  coefF fuel M1 M2 M3 sigma 1 q r = Some (0, 0, 0).
Proof.
  intros H. pose proof (singular_values_order M1 M2 M3) as [_ Ho].
  unfold coefF. destruct (eigenvalues M1 M2 M3) as [e1 e2] eqn:Ee.
  destruct (singular_values M1 M2 M3) as [s1 s2] eqn:Es.
  cbn [fst snd] in *.
  destruct (eigenvectors M1 M2 M3 e1 e2) as [[[V1 V2] V3] V4].
  unfold prox_diag. cbn [Z.eqb Pos.eqb]. rewrite !MAX_Rmax.
  unfold reconstruct. real_arith_ops.
  rewrite (Rmax_right (s1 - 1 / sigma) 0), (Rmax_right (s2 - 1 / sigma) 0)
    by lra.
  replace (0 / s1) with 0 by (unfold Rdiv; ring).
  replace (0 / s2) with 0 by (unfold Rdiv; ring).
  destruct (fgt s1 fTiny), (fgt s2 fTiny); (apply f_equal; apply f_equal2; [apply f_equal2|]; ring).
Qed.

(** *** What the water-filling loop computes *)

Lemma projected_exit n (s : l1state R) (a b : R) :
  l1sum s <= 1 -> 0 <= proj_0 s <= a -> 0 <= proj_1 s <= b ->
  proj_0 s + proj_1 s = 1 -> projected a b (l1_loop n s).
Proof.
  intros. exists s. split; [apply l1_loop_exit; assumption|]. auto.
Qed.

Lemma l1_loop_single_projects n (p a b : R) :
  1 <= p ->
  (p <= a -> 0 <= b ->
   projected a b (l1_loop (S n) (settled (next_shrink p 0) p 0))) /\
  (0 <= a -> p <= b ->
   projected a b (l1_loop (S n) (settled (next_shrink 0 p) 0 p))).
Proof.
  intros Hp. unfold next_shrink. rewrite nz_zero, nz_pos by lra.
  cbn [Z.add]. replace ((p + 0 - 1) / 1) with (p - 1) by lra.
  replace ((0 + p - 1) / 1) with (p - 1) by lra.
  destruct (Req_dec_T p 1) as [->|Hne].
  - split; intros; apply projected_exit; cbn; lra.
  - assert (1 < p) by lra.
    split; intros; rewrite l1_loop_step by (cbn; lra); cbv zeta;
      cbn [proj_0 proj_1 shrinkfactor settled];
      replace (p - (p - 1)) with 1 by lra;
      rewrite (Rmax_left 1 0) by lra;
      rewrite (Rmax_right (0 - (p - 1)) 0) by lra;
      rewrite nz_zero, nz_pos by lra; cbn [Z.add Z.ltb Z.compare];
      apply projected_exit; cbn; lra.
Qed.

Lemma l1_loop_settled_projects n (p0 p1 a b : R) :
  0 <= p0 <= a -> 0 <= p1 <= b -> 1 < p0 + p1 ->
  projected a b (l1_loop (S (S n)) (settled (next_shrink p0 p1) p0 p1)).
Proof.
  intros H0 H1 Hs.
  destruct (Req_dec_T p1 0) as [->|Hp1].
  { apply (l1_loop_single_projects (S n)); lra. }
  destruct (Req_dec_T p0 0) as [->|Hp0].
  { apply (l1_loop_single_projects (S n)); lra. }
  assert (Esh : next_shrink p0 p1 = (p0 + p1 - 1) / 2).
  { unfold next_shrink. rewrite !nz_pos by lra. reflexivity. }
  rewrite Esh. set (sh := (p0 + p1 - 1) / 2).
  rewrite l1_loop_step by (cbn; lra). cbv zeta.
  cbn [proj_0 proj_1 shrinkfactor settled].
  destruct (Rle_dec sh p0) as [A0|A0]; destruct (Rle_dec sh p1) as [A1|A1].
  - rewrite (Rmax_left (p0 - sh) 0), (Rmax_left (p1 - sh) 0) by lra.
    assert (E : p0 - sh + (p1 - sh) = 1) by (unfold sh; lra).
    assert (0 < sh) by (unfold sh; lra).
    destruct (0 <? nz (p0 - sh) + nz (p1 - sh))%Z.
    + apply projected_exit; cbn; lra.
    + eexists; split; [reflexivity|cbn; lra].
  - rewrite (Rmax_left (p0 - sh) 0), (Rmax_right (p1 - sh) 0) by lra.
    rewrite nz_zero, nz_pos by (unfold sh in *; lra).
    cbn [Z.add Z.ltb Z.compare].
    apply (l1_loop_single_projects n); unfold sh in *; lra.
  - rewrite (Rmax_right (p0 - sh) 0), (Rmax_left (p1 - sh) 0) by lra.
    rewrite nz_zero, nz_pos by (unfold sh in *; lra).
    cbn [Z.add Z.ltb Z.compare].
    apply (l1_loop_single_projects n); unfold sh in *; lra.
  - exfalso. unfold sh in *. lra.
Qed.

Lemma l1_loop_projects (a b L : R) (n : nat) :
  0 <= a -> 0 <= b -> 1 < L -> (3 <= n)%nat ->
  exists s,
    l1_loop n (mkL1 a b L 0%Z 0) = Some s /\
    0 <= proj_0 s <= a /\ 0 <= proj_1 s <= b /\
    (a + b <= 1 -> proj_0 s = a /\ proj_1 s = b) /\
    (1 < a + b -> proj_0 s + proj_1 s = 1).
Proof.
  intros Ha Hb HL Hn.
  destruct n as [|[|[|n]]]; try lia.
  rewrite l1_loop_step by (cbn; lra). cbv zeta.
  cbn [proj_0 proj_1 shrinkfactor].
  replace (a - 0) with a by lra. replace (b - 0) with b by lra.
  rewrite !Rmax_left by lra.
  destruct (Rle_dec (a + b) 1) as [Hle|Hgt].
  - destruct (0 <? nz a + nz b)%Z.
    + rewrite l1_loop_exit by (cbn; lra).
      eexists; split; [reflexivity|]. cbn. repeat split; lra.
    + eexists; split; [reflexivity|]. cbn. repeat split; lra.
  - assert (E : (0 <? nz a + nz b)%Z = true).
    { unfold nz. destruct (Req_dec_T a 0), (Req_dec_T b 0);
        try reflexivity. exfalso; lra. }
    rewrite E.
    destruct (l1_loop_settled_projects n a b a b) as [s [Es [B0 [B1 Bs]]]];
      try lra.
    exists s. split; [exact Es|]. repeat split; lra.
Qed.

(** Inside the unit ball of the [INFNORM] branch nothing is projected
    away, and the shrinkage maps the matrix to zero. *)
Lemma coefF_INFNORM_inside (fuel : nat) (M1 M2 M3 sigma : R) (q r : Z) :
  INFNORM <> 1%Z -> 0 < sigma -> 1 < fLarge -> (3 <= fuel)%nat ->
  sigma * (fst (singular_values M1 M2 M3) + snd (singular_values M1 M2 M3))
  <= 1 ->
  coefF fuel M1 M2 M3 sigma INFNORM q r = Some (0, 0, 0).
Proof.
  intros Hinf Hs HL Hf H.
  pose proof (singular_values_order M1 M2 M3) as [Ho2 Ho1].
  unfold coefF. destruct (eigenvalues M1 M2 M3) as [e1 e2] eqn:Ee.
  destruct (singular_values M1 M2 M3) as [s1 s2] eqn:Es.
  cbn [fst snd] in *.
  destruct (eigenvectors M1 M2 M3 e1 e2) as [[[V1 V2] V3] V4].
  unfold prox_diag.
  rewrite (proj2 (Z.eqb_neq INFNORM 1) Hinf), Z.eqb_refl.
  unfold l1_projection.
  destruct (l1_loop_projects (fmul sigma (fabs s1)) (fmul sigma (fabs s2))
              fLarge fuel) as [s [Es' [_ [_ [Hin _]]]]]; auto;
    try (apply Rmult_le_pos; [lra|apply Rabs_pos]).
  unfold f0 at 1. cbn [fofZ real_arith]. rewrite Es'.
  real_arith_ops. rewrite !Rabs_pos_eq in Hin by lra.
  destruct Hin as [-> ->]; [lra|].
  replace (s1 - 1 / sigma * (sigma * s1)) with 0 by (field; lra).
  replace (s2 - 1 / sigma * (sigma * s2)) with 0 by (field; lra).
  unfold reconstruct. real_arith_ops.
  replace (0 / s1) with 0 by (unfold Rdiv; ring).
  replace (0 / s2) with 0 by (unfold Rdiv; ring).
  destruct (fgt s1 fTiny), (fgt s2 fTiny);
    (apply f_equal; apply f_equal2; [apply f_equal2|]; ring).
Qed.
End ProximalShrinkage.

Section StepSizes.
Context {HF : TNVHeader R} {PF : Platform R}.
Variable fuel : nat.
Open Scope R_scope.

Ltac real_arith_ops :=
  unfold f0, f1, f2, f4, lit in *;
  cbn [fofZ fadd fsub fmul fdiv fsqrt fabs real_arith] in *.

Lemma backtrack_sizes (t s b : R) :
  0 < t -> 0 < s -> t * s <= 1 / 4 -> 1 < b ->
  0 < 95 / 100 * t / b /\ 0 < 95 / 100 * s / b /\
  (95 / 100 * t / b) * (95 / 100 * s / b) <= 1 / 4.
Proof.
  intros Ht Hs Hp Hb.
  assert (Hi : 0 < / b) by (apply Rinv_0_lt_compat; lra).
  assert (Hi1 : / b < 1).
  { rewrite <- Rinv_1. apply Rinv_lt_contravar; lra. }
  unfold Rdiv. set (ib := / b) in *.
  assert (0 < t * ib) by nra. assert (0 < s * ib) by nra.
  assert (t * ib < t) by nra. assert (s * ib < s) by nra.
  assert ((t * ib) * (s * ib) <= t * s) by nra.
  repeat split; nra.
Qed.

Lemma backtrack_shrinks (t s b : R) :
  0 < t -> 0 < s -> 1 < b ->
  (95 / 100 * t / b) * (95 / 100 * s / b) < t * s.
Proof.
  intros Ht Hs Hb.
  assert (Hi : 0 < / b) by (apply Rinv_0_lt_compat; lra).
  assert (Hi1 : / b < 1).
  { rewrite <- Rinv_1. apply Rinv_lt_contravar; lra. }
  unfold Rdiv. set (ib := / b) in *.
  assert (0 < t * ib) by nra. assert (0 < s * ib) by nra.
  assert (t * ib < t) by nra. assert (s * ib < s) by nra.
  assert ((t * ib) * (s * ib) < t * s) by nra.
  nra.
Qed.

Lemma adapt_sizes (w w' : world R) (st st' : pdhg R) (a : stats R)
      (res : R) :
  step_sizes_ok st -> adapt fuel w st a res = Some (w', st') ->
  step_sizes_ok st' /\
  (fgt (balance st a) f1 = false ->
   p_tau st' * p_sigma st' = p_tau st * p_sigma st) /\
  (fgt (balance st a) f1 = true ->
   p_tau st' * p_sigma st' < p_tau st * p_sigma st).
Proof.
  intros [Ht [Hs [Hp Ha]]]. unfold adapt, step_sizes_ok.
  destruct (fgt (balance st a) f1) eqn:Eb.
  - assert (Hb : 1 < balance st a).
    { unfold fgt in Eb. real_arith_ops. cbn [flt real_arith] in Eb.
      destruct (Rlt_dec 1 (balance st a)); [assumption|discriminate]. }
    pose proof (backtrack_sizes _ _ _ Ht Hs Hp Hb) as [B1 [B2 B3]].
    intros E.
    assert (Est : st' = mkPdhg (fdiv (fmul beta (p_tau st)) (balance st a))
                           (fdiv (fmul beta (p_sigma st)) (balance st a))
                           alpha0 (p_started st) res).
    { destruct (p_started st); [injection E as _ <-; reflexivity|].
      destruct (hw_sched_run fuel TaskRestore w); unfold bind in E; [injection E as _ <-; reflexivity|discriminate]. }
    rewrite Est. cbn [p_tau p_sigma p_alpha]. unfold beta, alpha0.
    real_arith_ops. split; [|split; [discriminate|]].
    + repeat split; try assumption; lra.
    + intros _. apply backtrack_shrinks; assumption.
  - unfold eta. real_arith_ops.
    assert (Hn : 1 - p_alpha st <> 0) by lra.
    assert (Hq : 0 < / (1 - p_alpha st)) by (apply Rinv_0_lt_compat; lra).
    match goal with
    | |- context [if fgt ?x ?y then _ else _] => destruct (fgt x y)
    end;
      [|match goal with
        | |- context [if flt ?x ?y then _ else _] => destruct (flt x y)
        end]; intros E;
      injection E as _ <-; cbn [p_tau p_sigma p_alpha]; unfold Rdiv.
    + split; [|split; [intros _; field; assumption|discriminate]].
      repeat split; try nra.
      replace (p_tau st * / (1 - p_alpha st) * (p_sigma st * (1 - p_alpha st)))
        with (p_tau st * p_sigma st) by (field; assumption).
      unfold Rdiv in Hp. exact Hp.
    + split; [|split; [intros _; field; assumption|discriminate]].
      repeat split; try nra.
      replace (p_tau st * (1 - p_alpha st) * (p_sigma st * / (1 - p_alpha st)))
        with (p_tau st * p_sigma st) by (field; assumption).
      unfold Rdiv in Hp. exact Hp.
    + split; [|split; [reflexivity|discriminate]].
      repeat split; try assumption; lra.
Qed.

Lemma iteration_sizes (dX dY dZ : nat) (w w' : world R) (st st' : pdhg R) :
  step_sizes_ok st -> iteration fuel dX dY dZ w st = Some (w', st') ->
  step_sizes_ok st'.
Proof.
  intros Hok. unfold iteration.
  destruct (measure fuel dX dZ w st) as [[w1 a]|]; [|discriminate].
  cbn [bind]. intros E. exact (proj1 (adapt_sizes _ _ _ _ _ _ Hok E)).
Qed.

Lemma iterate_sizes (tol : R) (dX dY dZ : nat) (n : nat) :
  forall (iter : nat) (w : world R) (st : pdhg R) w' st' iter',
    step_sizes_ok st ->
    iterate fuel n iter tol dX dY dZ w st = Some (w', st', iter') ->
    step_sizes_ok st'.
Proof.
  induction n as [|n IH]; intros iter w st w' st' iter' Hok; cbn [iterate].
  - intros E; injection E as _ <- _. exact Hok.
  - destruct (iteration fuel dX dY dZ w st) as [[w1 st1]|] eqn:E1;
      [|discriminate].
    cbn [bind fst snd]. pose proof (iteration_sizes _ _ _ _ _ _ _ Hok E1).
    destruct (flt (p_residual st1) tol).
    + intros E; injection E as _ <- _. assumption.
    + apply IH. assumption.
Qed.

Lemma pdhg0_sizes : step_sizes_ok pdhg0.
Proof.
  unfold step_sizes_ok, pdhg0, alpha0. cbn [p_tau p_sigma p_alpha].
  real_arith_ops. repeat split; lra.
Qed.
End StepSizes.

Section Bands.
Context {F : Type} {AF : Arith F} {HF : TNVHeader F} {PF : Platform F}.
Variable fuel : nat.

Lemma split_rows_nth (count : nat) : forall i off step extra n k t,
  nth_error (split_rows (F:=F) count i off step extra n) k = Some t ->
  k < count /\
  stepY t = step + (if i + k <? extra then 1 else 0) /\
  offY t + Nat.min i extra = off + k * step + Nat.min (i + k) extra /\
  copY t = (if i + k =? n - 1 then stepY t else stepY t + 1).
Proof.
  induction count as [|c IH]; intros i off step extra n k t; cbn [split_rows].
  - destruct k; discriminate.
  - destruct k as [|k]; cbn [nth_error].
    + intros E; injection E as <-. cbn [stepY offY copY].
      rewrite Nat.add_0_r. repeat split; lia.
    + intros E. destruct (IH _ _ _ _ _ _ _ E) as [Hk [Hs [Ho Hc]]].
      replace (i + S k) with (S i + k) by lia.
      repeat split; try assumption; try lia.
      destruct (Nat.ltb_spec i extra); lia.
Qed.

Lemma partition_count_le (cpus dY : nat) : partition_count cpus dY <= dY.
Proof.
  unfold partition_count. destruct (Nat.ltb_spec dY cpus); [|assumption].
  apply Nat.Div0.div_le_upper_bound. lia.
Qed.

Lemma TNV_CPU_init_bands (inT outT : ptr) (dX dY dZ : nat) (w w' : world F) :
  sched w = None -> TNV_CPU_init fuel inT outT dX dY dZ w = Some w' ->
  let n := partition_count hw_sched_get_cpu_count dY in
  n <> 0 /\ threads (tnv_ctx w') = n /\
  (dimX (tnv_ctx w'), dimY (tnv_ctx w'), dimZ (tnv_ctx w'), padZ (tnv_ctx w'))
  = (dX, dY, dZ, dZ) /\
  map band (thr_ctx (tnv_ctx w'))
  = map band (split_rows (F:=F) n 0 0 (dY / n) (dY mod n) n).
Proof.
  intros Hs. unfold TNV_CPU_init. rewrite Hs. cbv zeta.
  destruct (Nat.eqb_spec (partition_count hw_sched_get_cpu_count dY) 0)
    as [|Hn]; [discriminate|].
  intros E.
  destruct (hw_sched_run_evolves fuel (fun _ => True) (@any_event F)
              TaskInit _ _ (fun _ => I) (fun H => I) (fun H => I) E)
    as [L _].
  unfold layout in L. cbn in L. injection L as _ Ht Hx Hy Hz Hp _ _ _ Hb.
  repeat split; try assumption. congruence.
Qed.

Lemma band_in_image (n dY d : nat) :
  1 <= n <= dY -> d < n ->
  let q := dY / n in
  let r := dY mod n in
  let off := d * q + Nat.min d r in
  let size := q + (if d <? r then 1 else 0) in
  1 <= size /\
  off + (if d =? n - 1 then size else size + 1) <= dY /\
  (d = n - 1 -> off + size = dY).
Proof.
  intros Hn Hd q r off size.
  assert (Hdiv : dY = n * q + r) by (apply Nat.div_mod_eq).
  assert (Hr : r < n) by (apply Nat.mod_upper_bound; lia).
  assert (Hq : 1 <= q).
  { destruct q; [|lia]. rewrite Nat.mul_0_r in Hdiv. lia. }
  unfold off, size.
  destruct (Nat.eqb_spec d (n - 1)) as [E|E];
    destruct (Nat.ltb_spec d r) as [L|L].
  - lia.
  - rewrite Nat.min_r by lia. repeat split; try lia.
    + subst d. nia.
    + intros _. subst d. nia.
  - assert ((d + 2) * q <= n * q) by (apply Nat.mul_le_mono_r; lia).
    rewrite Nat.min_l by lia. repeat split; try lia; nia.
  - assert ((d + 2) * q <= n * q) by (apply Nat.mul_le_mono_r; lia).
    rewrite Nat.min_r by lia. repeat split; try lia; nia.
Qed.

Lemma TNV_CPU_init_band (inT outT : ptr) (dX dY dZ : nat) (w w' : world F)
      (d : nat) (t : tnv_thread_t F) :
  sched w = None -> TNV_CPU_init fuel inT outT dX dY dZ w = Some w' ->
  nth_error (thr_ctx (tnv_ctx w')) d = Some t ->
  let n := threads (tnv_ctx w') in
  d < n /\
  offY t = d * (dY / n) + Nat.min d (dY mod n) /\
  stepY t = dY / n + (if d <? dY mod n then 1 else 0) /\
  copY t = (if d =? n - 1 then stepY t else stepY t + 1).
Proof.
  intros Hs E Hd.
  destruct (TNV_CPU_init_bands _ _ _ _ _ _ _ Hs E) as [Hn [Ht [_ Hb]]].
  cbv zeta. rewrite Ht.
  set (n := partition_count hw_sched_get_cpu_count dY) in *.
  pose proof (map_nth_error band _ _ Hd) as Hm. rewrite Hb in Hm.
  rewrite nth_error_map in Hm.
  destruct (nth_error (split_rows n 0 0 (dY / n) (dY mod n) n) d)
    as [t0|] eqn:E0; [|discriminate].
  cbn in Hm. injection Hm as Ho Hst Hc.
  destruct (split_rows_nth _ _ _ _ _ _ _ _ E0) as [Hk [H1 [H2 H3]]].
  cbn [Nat.add] in *. rewrite <- Ho, <- Hst, <- Hc.
  repeat split; try assumption. cbn [Nat.min] in H2. lia.
Qed.
End Bands.

Lemma nth_upd_same {A : Type} (l : list A) : forall i v d,
  i < length l -> nth i (upd l i v) d = v.
Proof.
  induction l as [|h t IH]; intros [|i] v d; cbn; try lia; auto.
  intros H. apply IH. lia.
Qed.

Lemma nth_upd_other {A : Type} (l : list A) : forall i j v d,
  i <> j -> nth j (upd l i v) d = nth j l d.
Proof.
  induction l as [|h t IH]; intros [|i] [|j] v d; cbn; try congruence; auto.
Qed.

Lemma upd_outside {A : Type} (l : list A) : forall i v,
  length l <= i -> upd l i v = l.
Proof.
  induction l as [|h t IH]; intros [|i] v; cbn; try lia; auto.
  intros H. f_equal. apply IH. lia.
Qed.

Lemma upd_nth {A : Type} (l : list A) : forall i d, upd l i (nth i l d) = l.
Proof.
  induction l as [|h t IH]; intros [|i] d; cbn; auto. now rewrite IH.
Qed.

Lemma fill_length {A : Type} (l : list A) (v : A) (n : nat) :
  length (fill l v n) = length l.
Proof.
  unfold fill. rewrite length_app, repeat_length, length_skipn. lia.
Qed.

Lemma nth_fill {A : Type} (l : list A) (v : A) (n i : nat) (d : A) :
  i < n -> i < length l -> nth i (fill l v n) d = v.
Proof.
  intros H1 H2. unfold fill. rewrite app_nth1 by (rewrite repeat_length; lia).
  apply nth_repeat_lt. lia.
Qed.

Lemma fold_left_flat_map {S A B : Type} (f : S -> B -> S) (g : A -> list B)
      (l : list A) :
  forall s, fold_left f (flat_map g l) s
            = fold_left (fun s a => fold_left f (g a) s) l s.
Proof.
  induction l as [|a l IH]; cbn; intros s; [reflexivity|].
  now rewrite fold_left_app, IH.
Qed.

Lemma fold_left_map {S A B : Type} (f : S -> B -> S) (g : A -> B)
      (l : list A) :
  forall s, fold_left f (map g l) s = fold_left (fun s a => f s (g a)) l s.
Proof.
  induction l as [|a l IH]; cbn; intros s; [reflexivity|]. apply IH.
Qed.

Section Buffers.
Context {F : Type} {AF : Arith F}.

Lemma buf_set_buf_same (b : buffers F) (x : buffer) (l : list F) :
  buf (set_buf b x l) x = l.
Proof. destruct b, x; reflexivity. Qed.

Lemma buf_set_buf_other (b : buffers F) (x y : buffer) (l : list F) :
  x <> y -> buf (set_buf b x l) y = buf b y.
Proof. destruct b, x, y; (reflexivity || congruence). Qed.

Lemma buffer_eq_dec (x y : buffer) : {x = y} + {x <> y}.
Proof. decide equality. Qed.

Lemma length_buf_wr (b : buffers F) (x y : buffer) (i : nat) (v : F) :
  length (buf (wr b x i v) y) = length (buf b y).
Proof.
  unfold wr. destruct (buffer_eq_dec x y) as [<-|H].
  - rewrite buf_set_buf_same. apply upd_length.
  - now rewrite buf_set_buf_other.
Qed.

Lemma length_buf_clear (b : buffers F) (x y : buffer) (n : nat) :
  length (buf (clear b x n) y) = length (buf b y).
Proof.
  unfold clear. destruct (buffer_eq_dec x y) as [<-|H].
  - rewrite buf_set_buf_same. apply fill_length.
  - now rewrite buf_set_buf_other.
Qed.

Lemma rd_wr_same (b : buffers F) (x : buffer) (i : nat) (v : F) :
  i < length (buf b x) -> rd (wr b x i v) x i = v.
Proof.
  intros H. unfold rd, wr. rewrite buf_set_buf_same. now apply nth_upd_same.
Qed.

Lemma rd_wr_other (b : buffers F) (x y : buffer) (i j : nat) (v : F) :
  x <> y \/ i <> j -> rd (wr b x i v) y j = rd b y j.
Proof.
  intros H. unfold rd, wr. destruct (buffer_eq_dec x y) as [<-|Hxy].
  - rewrite buf_set_buf_same. apply nth_upd_other. tauto.
  - now rewrite buf_set_buf_other.
Qed.

Lemma buf_wr_other (b : buffers F) (x y : buffer) (i : nat) (v : F) :
  x <> y -> buf (wr b x i v) y = buf b y.
Proof. intros H. unfold wr. now rewrite buf_set_buf_other. Qed.

Lemma buf_clear_other (b : buffers F) (x y : buffer) (n : nat) :
  x <> y -> buf (clear b x n) y = buf b y.
Proof. intros H. unfold clear. now rewrite buf_set_buf_other. Qed.

Lemma rd_clear_same (b : buffers F) (x : buffer) (n i : nat) :
  i < n -> rd (clear b x n) x i = f0.
Proof.
  intros H. unfold rd, clear. rewrite buf_set_buf_same.
  destruct (Nat.lt_ge_cases i (length (buf b x))) as [L|L].
  - now apply nth_fill.
  - apply nth_overflow. now rewrite fill_length.
Qed.
End Buffers.

Section ShapeKept.
Context {F : Type} {AF : Arith F} {HF : TNVHeader F} {PF : Platform F}.
Variable fuel : nat.

Lemma same_lengths_refl (b : buffers F) : same_lengths b b.
Proof. intros x. reflexivity. Qed.

Lemma same_lengths_trans (b1 b2 b3 : buffers F) :
  same_lengths b1 b2 -> same_lengths b2 b3 -> same_lengths b1 b3.
Proof. intros H1 H2 x. now rewrite H2, H1. Qed.

Lemma same_lengths_wr (b0 b : buffers F) (x : buffer) (i : nat) (v : F) :
  same_lengths b0 b -> same_lengths b0 (wr b x i v).
Proof. intros H y. rewrite length_buf_wr. apply H. Qed.

Lemma same_lengths_clear (b0 b : buffers F) (x : buffer) (n : nat) :
  same_lengths b0 b -> same_lengths b0 (clear b x n).
Proof. intros H y. rewrite length_buf_clear. apply H. Qed.

Lemma same_lengths_shape (t t' : tnv_thread_t F) :
  same_lengths (arrays t) (arrays t') <-> shape t' = shape t.
Proof.
  unfold shape, all_buffers. cbn [map]. split.
  - intros H. now rewrite !H.
  - intros H x. injection H as H0 H1 H2 H3 H4 H5 H6 H7 H8 H9.
    destruct x; assumption.
Qed.

Lemma clear_fields_lengths (ctx : tnv_context_t F) (t : tnv_thread_t F) :
  same_lengths (arrays t) (clear_fields ctx t).
Proof.
  unfold clear_fields. repeat apply same_lengths_clear. apply same_lengths_refl.
Qed.

Lemma tnv_start_thread_lengths (ctx : tnv_context_t F) (m : ptr -> list F)
      (t : tnv_thread_t F) :
  same_lengths (arrays t) (arrays (tnv_start_thread ctx m t)).
Proof.
  unfold tnv_start_thread. cbn [arrays set_arrays].
  apply fold_left_ind; [|apply clear_fields_lengths].
  intros b k _ Hb. apply fold_left_ind; [|exact Hb].
  intros b1 j _ Hb1. apply fold_left_ind; [|exact Hb1].
  intros b2 i _ Hb2. unfold ingest_cell.
  repeat apply same_lengths_wr. exact Hb2.
Qed.

Lemma first_row_lengths (e : step_env F) (b : buffers F) :
  same_lengths b (first_row e b).
Proof.
  unfold first_row.
  apply fold_left_ind; [|apply same_lengths_refl].
  intros b1 i _ Hb1. apply fold_left_ind; [|exact Hb1].
  intros b2 k _ Hb2. unfold first_row_cell.
  repeat apply same_lengths_wr. exact Hb2.
Qed.

Lemma gather_lengths (e : step_env F) (j i : nat) (b0 : buffers F)
      (s : gathered F) (k : nat) :
  same_lengths b0 (g_arr s) -> same_lengths b0 (g_arr (gather e j i s k)).
Proof.
  intros H. unfold gather. cbn [g_arr].
  repeat apply same_lengths_wr. exact H.
Qed.

Lemma dual_update_lengths (e : step_env F) (j i : nat) (t : F * F * F)
      (sc : scratch F) (b0 b : buffers F) (k : nat) :
  same_lengths b0 b -> same_lengths b0 (d_arr (dual_update e j i t sc b k)).
Proof.
  intros H. unfold dual_update. destruct t as [[t0 t1] t2]. cbn [d_arr].
  repeat apply same_lengths_wr. exact H.
Qed.

Lemma pixel_lengths (e : step_env F) (j i : nat) (s s' : step_state F) :
  pixel fuel e j i s = Some s' -> same_lengths (s_arr s) (s_arr s').
Proof.
  unfold pixel.
  set (g := fold_left _ _ _).
  assert (Hg : same_lengths (s_arr s) (g_arr g)).
  { unfold g.
    apply (fold_left_ind (fun x => same_lengths (s_arr s) (g_arr x)));
      [|apply same_lengths_refl].
    intros x k _ Hx. now apply gather_lengths. }
  destruct (coefF _ _ _ _ _ _ _ _) as [t|]; cbn [bind]; [|discriminate].
  intros E; injection E as <-. cbn [s_arr].
  apply (fold_left_ind (fun x => same_lengths (s_arr s) (fst x)));
    [|exact Hg].
  intros x k _ Hx. unfold scatter. cbn [fst]. now apply dual_update_lengths.
Qed.

Lemma step_rows_lengths (e : step_env F) (s s' : step_state F) :
  step_rows fuel e s = Some s' -> same_lengths (s_arr s) (s_arr s').
Proof.
  unfold step_rows.
  apply (foldM_ind (fun x => same_lengths (s_arr s) (s_arr x)));
    [|apply same_lengths_refl].
  intros j x x' _ Hx.
  apply (foldM_ind (fun y => same_lengths (s_arr s) (s_arr y))); [|exact Hx].
  intros i y y' _ Hy E.
  eapply same_lengths_trans; [exact Hy|]. eapply pixel_lengths; exact E.
Qed.

Lemma tnv_step_thread_lengths (ctx : tnv_context_t F) (t t' : tnv_thread_t F)
      (evs : list (event F)) :
  tnv_step_thread fuel ctx t = Some (t', evs) ->
  same_lengths (arrays t) (arrays t') /\ band t' = band t.
Proof.
  unfold tnv_step_thread.
  destruct (step_rows _ _ _) as [s|] eqn:E; cbn [bind]; [|discriminate].
  intros H; injection H as <- _. cbn [arrays]. split; [|reflexivity].
  eapply same_lengths_trans; [apply first_row_lengths|].
  apply (step_rows_lengths _ _ _ E).
Qed.

(** No task but [tnv_init] changes the size of an array, and no task
    changes a band. *)
Lemma task_on_kept (t : task) (ctx : tnv_context_t F) (m : ptr -> list F)
      (d : nat) (c c' : tnv_thread_t F) (evs : list (event F)) :
  task_on fuel t ctx m d c = Some (c', evs) ->
  band c' = band c /\ (t <> TaskInit -> shape c' = shape c).
Proof.
  destruct t; cbn [task_on].
  - intros E; injection E as <- _. split; [reflexivity|congruence].
  - intros E; injection E as <- _. split; [reflexivity|]. intros _.
    apply same_lengths_shape. apply tnv_start_thread_lengths.
  - intros E. destruct (tnv_step_thread_lengths _ _ _ _ E) as [H1 H2].
    split; [assumption|]. intros _. now apply same_lengths_shape.
  - intros E; injection E as <- _. split; [reflexivity|]. intros _.
    apply same_lengths_shape. unfold tnv_restore_thread. cbn [arrays set_arrays].
    apply clear_fields_lengths.
  - intros E; injection E as <- _. split; reflexivity.
Qed.

Lemma task_on_ctx (t : task) (ctx : tnv_context_t F)
      (l : list (tnv_thread_t F)) (m : ptr -> list F) (d : nat)
      (c : tnv_thread_t F) :
  task_on fuel t (set_thr_ctx ctx l) m d c = task_on fuel t ctx m d c.
Proof. destruct t; reflexivity. Qed.

Lemma set_thr_ctx_eta (ctx : tnv_context_t F) :
  set_thr_ctx ctx (thr_ctx ctx) = ctx.
Proof. destruct ctx; reflexivity. Qed.

Lemma tnv_finish_frame (d : nat) (w w' : world F) :
  tnv_finish d w = Some w' ->
  sched w' = sched w /\ tnv_ctx w' = tnv_ctx w /\ trace w' = trace w.
Proof.
  unfold tnv_finish.
  destruct (nth_error _ _) as [t|]; cbn [bind]; [|discriminate].
  intros E; injection E as <-.
  apply (fold_left_ind (fun x => sched x = sched w /\ tnv_ctx x = tnv_ctx w /\
                                 trace x = trace w)); [|auto].
  intros x k _ Hx. apply fold_left_ind; [|exact Hx].
  intros y j _ Hy. apply fold_left_ind; [|exact Hy].
  intros z i _ Hz. exact Hz.
Qed.

(** A task run on worker [d] replaces partition [d] by what the task makes
    of it, and touches nothing else of the context. *)
Lemma run_task_on (t : task) (d : nat) (w w' : world F) :
  run_task fuel t d w = Some w' ->
  exists c c' evs,
    nth_error (thr_ctx (tnv_ctx w)) d = Some c /\
    task_on fuel t (tnv_ctx w) (mem w) d c = Some (c', evs) /\
    tnv_ctx w' = set_thr_ctx (tnv_ctx w) (upd (thr_ctx (tnv_ctx w)) d c') /\
    sched w' = sched w /\ trace w' = trace w ++ evs /\
    (t <> TaskFinish -> mem w' = mem w).
Proof.
  destruct t; cbn [run_task task_on].
  - unfold tnv_init.
    destruct (nth_error _ _) as [c|]; cbn [bind]; [|discriminate].
    intros E; injection E as <-. exists c. eexists. exists [].
    repeat split. cbn. now rewrite app_nil_r.
  - unfold tnv_start.
    destruct (nth_error _ _) as [c|]; cbn [bind]; [|discriminate].
    intros E; injection E as <-. exists c. eexists. exists [].
    repeat split. cbn. now rewrite app_nil_r.
  - unfold tnv_step.
    destruct (nth_error _ _) as [c|]; cbn [bind]; [|discriminate].
    destruct (tnv_step_thread fuel (tnv_ctx w) c) as [[c' evs]|] eqn:Es;
      cbn [bind fst snd]; [|discriminate].
    intros E; injection E as <-. exists c, c', evs.
    split; [reflexivity|]. split; [exact Es|]. repeat split.
  - unfold tnv_restore.
    destruct (nth_error _ _) as [c|]; cbn [bind]; [|discriminate].
    intros E; injection E as <-. exists c. eexists. exists [].
    repeat split. cbn. now rewrite app_nil_r.
  - intros E. destruct (tnv_finish_frame _ _ _ E) as [H1 [H2 H3]].
    unfold tnv_finish in E.
    destruct (nth_error _ _) as [c|] eqn:Ec; cbn [bind] in E; [|discriminate].
    exists c, c, []. repeat split; try assumption.
    + rewrite H2, (upd_same _ _ _ Ec). symmetry. apply set_thr_ctx_eta.
    + now rewrite app_nil_r.
    + congruence.
Qed.
End ShapeKept.

Lemma nth_error_upd_other {A : Type} (l : list A) : forall i j v,
  i <> j -> nth_error (upd l i v) j = nth_error l j.
Proof.
  induction l as [|h t IH]; intros [|i] [|j] v H; cbn; try congruence; auto.
Qed.

Lemma nth_error_upd_same {A : Type} (l : list A) : forall i v,
  i < length l -> nth_error (upd l i v) i = Some v.
Proof.
  induction l as [|h t IH]; intros [|i] v; cbn; try lia; auto.
  intros H. apply IH. lia.
Qed.

Section Phases.
Context {F : Type} {AF : Arith F} {HF : TNVHeader F} {PF : Platform F}.
Variable fuel : nat.

(** A dispatched phase, partition by partition. *)
Lemma hw_sched_run_on (t : task) (n : nat) (w w' : world F) :
  sched w = Some n -> hw_sched_run fuel t w = Some w' ->
  tnv_ctx w' = set_thr_ctx (tnv_ctx w) (thr_ctx (tnv_ctx w')) /\
  sched w' = sched w /\
  length (thr_ctx (tnv_ctx w')) = length (thr_ctx (tnv_ctx w)) /\
  (t <> TaskFinish -> mem w' = mem w) /\
  (forall d c', d < n -> nth_error (thr_ctx (tnv_ctx w')) d = Some c' ->
     exists c evs, nth_error (thr_ctx (tnv_ctx w)) d = Some c /\
                   task_on fuel t (tnv_ctx w) (mem w) d c = Some (c', evs)) /\
  (forall d, n <= d ->
     nth_error (thr_ctx (tnv_ctx w')) d = nth_error (thr_ctx (tnv_ctx w)) d).
Proof.
  intros Hs E. unfold hw_sched_run in E. rewrite Hs in E. cbn [bind] in E.
  set (I := fun (k : nat) (s : world F) =>
    tnv_ctx s = set_thr_ctx (tnv_ctx w) (thr_ctx (tnv_ctx s)) /\
    sched s = sched w /\
    length (thr_ctx (tnv_ctx s)) = length (thr_ctx (tnv_ctx w)) /\
    (t <> TaskFinish -> mem s = mem w) /\
    (forall d c', d < k -> nth_error (thr_ctx (tnv_ctx s)) d = Some c' ->
       exists c evs, nth_error (thr_ctx (tnv_ctx w)) d = Some c /\
                     task_on fuel t (tnv_ctx w) (mem w) d c = Some (c', evs)) /\
    (forall d, k <= d ->
       nth_error (thr_ctx (tnv_ctx s)) d = nth_error (thr_ctx (tnv_ctx w)) d)).
  change (I (0 + n) w'). revert E. apply (foldM_seq_ind I).
  - unfold I. repeat split; try reflexivity.
    + symmetry. apply set_thr_ctx_eta.
    + intros d c' Hd. lia.
  - intros d s s' _ [Hc [Hsc [Hl [Hm [Hlo Hhi]]]]] E.
    destruct (run_task_on fuel _ _ _ _ E)
      as [c [c' [evs [E1 [E2 [E3 [E4 [E5 E6]]]]]]]].
    cbn [log tnv_ctx mem sched trace] in *.
    assert (Eon : task_on fuel t (tnv_ctx w) (mem w) d c = Some (c', evs)).
    { rewrite <- E2. rewrite Hc, task_on_ctx.
      destruct t; try reflexivity; rewrite Hm; (reflexivity || discriminate). }
    assert (Et : thr_ctx (tnv_ctx s') = upd (thr_ctx (tnv_ctx s)) d c').
    { rewrite E3. reflexivity. }
    unfold I. split; [|split; [|split; [|split; [|split]]]].
    + rewrite E3, Hc. reflexivity.
    + congruence.
    + rewrite Et, upd_length. exact Hl.
    + intros Ht. rewrite (E6 Ht). auto.
    + intros i x Hi. rewrite Et. intros Hx.
      destruct (nth_error_upd _ _ _ _ _ Hx) as [[<- ->]|[Hne Hx']].
      * exists c, evs. split; [|exact Eon].
        rewrite <- (Hhi d (Nat.le_refl d)). exact E1.
      * apply Hlo; [lia|assumption].
    + intros i Hi. rewrite Et, nth_error_upd_other by lia. apply Hhi. lia.
Qed.

Lemma shapes_upd (ts : list (tnv_thread_t F)) (d : nat)
      (t t' : tnv_thread_t F) :
  nth_error ts d = Some t -> shape t' = shape t ->
  map shape (upd ts d t') = map shape ts.
Proof.
  intros E B. rewrite map_upd, B. apply upd_same. now apply map_nth_error.
Qed.

(** No phase but the initialization changes the size of an array. *)
Lemma hw_sched_run_sizes (t : task) (w w' : world F) :
  t <> TaskInit -> hw_sched_run fuel t w = Some w' -> sizes w' = sizes w.
Proof.
  intros Ht. unfold hw_sched_run.
  destruct (sched w) as [n|]; cbn [bind]; [|discriminate].
  apply (foldM_ind (fun s => sizes s = sizes w)); [|reflexivity].
  intros d s s' _ Hs E.
  destruct (run_task_on fuel _ _ _ _ E)
    as [c [c' [evs [E1 [E2 [E3 _]]]]]].
  destruct (task_on_kept fuel _ _ _ _ _ _ _ E2) as [_ Hsh].
  rewrite <- Hs. unfold sizes. rewrite E3. cbn [thr_ctx set_thr_ctx log tnv_ctx].
  apply (shapes_upd _ _ _ _ E1 (Hsh Ht)).
Qed.

Lemma border_cell_lengths (dX pz : nat) (divtau : F) (m : nat)
      (a0 a1 : buffers F) (s : buffers F * buffers F * F) (l : nat) :
  same_lengths a0 (fst (fst s)) /\ same_lengths a1 (snd (fst s)) ->
  same_lengths a0 (fst (fst (border_cell dX pz divtau m s l))) /\
  same_lengths a1 (snd (fst (border_cell dX pz divtau m s l))).
Proof.
  destruct s as [[c0 c1] rp]. cbn [fst snd]. intros [H0 H1].
  unfold border_cell. cbn [fst snd].
  split; apply same_lengths_wr; assumption.
Qed.

Lemma border_shapes (dX dZ pz : nat) (divtau : F) (j : nat)
      (s s' : list (tnv_thread_t F) * F) :
  border dX dZ pz divtau j s = Some s' ->
  map shape (fst s') = map shape (fst s).
Proof.
  destruct s as [ts rp]. unfold border.
  destruct (nth_error ts (j - 1)) as [t0|] eqn:E0; cbn [bind]; [|discriminate].
  destruct (nth_error ts j) as [t1|] eqn:E1; cbn [bind]; [|discriminate].
  set (r := fold_left _ _ _).
  assert (Hr : same_lengths (arrays t0) (fst (fst r)) /\
               same_lengths (arrays t1) (snd (fst r))).
  { unfold r.
    apply (fold_left_ind
             (fun x => same_lengths (arrays t0) (fst (fst x)) /\
                       same_lengths (arrays t1) (snd (fst x)))).
    - intros x i _ Hx.
      apply (fold_left_ind
               (fun x => same_lengths (arrays t0) (fst (fst x)) /\
                         same_lengths (arrays t1) (snd (fst x))));
        [|exact Hx].
      intros y k _ Hy. now apply border_cell_lengths.
    - split; apply same_lengths_refl. }
  destruct r as [[c0 c1] rp']. cbn [fst snd] in Hr. destruct Hr as [H0 H1].
  intros E; injection E as <-. cbn [fst].
  assert (S0 : shape (set_arrays t0 c0) = shape t0)
    by (apply same_lengths_shape; exact H0).
  assert (S1 : shape (set_arrays t1 c1) = shape t1)
    by (apply same_lengths_shape; exact H1).
  rewrite !map_upd, S0, S1.
  rewrite (upd_same _ (j - 1)) by (now apply map_nth_error).
  apply upd_same. now apply map_nth_error.
Qed.

Lemma borders_shapes (dX dZ pz n : nat) (divtau : F)
      (ts : list (tnv_thread_t F)) (r : list (tnv_thread_t F) * F) :
  borders dX dZ pz n divtau ts = Some r -> map shape (fst r) = map shape ts.
Proof.
  unfold borders.
  apply (foldM_ind (fun s => map shape (fst s) = map shape ts));
    [|reflexivity].
  intros j s s' _ Hs E. rewrite <- Hs. eapply border_shapes; exact E.
Qed.

Lemma measure_sizes (dX dZ : nat) (w w' : world F) (st : pdhg F)
      (a : stats F) :
  measure fuel dX dZ w st = Some (w', a) -> sizes w' = sizes w.
Proof.
  unfold measure.
  destruct (hw_sched_run fuel TaskStep _) as [w1|] eqn:E1; cbn [bind];
    [|discriminate].
  destruct (borders _ _ _ _ _ _) as [r|] eqn:E2; cbn [bind]; [|discriminate].
  destruct (aggregate _ _ _) as [a'|]; cbn [bind]; [|discriminate].
  intros E; injection E as <- _.
  unfold sizes. cbn [set_ctx set_thr_ctx tnv_ctx thr_ctx].
  rewrite (borders_shapes _ _ _ _ _ _ _ E2).
  apply (hw_sched_run_sizes TaskStep _ _ ltac:(discriminate) E1).
Qed.

Lemma adapt_sizes_kept (w w' : world F) (st st' : pdhg F) (a : stats F)
      (res : F) :
  adapt fuel w st a res = Some (w', st') -> sizes w' = sizes w.
Proof.
  unfold adapt. destruct (fgt (balance st a) f1).
  - destruct (p_started st).
    + intros E; injection E as <- _. reflexivity.
    + destruct (hw_sched_run fuel TaskRestore w) as [w1|] eqn:E1;
        cbn [bind]; [|discriminate].
      intros E; injection E as <- _.
      apply (hw_sched_run_sizes TaskRestore _ _ ltac:(discriminate) E1).
  - match goal with
    | |- context [if fgt ?x ?y then _ else _] => destruct (fgt x y)
    end;
      [|match goal with
        | |- context [if flt ?x ?y then _ else _] => destruct (flt x y)
        end]; intros E; injection E as <- _; reflexivity.
Qed.

Lemma iteration_sizes_kept (dX dY dZ : nat) (w w' : world F)
      (st st' : pdhg F) :
  iteration fuel dX dY dZ w st = Some (w', st') -> sizes w' = sizes w.
Proof.
  unfold iteration.
  destruct (measure fuel dX dZ w st) as [[w1 a]|] eqn:E1; cbn [bind];
    [|discriminate].
  intros E. rewrite (adapt_sizes_kept _ _ _ _ _ _ E).
  apply (measure_sizes _ _ _ _ _ _ E1).
Qed.

Lemma iterate_sizes_kept (tol : F) (dX dY dZ : nat) (n : nat) :
  forall (iter : nat) (w : world F) (st : pdhg F) w' st' iter',
    iterate fuel n iter tol dX dY dZ w st = Some (w', st', iter') ->
    sizes w' = sizes w.
Proof.
  induction n as [|n IH]; intros iter w st w' st' iter'; cbn [iterate].
  - intros E; injection E as <- _ _. reflexivity.
  - destruct (iteration fuel dX dY dZ w st) as [[w1 st1]|] eqn:E1;
      cbn [bind fst snd]; [|discriminate].
    pose proof (iteration_sizes_kept _ _ _ _ _ _ _ E1) as H1.
    destruct (flt (p_residual st1) tol).
    + intros E; injection E as <- _ _. exact H1.
    + intros E. rewrite (IH _ _ _ _ _ _ E). exact H1.
Qed.

Lemma TNV_CPU_main_sizes (inT outT : ptr) (lam : F) (maxIter : nat)
      (tol : F) (dX dY dZ : nat) (w w' : world F) (ret : F) :
  TNV_CPU_main fuel inT outT lam maxIter tol dX dY dZ w = Some (ret, w') ->
  exists w1,
    TNV_CPU_init fuel inT outT dX dY dZ
                 (set_ctx w (set_lambda (tnv_ctx w) (fdiv f1 (fmul f2 lam))))
    = Some w1 /\
    sizes w' = sizes w1.
Proof.
  unfold TNV_CPU_main.
  destruct (TNV_CPU_init _ _ _ _ _ _ _) as [w1|]; cbn [bind]; [|discriminate].
  destruct (hw_sched_run fuel TaskStart _) as [w2|] eqn:E1; cbn [bind];
    [|discriminate].
  destruct (iterate _ _ _ _ _ _ _ _ _) as [[[w3 st3] it]|] eqn:E2;
    cbn [bind]; [|discriminate].
  destruct (hw_sched_run fuel TaskFinish w3) as [w4|] eqn:E3; cbn [bind];
    [|discriminate].
  intros E; injection E as _ <-.
  exists w1. split; [reflexivity|].
  change (sizes w4 = sizes w1).
  rewrite (hw_sched_run_sizes TaskFinish _ _ ltac:(discriminate) E3).
  rewrite (iterate_sizes_kept _ _ _ _ _ _ _ _ _ _ _ E2).
  apply (hw_sched_run_sizes TaskStart _ _ ltac:(discriminate) E1).
Qed.
End Phases.

Lemma fold_left_seq_ind {St : Type} (I : nat -> St -> Prop)
      (f : St -> nat -> St) (k : nat) :
  forall (a : nat) (s : St),
    I a s ->
    (forall d s, a <= d < a + k -> I d s -> I (1 + d) (f s d)) ->
    I (a + k) (fold_left f (seq a k) s).
Proof.
  induction k as [|k IH]; intros a s Ha Hf; cbn [seq fold_left].
  - now rewrite Nat.add_0_r.
  - replace (a + S k) with (S a + k) by lia.
    apply IH; [apply (Hf a s); [lia|assumption]|].
    intros d s1 Hd. apply Hf. lia.
Qed.

Lemma local_index_inj (dX pz j i k j' i' k' : nat) :
  i < dX -> k < pz -> i' < dX -> k' < pz ->
  j * dX * pz + i * pz + k = j' * dX * pz + i' * pz + k' ->
  j = j' /\ i = i' /\ k = k'.
Proof.
  intros Hi Hk Hi' Hk' E.
  assert (E1 : pz * (j * dX + i) + k = pz * (j' * dX + i') + k') by lia.
  destruct (Nat.div_mod_unique pz _ _ _ _ Hk Hk' E1) as [E2 E3].
  assert (E4 : dX * j + i = dX * j' + i') by lia.
  destruct (Nat.div_mod_unique dX _ _ _ _ Hi Hi' E4) as [E5 E6].
  auto.
Qed.

Lemma local_index_bound (dX pz rows j i k : nat) :
  j < rows -> i < dX -> k < pz ->
  j * dX * pz + i * pz + k < dX * rows * pz.
Proof.
  intros Hj Hi Hk.
  assert (j * dX + i + 1 <= rows * dX) by nia.
  assert ((j * dX + i + 1) * pz <= rows * dX * pz)
    by (apply Nat.mul_le_mono_r; assumption).
  lia.
Qed.

Section Ingest.
Context {F : Type} {AF : Arith F}.
Variable ctx : tnv_context_t F.
Variable m : ptr -> list F.
Variable t : tnv_thread_t F.

Hypothesis channels_fit : dimZ ctx <= padZ ctx.
Hypothesis u_fits :
  dimX ctx * copY t * padZ ctx <= length (buf (arrays t) u).
Hypothesis Input_fits :
  dimX ctx * copY t * padZ ctx <= length (buf (arrays t) Input).


Lemma ingested_weaken (P Q : nat -> nat -> nat -> Prop) (b : buffers F) :
  (forall k j i, k < dimZ ctx -> j < copY t -> i < dimX ctx ->
                 Q k j i -> P k j i) ->
  ingested ctx m t P b -> ingested ctx m t Q b.
Proof.
  intros H [HL HP]. split; [exact HL|]. intros k j i Hk Hj Hi HQ.
  apply HP; auto.
Qed.

Lemma ingest_cell_ingested (P : nat -> nat -> nat -> Prop) (b : buffers F)
      (k0 j0 i0 : nat) :
  k0 < dimZ ctx -> j0 < copY t -> i0 < dimX ctx ->
  ingested ctx m t P b ->
  ingested ctx m t (fun k j i => P k j i \/ (k = k0 /\ j = j0 /\ i = i0))
           (ingest_cell ctx m (offY t) k0 j0 b i0).
Proof.
  intros Hk0 Hj0 Hi0 [HL HP]. split.
  { unfold ingest_cell. repeat apply same_lengths_wr. exact HL. }
  intros k j i Hk Hj Hi HPc. unfold copied, ingest_cell.
  fold (local_index ctx j0 i0 k0). fold (volume_index ctx (offY t) j0 i0 k0).
  set (d0 := local_index ctx j0 i0 k0).
  set (d := local_index ctx j i k).
  assert (Hb : d0 < dimX ctx * copY t * padZ ctx).
  { apply local_index_bound; lia. }
  destruct (Nat.eq_dec d0 d) as [E|E].
  - destruct (local_index_inj (dimX ctx) (padZ ctx) j0 i0 k0 j i k)
      as [-> [-> ->]]; try lia; try exact E.
    fold d0. split.
    + apply rd_wr_same. rewrite length_buf_wr, HL. lia.
    + rewrite rd_wr_other by (left; discriminate).
      apply rd_wr_same. rewrite HL. lia.
  - rewrite !rd_wr_other by (right; exact E).
    destruct HPc as [HPc|[-> [-> ->]]]; [|contradiction E; reflexivity].
    apply HP; assumption.
Qed.

Lemma tnv_start_thread_ingested :
  ingested ctx m t (fun _ _ _ => True) (arrays (tnv_start_thread ctx m t)).
Proof.
  unfold tnv_start_thread. cbn [arrays set_arrays].
  apply (ingested_weaken (fun k j i => k < 0 + dimZ ctx)); [intros; lia|].
  apply (fold_left_seq_ind (fun K b => ingested ctx m t (fun k j i => k < K) b)).
  { split; [apply clear_fields_lengths|]. intros; lia. }
  intros k0 b Hk0 Hb.
  apply (ingested_weaken (fun k j i => ingested_before k0 (0 + copY t) 0 k j i)).
  { unfold ingested_before. intros; lia. }
  apply (fold_left_seq_ind
           (fun J b => ingested ctx m t (fun k j i => ingested_before k0 J 0 k j i) b)).
  { revert Hb. apply ingested_weaken. unfold ingested_before. intros; lia. }
  intros j0 b1 Hj0 Hb1.
  apply (ingested_weaken
           (fun k j i => ingested_before k0 j0 (0 + dimX ctx) k j i)).
  { unfold ingested_before. intros; lia. }
  apply (fold_left_seq_ind
           (fun I b => ingested ctx m t (fun k j i => ingested_before k0 j0 I k j i) b)).
  { exact Hb1. }
  intros i0 b2 Hi0 Hb2.
  apply (ingested_weaken
           (fun k j i => ingested_before k0 j0 i0 k j i \/
                         (k = k0 /\ j = j0 /\ i = i0))).
  { unfold ingested_before. intros; lia. }
  apply ingest_cell_ingested; try lia. exact Hb2.
Qed.

(** After [tnv_start], every cell of the band, halo row included, holds
    the value of its cell of the caller's volumes. *)
Lemma tnv_start_thread_copies (j i k : nat) :
  j < copY t -> i < dimX ctx -> k < dimZ ctx ->
  rd (arrays (tnv_start_thread ctx m t)) u (local_index ctx j i k)
  = nth (volume_index ctx (offY t) j i k) (m (uT ctx)) f0 /\
  rd (arrays (tnv_start_thread ctx m t)) Input (local_index ctx j i k)
  = nth (volume_index ctx (offY t) j i k) (m (InputT ctx)) f0.
Proof.
  intros Hj Hi Hk. destruct tnv_start_thread_ingested as [_ H].
  apply H; auto.
Qed.
End Ingest.

Lemma Forall_firstn_upd {A : Type} (P : A -> Prop) (l : list A) :
  forall n i v, Forall P (firstn n l) -> P v -> Forall P (firstn n (upd l i v)).
Proof.
  induction l as [|h t IH]; intros [|n] [|i] v H Hv; cbn in *;
    try constructor; inversion H; subst; auto.
Qed.

Lemma all_equal_lists {A : Type} (v : A) (l1 : list A) :
  forall l2, Forall (eq v) l1 -> Forall (eq v) l2 -> length l1 = length l2 ->
             l1 = l2.
Proof.
  induction l1 as [|a l1 IH]; intros [|b l2] H1 H2 E; cbn in E;
    try discriminate; [reflexivity|].
  inversion H1; subst. inversion H2; subst. f_equal. apply IH; auto.
Qed.

Lemma map_pointwise {A B : Type} (f g : A -> B) (l1 : list A) :
  forall l2, length l1 = length l2 ->
    (forall d a b, nth_error l1 d = Some a -> nth_error l2 d = Some b ->
                   f a = g b) ->
    map f l1 = map g l2.
Proof.
  induction l1 as [|a l1 IH]; intros [|b l2] E H; cbn in E; try discriminate;
    [reflexivity|].
  cbn [map]. f_equal.
  - apply (H 0); reflexivity.
  - apply IH; [lia|]. intros d x y Hx Hy. apply (H (S d)); assumption.
Qed.

Lemma same_maps_nth {A B : Type} (f : A -> B) (l1 l2 : list A) (d : nat)
      (a : A) :
  map f l1 = map f l2 -> nth_error l1 d = Some a ->
  exists b, nth_error l2 d = Some b /\ f b = f a.
Proof.
  intros E Ha. apply (map_nth_error f) in Ha. rewrite E in Ha.
  rewrite nth_error_map in Ha.
  destruct (nth_error l2 d) as [b|]; [|discriminate].
  exists b. split; [reflexivity|]. cbn in Ha. congruence.
Qed.

Section Initialized.
Context {F : Type} {AF : Arith F} {HF : TNVHeader F} {PF : Platform F}.
Variable fuel : nat.

Lemma initialized_kept (w w' : world F) :
  dimX (tnv_ctx w') = dimX (tnv_ctx w) ->
  dimZ (tnv_ctx w') = dimZ (tnv_ctx w) ->
  padZ (tnv_ctx w') = padZ (tnv_ctx w) ->
  map band (thr_ctx (tnv_ctx w')) = map band (thr_ctx (tnv_ctx w)) ->
  sizes w' = sizes w -> initialized w -> initialized w'.
Proof.
  intros Hx Hz Hp Hb Hs [Hpad Ht]. split; [congruence|].
  intros t' Hin. apply In_nth_error in Hin. destruct Hin as [d Hd].
  destruct (same_maps_nth band _ _ d t' Hb Hd) as [t [Hd0 Eb]].
  destruct (same_maps_nth shape _ _ d t' Hs Hd) as [t0 [Hd1 Es]].
  rewrite Hd0 in Hd1. injection Hd1 as <-.
  destruct (Ht t (nth_error_In _ _ Hd0)) as [Hc Hl].
  unfold band in Eb. injection Eb as Eo Est Ec.
  split; [lia|]. intros x.
  assert (El : length (buf (arrays t') x) = length (buf (arrays t) x)).
  { apply (proj2 (same_lengths_shape t t')). now symmetry. }
  rewrite El, Hl. unfold allocation. rewrite Hx, Hp, Est. reflexivity.
Qed.

Lemma layout_initialized (w w' : world F) :
  layout w' = layout w -> sizes w' = sizes w ->
  initialized w -> initialized w'.
Proof.
  intros L. unfold layout in L. injection L as _ _ Hx _ Hz Hp _ _ _ Hb.
  now apply initialized_kept.
Qed.

Lemma malloc_length (d k len : nat) : length (malloc (F:=F) d k len) = len.
Proof. unfold malloc. now rewrite length_map, length_seq. Qed.

(** The first call leaves every array allocated for its band. *)
Lemma TNV_CPU_init_initialized (inT outT : ptr) (dX dY dZ : nat)
      (w w' : world F) :
  sched w = None -> TNV_CPU_init fuel inT outT dX dY dZ w = Some w' ->
  initialized w'.
Proof.
  intros Hs E.
  destruct (TNV_CPU_init_bands fuel _ _ _ _ _ _ _ Hs E) as [Hn [Ht [Hd _]]].
  injection Hd as Hx Hy Hz Hp.
  unfold TNV_CPU_init in E. rewrite Hs in E. cbv zeta in E.
  destruct (_ =? 0) in E; [discriminate|].
  set (n := partition_count hw_sched_get_cpu_count dY) in *.
  match type of E with hw_sched_run _ _ ?x = _ => set (w0 := x) in * end.
  destruct (hw_sched_run_on fuel TaskInit n w0 w' eq_refl E)
    as [Hc [_ [Hl [_ [Hlo _]]]]].
  split; [congruence|].
  intros t' Hin. apply In_nth_error in Hin. destruct Hin as [d Hd'].
  assert (Hdn : d < n).
  { assert (d < length (thr_ctx (tnv_ctx w'))) by
      (apply nth_error_Some; congruence).
    rewrite Hl in H. cbn in H. now rewrite split_rows_length in H. }
  destruct (Hlo d t' Hdn Hd') as [c [evs [Hc0 Eon]]].
  cbn [task_on] in Eon. injection Eon as <- _.
  cbn [thr_ctx tnv_ctx w0] in Hc0.
  destruct (split_rows_nth _ _ _ _ _ _ _ _ Hc0) as [_ [_ [_ Hcop]]].
  unfold tnv_init_thread. cbn [stepY copY arrays set_arrays].
  split.
  - rewrite Hcop. destruct (_ =? _); lia.
  - intros x. unfold allocation. cbn [stepY set_arrays].
    rewrite Hx, Hp.
    destruct x; cbn [buf a_Input a_u a_qx a_qy a_gradx a_grady a_div a_div0
                         a_udiff0 a_udiff]; rewrite malloc_length;
      reflexivity.
Qed.
End Initialized.

Section RoundTrip.
Context {F : Type} {AF : Arith F} {HF : TNVHeader F} {PF : Platform F}.
Variable fuel : nat.

Lemma initialized_fits (w : world F) (c : tnv_thread_t F) (x : buffer) :
  initialized w -> In c (thr_ctx (tnv_ctx w)) -> x = u \/ x = Input ->
  dimZ (tnv_ctx w) <= padZ (tnv_ctx w) /\
  stepY c <= copY c /\
  dimX (tnv_ctx w) * copY c * padZ (tnv_ctx w) <= length (buf (arrays c) x).
Proof.
  intros [Hp Ht] Hin Hx. destruct (Ht c Hin) as [Hc Hl].
  split; [lia|]. split; [lia|].
  rewrite Hl.
  assert (E : allocation (tnv_ctx w) c x
              = dimX (tnv_ctx w) * (stepY c + 1) * padZ (tnv_ctx w))
    by (destruct Hx as [-> | ->]; reflexivity).
  rewrite E. apply Nat.mul_le_mono_r. apply Nat.mul_le_mono_l. lia.
Qed.

(** The ingest phase, partition by partition. *)
Lemma hw_sched_run_start_copies (n : nat) (w w' : world F) :
  sched w = Some n -> initialized w ->
  hw_sched_run fuel TaskStart w = Some w' ->
  forall d c', d < n -> nth_error (thr_ctx (tnv_ctx w')) d = Some c' ->
  forall j i k, j < copY c' -> i < dimX (tnv_ctx w) -> k < dimZ (tnv_ctx w) ->
    copied (tnv_ctx w) (mem w) c' (arrays c') k j i.
Proof.
  intros Hs Hi E d c' Hd Hc' j i k Hj Hii Hk.
  destruct (hw_sched_run_on fuel TaskStart n w w' Hs E)
    as [_ [_ [_ [_ [Hlo _]]]]].
  destruct (Hlo d c' Hd Hc') as [c [evs [Hc Eon]]].
  cbn [task_on] in Eon. injection Eon as <- _.
  pose proof (nth_error_In _ _ Hc) as Hin.
  destruct (initialized_fits w c u Hi Hin (or_introl eq_refl)) as [Hz [_ Hu]].
  destruct (initialized_fits w c Input Hi Hin (or_intror eq_refl))
    as [_ [_ HI]].
  exact (tnv_start_thread_copies (tnv_ctx w) (mem w) c Hz Hu HI j i k
           Hj Hii Hk).
Qed.

(** Writing back what ingest copied changes no cell of any volume. *)
Lemma hw_sched_run_finish_same (n : nat) (w w' : world F) :
  sched w = Some n ->
  (forall d c, d < n -> nth_error (thr_ctx (tnv_ctx w)) d = Some c ->
     forall j i k, j < stepY c -> i < dimX (tnv_ctx w) ->
                   k < dimZ (tnv_ctx w) ->
       rd (arrays c) u (local_index (tnv_ctx w) j i k)
       = nth (volume_index (tnv_ctx w) (offY c) j i k)
             (mem w (uT (tnv_ctx w))) f0) ->
  hw_sched_run fuel TaskFinish w = Some w' ->
  forall p, mem w' p = mem w p.
Proof.
  intros Hs Hrd E. unfold hw_sched_run in E. rewrite Hs in E. cbn [bind] in E.
  set (I := fun (k : nat) (s : world F) =>
              tnv_ctx s = tnv_ctx w /\ forall p, mem s p = mem w p).
  assert (H : I (0 + n) w'); [|exact (proj2 H)].
  revert E. apply (foldM_seq_ind I); [split; reflexivity|].
  intros d s s' Hd [Hc Hm]. cbn [run_task]. unfold tnv_finish.
  cbn [log tnv_ctx]. rewrite Hc.
  destruct (nth_error (thr_ctx (tnv_ctx w)) d) as [c|] eqn:Ec;
    cbn [bind]; [|discriminate].
  intros E; injection E as <-.
  set (s0 := log s [EvTask TaskFinish d]).
  assert (H0 : I d s0) by (split; [exact Hc|exact Hm]).
  revert H0. generalize s0. intros x Hx.
  apply (fold_left_ind (I d)); [|exact Hx].
  intros x1 k Hk Hx1. apply (fold_left_ind (I d)); [|exact Hx1].
  intros x2 j Hj Hx2. apply (fold_left_ind (I d)); [|exact Hx2].
  intros x3 i Hi [Hc3 Hm3]. apply in_seq in Hk, Hj, Hi.
  split; [exact Hc3|]. intros p. cbn [store mem].
  destruct (Nat.eqb_spec p (uT (tnv_ctx w))) as [->|Hne]; [|apply Hm3].
  fold (local_index (tnv_ctx w) j i k).
  fold (volume_index (tnv_ctx w) (offY c) j i k).
  rewrite (Hrd d c ltac:(lia) Ec) by lia.
  rewrite <- (Hm3 (uT (tnv_ctx w))). apply upd_nth.
Qed.

(** Ingest followed by write-back leaves the caller's volumes as they
    were. *)
Lemma start_finish_same (w w1 w2 : world F) :
  pooled w -> initialized w ->
  hw_sched_run fuel TaskStart w = Some w1 ->
  hw_sched_run fuel TaskFinish w1 = Some w2 ->
  forall p, mem w2 p = mem w p.
Proof.
  intros [Hs Hl] Hi E1 E2.
  destruct (hw_sched_run_on fuel TaskStart _ w w1 Hs E1)
    as [Hc [Hs1 [_ [Hm _]]]].
  assert (Em : mem w1 = mem w) by (apply Hm; discriminate).
  assert (Ex : dimX (tnv_ctx w1) = dimX (tnv_ctx w)) by (now rewrite Hc).
  assert (Ez : dimZ (tnv_ctx w1) = dimZ (tnv_ctx w)) by (now rewrite Hc).
  assert (Eu : uT (tnv_ctx w1) = uT (tnv_ctx w)) by (now rewrite Hc).
  intros p. rewrite <- Em.
  apply (hw_sched_run_finish_same (threads (tnv_ctx w)) w1 w2);
    [congruence| |exact E2].
  intros d c Hd Hcd j i k Hj Hii Hk.
  destruct (hw_sched_run_on fuel TaskStart _ w w1 Hs E1)
    as [_ [_ [_ [_ [Hlo _]]]]].
  destruct (Hlo d c Hd Hcd) as [c0 [evs [Hc0 Eon]]].
  pose proof (nth_error_In _ _ Hc0) as Hin.
  destruct (initialized_fits w c0 u Hi Hin (or_introl eq_refl))
    as [_ [Hst _]].
  assert (Hj' : j < copY c).
  { destruct (task_on_kept fuel _ _ _ _ _ _ _ Eon) as [Eb _].
    unfold band in Eb. injection Eb as _ Es Ec. lia. }
  rewrite Ex in Hii. rewrite Ez in Hk.
  destruct (hw_sched_run_start_copies _ w w1 Hs Hi E1 d c Hd Hcd j i k
              Hj' Hii Hk) as [Hu _].
  rewrite Em, Eu.
  unfold local_index, volume_index in *. rewrite Hc. cbn. exact Hu.
Qed.
End RoundTrip.

Section ColdStart.
Context {F : Type} {AF : Arith F} {HF : TNVHeader F} {PF : Platform F}.
Variable fuel : nat.

(** Ingest of an all-zero estimate leaves every mutable field zero. *)
Lemma tnv_start_thread_zeroed (ctx : tnv_context_t F) (m : ptr -> list F)
      (t : tnv_thread_t F) :
  (forall i, nth i (m (uT ctx)) f0 = f0) ->
  zeroed ctx (tnv_start_thread ctx m t).
Proof.
  intros Hz. unfold tnv_start_thread.
  set (Z := fun b : buffers F => zeroed ctx (set_arrays t b)).
  change (Z (fold_left
    (fun b k => fold_left (fun b j =>
       fold_left (ingest_cell ctx m (offY t) k j) (seq 0 (dimX ctx)) b)
       (seq 0 (copY t)) b) (seq 0 (dimZ ctx)) (clear_fields ctx t))).
  apply (fold_left_ind Z).
  2:{ exact (tnv_restore_thread_zeroed ctx t). }
  intros b k _ Hb. apply (fold_left_ind Z); [|exact Hb].
  intros b1 j _ Hb1. apply (fold_left_ind Z); [|exact Hb1].
  intros b2 i _ Hb2 x Hx. specialize (Hb2 x Hx).
  unfold extent in *. cbn [arrays set_arrays stepY copY] in *.
  unfold ingest_cell.
  destruct (buffer_eq_dec x u) as [->|Hu].
  - unfold wr at 1. rewrite buf_set_buf_same.
    rewrite buf_wr_other by discriminate.
    apply Forall_firstn_upd; [exact Hb2|]. symmetry. apply Hz.
  - rewrite !buf_wr_other; [exact Hb2| |congruence].
    intros <-. cbn in Hx. intuition discriminate.
Qed.

Lemma hw_sched_run_start_zeroed (w w' : world F) :
  pooled w ->
  (forall i, nth i (mem w (uT (tnv_ctx w))) f0 = f0) ->
  hw_sched_run fuel TaskStart w = Some w' ->
  forall t, In t (thr_ctx (tnv_ctx w')) -> zeroed (tnv_ctx w') t.
Proof.
  intros [Hs Hl] Hz E t Hin.
  destruct (hw_sched_run_on fuel TaskStart _ w w' Hs E)
    as [Hc [_ [Hlen [_ [Hlo _]]]]].
  apply In_nth_error in Hin. destruct Hin as [d Hd].
  assert (Hdn : d < threads (tnv_ctx w)).
  { rewrite <- Hl, <- Hlen. apply nth_error_Some. congruence. }
  destruct (Hlo d t Hdn Hd) as [c [evs [_ Eon]]].
  cbn [task_on] in Eon. injection Eon as <- _.
  apply (zeroed_dims (tnv_ctx w)); [now rewrite Hc|].
  now apply tnv_start_thread_zeroed.
Qed.

Lemma zeroed_states_equal (w w' : world F) :
  layout w' = layout w -> sizes w' = sizes w ->
  (forall t, In t (thr_ctx (tnv_ctx w)) -> zeroed (tnv_ctx w) t) ->
  (forall t, In t (thr_ctx (tnv_ctx w')) -> zeroed (tnv_ctx w') t) ->
  mutable_state w' = mutable_state w.
Proof.
  intros L S Z Z'. unfold mutable_state.
  pose proof L as L0.
  unfold layout in L0. injection L0 as _ _ Hx _ _ Hp _ _ _ Hb.
  apply map_pointwise.
  { rewrite <- (length_map band), Hb. apply length_map. }
  intros d t' t Hd' Hd.
  destruct (same_maps_nth band _ _ d t' Hb Hd') as [t0 [Hd0 Eb]].
  destruct (same_maps_nth shape _ _ d t' S Hd') as [t1 [Hd1 Es]].
  rewrite Hd in Hd0, Hd1. injection Hd0 as <-. injection Hd1 as <-.
  apply map_ext_in. intros x Hin.
  apply (all_equal_lists f0).
  - apply (Z' t' (nth_error_In _ _ Hd') x Hin).
  - apply (Z t (nth_error_In _ _ Hd) x Hin).
  - unfold extent. rewrite !length_firstn.
    rewrite (proj2 (same_lengths_shape t t') (eq_sym Es) x).
    unfold band in Eb. injection Eb as _ E1 E2. now rewrite Hx, Hp, E1, E2.
Qed.

(** For a cold start (an all-zero estimate) the rollback of a rejected
    first iteration restores the mutable state that ingest left. *)
Lemma cold_start_rollback (dX dY dZ : nat) (w0 w w' w1 : world F)
      (st st' : pdhg F) (a : stats F) :
  pooled w0 ->
  (forall i, nth i (mem w0 (uT (tnv_ctx w0))) f0 = f0) ->
  hw_sched_run fuel TaskStart w0 = Some w ->
  iteration fuel dX dY dZ w st = Some (w', st') ->
  measure fuel dX dZ w st = Some (w1, a) ->
  fgt (balance st a) f1 = true -> p_started st = false ->
  mutable_state w' = mutable_state w.
Proof.
  intros Hp Hz E0 E E1 Hb Hst.
  assert (L0 : layout w = layout w0).
  { destruct (hw_sched_run_evolves fuel (fun _ => True) (@any_event F)
                TaskStart _ _ (fun _ => I) (fun H => I) (fun H => I) E0)
      as [L _]. exact L. }
  pose proof (layout_pooled _ _ L0 Hp) as Hpw.
  apply zeroed_states_equal.
  - destruct (iteration_evolves fuel (fun _ => True) (@any_event F)
                _ _ _ _ _ _ _
                (conj (fun _ => I) (conj I (conj (fun _ _ _ _ _ _ => I) I)))
                (fun _ _ => I) E) as [L _]. exact L.
  - apply (iteration_sizes_kept fuel _ _ _ _ _ _ _ E).
  - apply (hw_sched_run_start_zeroed _ _ Hp Hz E0).
  - apply (rollback_zeroes fuel _ _ _ _ _ _ _ _ _ E E1 Hb Hst Hpw).
Qed.
End ColdStart.

Section Loop.
Context {F : Type} {AF : Arith F} {HF : TNVHeader F} {PF : Platform F}.
Variable fuel : nat.

Lemma iterate_count (tol : F) (dX dY dZ : nat) (n : nat) :
  forall (iter : nat) (w : world F) (st : pdhg F) w' st' iter',
    iterate fuel n iter tol dX dY dZ w st = Some (w', st', iter') ->
    iter <= iter' <= iter + n /\
    (iter' < iter + n -> flt (p_residual st') tol = true) /\
    (iter' = iter + n -> 0 < n -> flt (p_residual st') tol = false) /\
    (n = 0 -> st' = st).
Proof.
  induction n as [|n IH]; intros iter w st w' st' iter'; cbn [iterate].
  - intros E; injection E as _ <- <-. repeat split; try lia.
  - destruct (iteration fuel dX dY dZ w st) as [[w1 st1]|] eqn:E1;
      cbn [bind fst snd]; [|discriminate].
    destruct (flt (p_residual st1) tol) eqn:Et.
    + intros E; injection E as _ <- <-. repeat split; try lia. auto.
    + intros E. destruct (IH _ _ _ _ _ _ E) as [H1 [H2 [H3 H4]]].
      repeat split; try lia.
      * intros H. apply H2. lia.
      * intros H _. destruct n as [|n].
        -- rewrite (H4 eq_refl). exact Et.
        -- apply H3; lia.
Qed.

Lemma partition_count_zero (cpus dY : nat) :
  partition_count cpus dY = 0 <-> cpus = 0 \/ (dY < cpus /\ dY <= 1).
Proof.
  unfold partition_count. destruct (Nat.ltb_spec dY cpus) as [L|L].
  - split.
    + intros E. right. split; [assumption|].
      destruct dY as [|[|k]]; try lia.
      change (S (S k)) with (2 + k) in E.
      replace (2 + k) with (k + 1 * 2) in E by lia.
      rewrite Nat.div_add in E by lia. lia.
    + intros [->|[_ H]]; [lia|].
      destruct dY as [|[|k]]; try lia; reflexivity.
  - split; [intros ->; now left|]. intros [->|[H _]]; lia.
Qed.

Lemma TNV_CPU_main_no_partition (inT outT : ptr) (lam : F) (maxIter : nat)
      (tol : F) (dX dY dZ : nat) (w : world F) :
  sched w = None -> partition_count hw_sched_get_cpu_count dY = 0 ->
  TNV_CPU_main fuel inT outT lam maxIter tol dX dY dZ w = None.
Proof.
  intros Hs Hn. unfold TNV_CPU_main, TNV_CPU_init. cbn [sched set_ctx].
  rewrite Hs, Hn. reflexivity.
Qed.

Lemma border_cell_beside (dX pz : nat) (divtau : F) (m : nat)
      (s : buffers F * buffers F * F) (l : nat) (x : buffer) :
  x <> div ->
  buf (fst (fst (border_cell dX pz divtau m s l))) x = buf (fst (fst s)) x /\
  buf (snd (fst (border_cell dX pz divtau m s l))) x = buf (snd (fst s)) x.
Proof.
  intros Hx. destruct s as [[c0 c1] rp]. unfold border_cell. cbn [fst snd].
  split; apply buf_wr_other; congruence.
Qed.

Lemma border_beside (dX dZ pz : nat) (divtau : F) (j : nat)
      (s s' : list (tnv_thread_t F) * F) :
  border dX dZ pz divtau j s = Some s' ->
  map beside_div (fst s') = map beside_div (fst s).
Proof.
  destruct s as [ts rp]. unfold border.
  destruct (nth_error ts (j - 1)) as [t0|] eqn:E0; cbn [bind]; [|discriminate].
  destruct (nth_error ts j) as [t1|] eqn:E1; cbn [bind]; [|discriminate].
  set (r := fold_left _ _ _).
  assert (Hr : forall x, x <> div ->
                 buf (fst (fst r)) x = buf (arrays t0) x /\
                 buf (snd (fst r)) x = buf (arrays t1) x).
  { intros x Hx. unfold r.
    apply (fold_left_ind
             (fun y => buf (fst (fst y)) x = buf (arrays t0) x /\
                       buf (snd (fst y)) x = buf (arrays t1) x)).
    - intros y i _ Hy.
      apply (fold_left_ind
               (fun y => buf (fst (fst y)) x = buf (arrays t0) x /\
                         buf (snd (fst y)) x = buf (arrays t1) x));
        [|exact Hy].
      intros z k _ [Hz0 Hz1].
      destruct (border_cell_beside dX pz divtau
                  ((stepY t0 - 1) * dX * pz) z (i * pz + k) x Hx) as [A B].
      rewrite A, B. auto.
    - split; reflexivity. }
  destruct r as [[c0 c1] rp']. cbn [fst snd] in Hr.
  intros E; injection E as <-. cbn [fst].
  assert (S0 : beside_div (set_arrays t0 c0) = beside_div t0).
  { unfold beside_div. cbn [map arrays set_arrays].
    rewrite !(fun x H => proj1 (Hr x H)) by discriminate. reflexivity. }
  assert (S1 : beside_div (set_arrays t1 c1) = beside_div t1).
  { unfold beside_div. cbn [map arrays set_arrays].
    rewrite !(fun x H => proj2 (Hr x H)) by discriminate. reflexivity. }
  rewrite !map_upd, S0, S1.
  rewrite (upd_same _ (j - 1)) by (now apply map_nth_error).
  apply upd_same. now apply map_nth_error.
Qed.

Lemma borders_beside (dX dZ pz n : nat) (divtau : F)
      (ts : list (tnv_thread_t F)) (r : list (tnv_thread_t F) * F) :
  borders dX dZ pz n divtau ts = Some r ->
  map beside_div (fst r) = map beside_div ts.
Proof.
  unfold borders.
  apply (foldM_ind (fun s => map beside_div (fst s) = map beside_div ts));
    [|reflexivity].
  intros j s s' _ Hs E. rewrite <- Hs. eapply border_beside; exact E.
Qed.
End Loop.

(** *** Products of dimensions on [int] *)

Lemma int_wrap_exact (z : Z) :
  (- 2147483648 <= z <= INT_MAX)%Z -> int_wrap z = z.
Proof.
  unfold int_wrap, INT_MAX. intros H.
  rewrite Z.mod_small by lia. lia.
Qed.

Lemma int_wrap_mul (x c : Z) : int_wrap (int_wrap x * c) = int_wrap (x * c).
Proof.
  unfold int_wrap. f_equal.
  rewrite <- (Zplus_mod_idemp_l (_ * c)), <- (Zplus_mod_idemp_l (x * c)).
  f_equal. f_equal.
  rewrite <- (Zmult_mod_idemp_l _ c), <- (Zmult_mod_idemp_l x c).
  f_equal. f_equal.
  rewrite <- Zminus_mod_idemp_l, Z.mod_mod by lia.
  rewrite Zminus_mod_idemp_l. f_equal. lia.
Qed.

(** A product of three dimensions that an [int] holds is computed
    exactly. *)
Lemma int_mul_exact (a b c : nat) :
  int_range (a * b * c) ->
  int_mul (int_mul (Z.of_nat a) (Z.of_nat b)) (Z.of_nat c)
  = Z.of_nat (a * b * c).
Proof.
  unfold int_range, int_mul. intros H.
  rewrite int_wrap_mul, <- !Nat2Z.inj_mul.
  apply int_wrap_exact. unfold INT_MAX in *. lia.
Qed.

(** A product that an [int] does not hold wraps: the 2^31 cells of a
    2048 x 2048 x 512 volume give the divisor -2^31 on line 593. *)
Lemma int_mul_wraps :
  int_mul (int_mul (Z.of_nat 2048) (Z.of_nat 2048)) (Z.of_nat 512)
  = (- 2147483648)%Z.
Proof. reflexivity. Qed.

Section Residuals.
Context {HF : TNVHeader R} {PF : Platform R}.
Variable fuel : nat.
Open Scope R_scope.

Ltac real_arith_ops :=
  unfold f0, f1, f2, f4, lit in *;
  cbn [fofZ fadd fsub fmul fdiv fsqrt fabs real_arith] in *.

Lemma accumulate_nonneg (e : step_env R) (j k : nat) (sc : scratch R)
      (d : dual_cell R) (a : stats R) :
  nonneg_stats a -> nonneg_stats (accumulate e j k sc d a).
Proof.
  intros [H1 [H2 [H3 H4]]]. unfold nonneg_stats, accumulate, primal_term.
  cbn [resprimal resdual unorm qnorm]. real_arith_ops.
  repeat split.
  - destruct (_ || _); [|lra].
    match goal with |- context [Rabs ?x] => pose proof (Rabs_pos x) end. lra.
  - match goal with
    | |- 0 <= _ + Rabs ?x + Rabs ?y =>
        pose proof (Rabs_pos x); pose proof (Rabs_pos y)
    end. lra.
  - nra.
  - nra.
Qed.

Lemma pixel_nonneg (e : step_env R) (j i : nat) (s s' : step_state R) :
  pixel fuel e j i s = Some s' ->
  nonneg_stats (s_acc s) -> nonneg_stats (s_acc s').
Proof.
  unfold pixel.
  destruct (coefF _ _ _ _ _ _ _ _) as [t|]; cbn [bind]; [|discriminate].
  intros E; injection E as <-. cbn [s_acc]. intros H.
  apply (fold_left_ind (fun x => nonneg_stats (snd x))); [|exact H].
  intros x k _ Hx. unfold scatter. cbn [snd]. now apply accumulate_nonneg.
Qed.

Lemma tnv_step_thread_nonneg (ctx : tnv_context_t R) (t t' : tnv_thread_t R)
      (evs : list (event R)) :
  tnv_step_thread fuel ctx t = Some (t', evs) -> nonneg_stats (results t').
Proof.
  unfold tnv_step_thread.
  destruct (step_rows _ _ _) as [s|] eqn:E; cbn [bind]; [|discriminate].
  intros H; injection H as <- _. cbn [results].
  revert E. unfold step_rows.
  apply (foldM_ind (fun x => nonneg_stats (s_acc x))).
  - intros j x x' _ Hx.
    apply (foldM_ind (fun y => nonneg_stats (s_acc y))); [|exact Hx].
    intros i y y' _ Hy E. exact (pixel_nonneg _ _ _ _ _ E Hy).
  - cbn [s_acc]. unfold nonneg_stats, stats0. cbn. real_arith_ops.
    repeat split; lra.
Qed.

Lemma border_cell_nonneg (dX pz : nat) (divtau : R) (m : nat)
      (s : buffers R * buffers R * R) (l : nat) :
  0 <= snd s -> 0 <= snd (border_cell dX pz divtau m s l).
Proof.
  destruct s as [[c0 c1] rp]. unfold border_cell. cbn [snd]. real_arith_ops.
  intros H.
  match goal with |- context [Rabs ?x] => pose proof (Rabs_pos x) end. lra.
Qed.

Lemma borders_nonneg (dX dZ pz n : nat) (divtau : R)
      (ts : list (tnv_thread_t R)) (r : list (tnv_thread_t R) * R) :
  borders dX dZ pz n divtau ts = Some r -> 0 <= snd r.
Proof.
  unfold borders.
  apply (foldM_ind (fun s => 0 <= snd s)).
  - intros j [ts0 rp] s' _ Hs. unfold border.
    destruct (nth_error ts0 (j - 1)) as [t0|]; cbn [bind]; [|discriminate].
    destruct (nth_error ts0 j) as [t1|]; cbn [bind]; [|discriminate].
    set (r0 := fold_left _ _ _).
    assert (Hr : 0 <= snd r0).
    { unfold r0. apply (fold_left_ind (fun x => 0 <= snd x)); [|exact Hs].
      intros x i _ Hx. apply (fold_left_ind (fun x => 0 <= snd x)); [|exact Hx].
      intros y k _ Hy. now apply border_cell_nonneg. }
    destruct r0 as [[c0 c1] rp']. intros E; injection E as <-. exact Hr.
  - cbn. real_arith_ops. lra.
Qed.

Lemma aggregate_nonneg (n : nat) (ts : list (tnv_thread_t R)) (rp : R)
      (a : stats R) :
  0 <= rp ->
  (forall (d : nat) t, (d < n)%nat -> nth_error ts d = Some t ->
     nonneg_stats (results t)) ->
  aggregate n ts rp = Some a -> nonneg_stats a.
Proof.
  intros Hrp Ht. unfold aggregate.
  apply (foldM_ind nonneg_stats).
  - intros j x x' Hj [H1 [H2 [H3 H4]]]. apply in_seq in Hj.
    destruct (nth_error ts j) as [t|] eqn:Et; cbn [bind]; [|discriminate].
    intros E; injection E as <-.
    destruct (Ht j t ltac:(lia) Et) as [G1 [G2 [G3 G4]]].
    unfold nonneg_stats. cbn [resprimal resdual unorm qnorm]. real_arith_ops.
    repeat split; lra.
  - unfold nonneg_stats. cbn. real_arith_ops. repeat split; lra.
Qed.

Lemma measure_nonneg (dX dZ : nat) (w w' : world R) (st : pdhg R)
      (a : stats R) :
  pooled w -> measure fuel dX dZ w st = Some (w', a) -> nonneg_stats a.
Proof.
  intros [Hs Hl]. unfold measure.
  set (w0 := set_ctx w _).
  destruct (hw_sched_run fuel TaskStep w0) as [w1|] eqn:E1; cbn [bind];
    [|discriminate].
  destruct (borders _ _ _ _ _ _) as [r|] eqn:E2; cbn [bind]; [|discriminate].
  destruct (aggregate _ _ _) as [a'|] eqn:E3; cbn [bind]; [|discriminate].
  intros E; injection E as _ <-.
  destruct (hw_sched_run_on fuel TaskStep (threads (tnv_ctx w)) w0 w1 Hs E1)
    as [Hc [_ [_ [_ [Hlo _]]]]].
  assert (Ht : threads (tnv_ctx w1) = threads (tnv_ctx w))
    by (rewrite Hc; reflexivity).
  rewrite Ht in E3.
  apply (aggregate_nonneg _ _ _ _ (borders_nonneg _ _ _ _ _ _ _ E2)) in E3;
    [exact E3|].
  intros d t Hd Hn.
  pose proof (borders_beside _ _ _ _ _ _ _ E2) as Hb.
  destruct (same_maps_nth beside_div _ _ d t Hb Hn) as [t1 [Hn1 Eb]].
  destruct (Hlo d t1 Hd Hn1) as [c [evs [_ Eon]]].
  cbn [task_on] in Eon. apply tnv_step_thread_nonneg in Eon.
  unfold beside_div in Eb. injection Eb as _ Er _. congruence.
Qed.

Lemma iteration_residual_nonneg (dX dY dZ : nat) (w w' : world R)
      (st st' : pdhg R) :
  int_range (dX * dY * dZ) ->
  pooled w -> iteration fuel dX dY dZ w st = Some (w', st') ->
  0 <= p_residual st'.
Proof.
  intros Hi Hp. unfold iteration. rewrite (int_mul_exact _ _ _ Hi).
  destruct (measure fuel dX dZ w st) as [[w1 a]|] eqn:E1; cbn [bind];
    [|discriminate].
  destruct (measure_nonneg _ _ _ _ _ _ Hp E1) as [H1 [H2 _]].
  set (res := fdiv _ _).
  assert (Hres : 0 <= res).
  { unfold res. real_arith_ops. unfold Rdiv.
    apply Rmult_le_pos; [lra|].
    set (N := (dX * dY * dZ)%nat).
    destruct (Nat.eq_dec N 0) as [->|HN].
    - cbn. rewrite Rinv_0. lra.
    - left. apply Rinv_0_lt_compat. apply (IZR_lt 0). lia. }
  intros E.
  assert (Er : p_residual st' = res).
  { unfold adapt in E.
    destruct (fgt (balance st a) f1).
    - destruct (p_started st); [injection E as _ <-; reflexivity|].
      destruct (hw_sched_run fuel TaskRestore _); cbn [bind] in E;
        [injection E as _ <-; reflexivity|discriminate].
    - repeat match type of E with
             | context [if ?c then _ else _] => destruct c
             end; injection E as _ <-; reflexivity. }
  rewrite Er. exact Hres.
Qed.

(** With a tolerance that is not positive the loop runs its full
    budget. *)
Lemma iterate_full_budget (tol : R) (dX dY dZ : nat) (n : nat) :
  int_range (dX * dY * dZ) -> tol <= 0 ->
  forall (iter : nat) (w : world R) (st : pdhg R) w' st' iter',
    pooled w ->
    iterate fuel n iter tol dX dY dZ w st = Some (w', st', iter') ->
    iter' = (iter + n)%nat.
Proof.
  intros Hi Htol. induction n as [|n IH]; intros iter w st w' st' iter' Hp;
    cbn [iterate].
  - intros E; injection E as _ _ <-. lia.
  - destruct (iteration fuel dX dY dZ w st) as [[w1 st1]|] eqn:E1;
      cbn [bind fst snd]; [|discriminate].
    pose proof (iteration_residual_nonneg _ _ _ _ _ _ _ Hi Hp E1) as Hr.
    assert (Hp1 : pooled w1).
    { destruct (iteration_evolves fuel (fun _ => True) (@any_event R)
                  _ _ _ _ _ _ _
                  (conj (fun _ => I) (conj I (conj (fun _ _ _ _ _ _ => I) I)))
                  (fun _ _ => I) E1) as [L _].
      exact (layout_pooled _ _ L Hp). }
    assert (Et : flt (p_residual st1) tol = false).
    { cbn [flt real_arith]. destruct (Rlt_dec (p_residual st1) tol); [lra|].
      reflexivity. }
    rewrite Et. intros E. rewrite (IH _ _ _ _ _ _ Hp1 E). lia.
Qed.
End Residuals.

Section WholeCall.
Context {F : Type} {AF : Arith F} {HF : TNVHeader F} {PF : Platform F}.
Variable fuel : nat.

(** A call keeps what initialization has set up. *)
Lemma TNV_CPU_main_initialized (inT outT : ptr) (lam : F) (maxIter : nat)
      (tol : F) (dX dY dZ : nat) (w w' : world F) (ret : F) :
  sched w = None \/ initialized w ->
  TNV_CPU_main fuel inT outT lam maxIter tol dX dY dZ w = Some (ret, w') ->
  initialized w'.
Proof.
  intros Hw E.
  destruct (TNV_CPU_main_inv _ _ _ _ _ _ _ _ _ _ _ _ E) as [w1 [E1 V]].
  destruct (TNV_CPU_main_sizes _ _ _ _ _ _ _ _ _ _ _ _ E) as [w1' [E1' Hs]].
  rewrite E1 in E1'. injection E1' as <-.
  destruct (V (fun _ => True) (@any_event F) I any_solve_alphabet)
    as [L _].
  assert (H1 : initialized w1).
  { destruct (sched w) eqn:Es.
    - rewrite TNV_CPU_init_reuses in E1 by (cbn; congruence).
      injection E1 as <-. destruct Hw as [Hw|Hw]; [discriminate|exact Hw].
    - eapply TNV_CPU_init_initialized; [|exact E1]. exact Es. }
  apply (layout_initialized (set_ctx w1 (set_volumes (tnv_ctx w1) inT outT)));
    [exact L|exact Hs|exact H1].
Qed.

Lemma TNV_CPU_init_pooled (inT outT : ptr) (dX dY dZ : nat) (w w' : world F) :
  sched w = None -> TNV_CPU_init fuel inT outT dX dY dZ w = Some w' ->
  pooled w'.
Proof.
  intros Hs E.
  destruct (TNV_CPU_init_bands fuel _ _ _ _ _ _ _ Hs E) as [Hn _].
  destruct (TNV_CPU_init_first fuel inT outT dX dY dZ w Hs Hn)
    as [w1 [E1 [Hp _]]].
  rewrite E in E1. injection E1 as <-. exact Hp.
Qed.

(** With no iteration to run, a call is ingest followed by write-back. *)
Lemma TNV_CPU_main_zero (inT outT : ptr) (lam : F) (tol : F)
      (dX dY dZ : nat) (w w' : world F) (ret : F) :
  sched w = None \/ (pooled w /\ initialized w) ->
  TNV_CPU_main fuel inT outT lam 0 tol dX dY dZ w = Some (ret, w') ->
  (forall p, mem w' p = mem w p) /\ ret = nth 0 (mem w outT) f0 /\
  exists evs, trace w' = trace w ++ evs ++ [EvStopped 0 fLarge; EvReturn ret].
Proof.
  intros Hw. unfold TNV_CPU_main.
  set (wl := set_ctx w _).
  destruct (TNV_CPU_init fuel inT outT dX dY dZ wl) as [w1|] eqn:E1;
    cbn [bind]; [|discriminate].
  set (w2 := set_ctx w1 _).
  destruct (hw_sched_run fuel TaskStart w2) as [w3|] eqn:E3; cbn [bind iterate];
    [|discriminate].
  destruct (hw_sched_run fuel TaskFinish w3) as [w4|] eqn:E4; cbn [bind];
    [|discriminate].
  intros E; injection E as <- <-.
  destruct (TNV_CPU_init_inv fuel (@any_event F) _ _ _ _ _ _ _
              (fun _ => I) E1) as [M1 [[evs1 [T1 _]] _]].
  assert (H1 : pooled w1 /\ initialized w1).
  { destruct (sched w) eqn:Es.
    - rewrite TNV_CPU_init_reuses in E1 by (cbn; congruence).
      injection E1 as <-. destruct Hw as [Hw|Hw]; [discriminate|exact Hw].
    - split.
      + eapply TNV_CPU_init_pooled; [|exact E1]. exact Es.
      + eapply TNV_CPU_init_initialized; [|exact E1]. exact Es. }
  destruct H1 as [Hp1 Hi1].
  assert (Hp2 : pooled w2) by exact Hp1.
  assert (Hi2 : initialized w2) by exact Hi1.
  pose proof (start_finish_same fuel w2 w3 w4 Hp2 Hi2 E3 E4) as M.
  assert (Hm : forall p, mem w4 p = mem w p).
  { intros p. rewrite M. cbn. apply M1. }
  split; [exact Hm|]. split; [now rewrite Hm|].
  destruct (hw_sched_run_evolves fuel (fun _ => True) (@any_event F)
              TaskStart _ _ (fun _ => I) (fun H => I) (fun H => I) E3)
    as [_ [_ [evs3 [T3 _]]]].
  destruct (hw_sched_run_evolves fuel (fun _ => True) (@any_event F)
              TaskFinish _ _ (fun _ => I) (fun H => I) (fun H => I) E4)
    as [_ [_ [evs4 [T4 _]]]].
  exists (evs1 ++ evs3 ++ evs4). cbn [log trace].
  rewrite T4, T3. cbn [w2 set_ctx trace]. rewrite T1. cbn [wl set_ctx trace].
  now rewrite !app_assoc.
Qed.

(** What a call reports when it returns. *)
Lemma TNV_CPU_main_report (inT outT : ptr) (lam : F) (maxIter : nat)
      (tol : F) (dX dY dZ : nat) (w w' : world F) (ret : F) :
  TNV_CPU_main fuel inT outT lam maxIter tol dX dY dZ w = Some (ret, w') ->
  exists evs iter residual,
    trace w' = trace w ++ evs ++ [EvStopped iter residual; EvReturn ret] /\
    ret = nth 0 (mem w' outT) f0 /\
    iter <= maxIter /\
    (iter < maxIter -> flt residual tol = true) /\
    (iter = maxIter -> 0 < maxIter -> flt residual tol = false) /\
    (maxIter = 0 -> residual = fLarge).
Proof.
  unfold TNV_CPU_main.
  set (wl := set_ctx w _).
  destruct (TNV_CPU_init fuel inT outT dX dY dZ wl) as [w1|] eqn:E1;
    cbn [bind]; [|discriminate].
  set (w2 := set_ctx w1 _).
  destruct (hw_sched_run fuel TaskStart w2) as [w3|] eqn:E3; cbn [bind];
    [|discriminate].
  destruct (iterate _ _ _ _ _ _ _ _ _) as [[[w4 st] it]|] eqn:E4;
    cbn [bind]; [|discriminate].
  destruct (hw_sched_run fuel TaskFinish w4) as [w5|] eqn:E5; cbn [bind];
    [|discriminate].
  intros E; injection E as <- <-.
  destruct (iterate_count fuel _ _ _ _ _ _ _ _ _ _ _ E4) as [C1 [C2 [C3 C4]]].
  destruct (TNV_CPU_init_inv fuel (@any_event F) _ _ _ _ _ _ _
              (fun _ => I) E1) as [_ [[evs1 [T1 _]] _]].
  destruct (hw_sched_run_evolves fuel (fun _ => True) (@any_event F)
              TaskStart _ _ (fun _ => I) (fun H => I) (fun H => I) E3)
    as [_ [_ [evs3 [T3 _]]]].
  destruct (iterate_evolves fuel (fun _ => True) (@any_event F) tol dX dY dZ
              maxIter
              (conj (fun _ => I) (conj I (conj (fun _ _ _ _ _ _ => I) I)))
              0 w3 w4 pdhg0 st it (fun _ _ => I) E4)
    as [[_ [_ [evs4 [T4 _]]]] _].
  destruct (hw_sched_run_evolves fuel (fun _ => True) (@any_event F)
              TaskFinish _ _ (fun _ => I) (fun H => I) (fun H => I) E5)
    as [_ [_ [evs5 [T5 _]]]].
  exists (evs1 ++ evs3 ++ evs4 ++ evs5), it, (p_residual st).
  split.
  { cbn [log trace]. rewrite T5, T4, T3. cbn [w2 set_ctx trace].
    rewrite T1. cbn [wl set_ctx trace]. now rewrite !app_assoc. }
  split; [reflexivity|]. split; [lia|]. split; [intros; apply C2; lia|].
  split; [intros; apply C3; lia|].
  intros ->. rewrite (C4 eq_refl). reflexivity.
Qed.
End WholeCall.

Section Eigen.
Context {HF : TNVHeader R}.
Open Scope R_scope.

Ltac real_arith_ops :=
  unfold f0, f1, f2, f4, lit in *;
  cbn [fofZ fadd fsub fmul fdiv fsqrt fabs real_arith] in *.

(** For a positive-semidefinite matrix the clamps of lines 40-41 are idle
    and the two values are the roots of the characteristic polynomial. *)
Lemma eigenvalues_psd (M1 M2 M3 : R) :
  0 <= M1 -> 0 <= M3 -> M2 * M2 <= M1 * M3 ->
  exists e1 e2,
    eigenvalues M1 M2 M3 = (e1, e2) /\
    e1 + e2 = M1 + M3 /\ e1 * e2 = M1 * M3 - M2 * M2 /\ 0 <= e2 <= e1.
Proof.
  intros H1 H3 HD. unfold eigenvalues. rewrite !MAX_Rmax. real_arith_ops.
  set (T := M1 + M3). set (D := M1 * M3 - M2 * M2).
  set (X := T * T / 4 - D).
  assert (HX : 0 <= X).
  { unfold X, T, D.
    replace ((M1 + M3) * (M1 + M3) / 4 - (M1 * M3 - M2 * M2))
      with ((M1 - M3) / 2 * ((M1 - M3) / 2) + M2 * M2) by field.
    pose proof (Rle_0_sqr ((M1 - M3) / 2)) as S1.
    pose proof (Rle_0_sqr M2) as S2. unfold Rsqr in S1, S2. lra. }
  rewrite (Rmax_left X 0) by lra.
  set (d := sqrt X).
  assert (Hd : 0 <= d) by apply sqrt_pos.
  assert (Hdd : d * d = X) by (apply sqrt_sqrt; exact HX).
  assert (HT : 0 <= T) by (unfold T; lra).
  assert (Hle : d <= T / 2).
  { destruct (Rle_dec d (T / 2)) as [L|L]; [exact L|].
    exfalso. assert (T / 2 < d) by lra.
    assert (T / 2 * (T / 2) < d * d) by nra.
    unfold X, D in Hdd. unfold D in *. nra. }
  rewrite (Rmax_left (T / 2 + d) 0), (Rmax_left (T / 2 - d) 0) by lra.
  exists (T / 2 + d), (T / 2 - d). split; [reflexivity|].
  split; [unfold T; lra|]. split; [|lra].
  replace ((T / 2 + d) * (T / 2 - d)) with (T * T / 4 - d * d) by field.
  rewrite Hdd. unfold X, D. lra.
Qed.

Lemma sqrt_sum_squares (a b : R) :
  0 <= sqrt (a * a + b * b) /\
  sqrt (a * a + b * b) * sqrt (a * a + b * b) = a * a + b * b /\
  Rabs a <= sqrt (a * a + b * b).
Proof.
  assert (H : 0 <= a * a + b * b) by nra.
  split; [apply sqrt_pos|]. split; [now apply sqrt_sqrt|].
  rewrite <- (sqrt_square (Rabs a)) by apply Rabs_pos.
  apply sqrt_le_1_alt.
  assert (Rabs a * Rabs a = a * a).
  { unfold Rabs. destruct (Rcase_abs a); ring. }
  nra.
Qed.

(** Lines 46-66 on a positive-semidefinite matrix with an off-diagonal
    entry above [fTiny]: the two vectors are orthonormal eigenvectors. *)
Lemma eigenvectors_psd (M1 M2 M3 : R) :
  0 <= M1 -> 0 <= M3 -> M2 * M2 <= M1 * M3 ->
  0 <= fTiny -> fTiny < Rabs M2 ->
  exists e1 e2 V1 V2 V3 V4,
    eigenvalues M1 M2 M3 = (e1, e2) /\
    eigenvectors M1 M2 M3 e1 e2 = (V1, V2, V3, V4) /\
    V1 * V1 + V3 * V3 = 1 /\ V2 * V2 + V4 * V4 = 1 /\
    V1 * V2 + V3 * V4 = 0 /\
    (M1 * V1 + M2 * V3 = e1 * V1 /\ M2 * V1 + M3 * V3 = e1 * V3) /\
    (M1 * V2 + M2 * V4 = e2 * V2 /\ M2 * V2 + M3 * V4 = e2 * V4).
Proof.
  intros H1 H3 HD HT HM.
  destruct (eigenvalues_psd M1 M2 M3 H1 H3 HD) as [e1 [e2 [E [Hs [Hp Ho]]]]].
  exists e1, e2. unfold eigenvectors.
  assert (HM0 : M2 <> 0).
  { intros ->. rewrite Rabs_R0 in HM. lra. }
  assert (Hne : fne M2 f0 = true).
  { unfold fne. real_arith_ops. cbn [feq real_arith].
    destruct (Req_dec_T M2 0); [contradiction|reflexivity]. }
  rewrite Hne. real_arith_ops.
  set (v1 := e1 - M3). set (v2 := e2 - M3).
  destruct (sqrt_sum_squares M2 v1) as [P1 [Q1 A1]].
  destruct (sqrt_sum_squares M2 v2) as [P2 [Q2 A2]].
  set (mu1 := sqrt (M2 * M2 + v1 * v1)) in *.
  set (mu2 := sqrt (M2 * M2 + v2 * v2)) in *.
  rewrite (fgt_real_true mu1 fTiny), (fgt_real_true mu2 fTiny) by lra.
  assert (N1 : mu1 <> 0).
  { intros Z. rewrite Z in Q1. nra. }
  assert (N2 : mu2 <> 0).
  { intros Z. rewrite Z in Q2. nra. }
  do 4 eexists. split; [exact E|]. split; [reflexivity|].
  assert (Hv : v1 * v2 + M2 * M2 = 0).
  { unfold v1, v2.
    replace ((e1 - M3) * (e2 - M3) + M2 * M2)
      with (e1 * e2 - M3 * (e1 + e2) + M3 * M3 + M2 * M2) by ring.
    rewrite Hp, Hs. ring. }
  assert (C1 : M1 * v1 + M2 * M2 = e1 * v1).
  { unfold v1. replace M1 with (e1 + e2 - M3) by lra.
    assert (M2 * M2 = (e1 + e2 - M3) * M3 - e1 * e2).
    { replace (e1 + e2 - M3) with M1 by lra. lra. }
    nra. }
  assert (C2 : M1 * v2 + M2 * M2 = e2 * v2).
  { unfold v2. replace M1 with (e1 + e2 - M3) by lra.
    assert (M2 * M2 = (e1 + e2 - M3) * M3 - e1 * e2).
    { replace (e1 + e2 - M3) with M1 by lra. lra. }
    nra. }
  assert (I1 : / mu1 * / mu1 * (M2 * M2 + v1 * v1) = 1).
  { rewrite <- Q1. field. exact N1. }
  assert (I2 : / mu2 * / mu2 * (M2 * M2 + v2 * v2) = 1).
  { rewrite <- Q2. field. exact N2. }
  unfold Rdiv. repeat split.
  - replace (v1 * / mu1 * (v1 * / mu1) + M2 * / mu1 * (M2 * / mu1))
      with (/ mu1 * / mu1 * (M2 * M2 + v1 * v1)) by ring. exact I1.
  - replace (v2 * / mu2 * (v2 * / mu2) + M2 * / mu2 * (M2 * / mu2))
      with (/ mu2 * / mu2 * (M2 * M2 + v2 * v2)) by ring. exact I2.
  - replace (v1 * / mu1 * (v2 * / mu2) + M2 * / mu1 * (M2 * / mu2))
      with (/ mu1 * / mu2 * (v1 * v2 + M2 * M2)) by ring.
    rewrite Hv. ring.
  - replace (M1 * (v1 * / mu1) + M2 * (M2 * / mu1))
      with ((M1 * v1 + M2 * M2) * / mu1) by ring.
    rewrite C1. ring.
  - unfold v1. ring.
  - replace (M1 * (v2 * / mu2) + M2 * (M2 * / mu2))
      with ((M1 * v2 + M2 * M2) * / mu2) by ring.
    rewrite C2. ring.
  - unfold v2. ring.
Qed.
End Eigen.

Section InputKept.
Context {F : Type} {AF : Arith F} {HF : TNVHeader F} {PF : Platform F}.
Variable fuel : nat.

Lemma first_row_Input (e : step_env F) (b : buffers F) :
  buf (first_row e b) Input = buf b Input.
Proof.
  unfold first_row.
  apply (fold_left_ind (fun x => buf x Input = buf b Input)); [|reflexivity].
  intros b1 i _ Hb1.
  apply (fold_left_ind (fun x => buf x Input = buf b Input)); [|exact Hb1].
  intros b2 k _ Hb2. unfold first_row_cell.
  rewrite !buf_wr_other by discriminate. exact Hb2.
Qed.

Lemma pixel_Input (e : step_env F) (j i : nat) (s s' : step_state F) :
  pixel fuel e j i s = Some s' -> buf (s_arr s') Input = buf (s_arr s) Input.
Proof.
  unfold pixel.
  set (g := fold_left _ _ _).
  assert (Hg : buf (g_arr g) Input = buf (s_arr s) Input).
  { unfold g.
    apply (fold_left_ind (fun x => buf (g_arr x) Input = buf (s_arr s) Input));
      [|reflexivity].
    intros x k _ Hx. unfold gather. cbn [g_arr].
    rewrite !buf_wr_other by discriminate. exact Hx. }
  destruct (coefF _ _ _ _ _ _ _ _) as [t|]; cbn [bind]; [|discriminate].
  intros E; injection E as <-. cbn [s_arr].
  apply (fold_left_ind (fun x => buf (fst x) Input = buf (s_arr s) Input));
    [|exact Hg].
  intros x k _ Hx. unfold scatter. cbn [fst].
  unfold dual_update. destruct t as [[t0 t1] t2]. cbn [d_arr].
  rewrite !buf_wr_other by discriminate. exact Hx.
Qed.

Lemma tnv_step_thread_Input (ctx : tnv_context_t F) (t t' : tnv_thread_t F)
      (evs : list (event F)) :
  tnv_step_thread fuel ctx t = Some (t', evs) -> input_copy t' = input_copy t.
Proof.
  unfold tnv_step_thread, input_copy.
  destruct (step_rows _ _ _) as [s|] eqn:E; cbn [bind]; [|discriminate].
  intros H; injection H as <- _. cbn [arrays].
  rewrite <- (first_row_Input (step_env_of ctx t) (arrays t)).
  revert E. unfold step_rows.
  set (b0 := first_row _ _).
  apply (foldM_ind (fun x => buf (s_arr x) Input = buf b0 Input));
    [|reflexivity].
  intros j x x' _ Hx.
  apply (foldM_ind (fun y => buf (s_arr y) Input = buf b0 Input)); [|exact Hx].
  intros i y y' _ Hy E. rewrite (pixel_Input _ _ _ _ _ E). exact Hy.
Qed.

(** No task but [tnv_init] and [tnv_start] writes to the copy of the
    noisy volume. *)
Lemma task_on_Input (t : task) (ctx : tnv_context_t F) (m : ptr -> list F)
      (d : nat) (c c' : tnv_thread_t F) (evs : list (event F)) :
  t <> TaskInit -> t <> TaskStart ->
  task_on fuel t ctx m d c = Some (c', evs) -> input_copy c' = input_copy c.
Proof.
  intros H1 H2. destruct t; cbn [task_on]; try contradiction.
  - apply tnv_step_thread_Input.
  - intros E; injection E as <- _.
    unfold input_copy, tnv_restore_thread, clear_fields.
    cbn [arrays set_arrays].
    rewrite !buf_clear_other by discriminate. reflexivity.
  - intros E; injection E as <- _. reflexivity.
Qed.

Lemma hw_sched_run_Input (t : task) (w w' : world F) :
  t <> TaskInit -> t <> TaskStart -> hw_sched_run fuel t w = Some w' ->
  map input_copy (thr_ctx (tnv_ctx w')) = map input_copy (thr_ctx (tnv_ctx w)).
Proof.
  intros H1 H2. unfold hw_sched_run.
  destruct (sched w) as [n|]; cbn [bind]; [|discriminate].
  apply (foldM_ind (fun s => map input_copy (thr_ctx (tnv_ctx s))
                             = map input_copy (thr_ctx (tnv_ctx w))));
    [|reflexivity].
  intros d s s' _ Hs E.
  destruct (run_task_on fuel _ _ _ _ E)
    as [c [c' [evs [E1 [E2 [E3 _]]]]]].
  rewrite <- Hs, E3. cbn [thr_ctx set_thr_ctx log tnv_ctx].
  rewrite map_upd, (task_on_Input _ _ _ _ _ _ _ H1 H2 E2).
  apply upd_same. now apply map_nth_error.
Qed.

Lemma beside_div_Input (ts ts' : list (tnv_thread_t F)) :
  map beside_div ts' = map beside_div ts ->
  map input_copy ts' = map input_copy ts.
Proof.
  intros H.
  assert (E : forall l : list (tnv_thread_t F),
             map input_copy l
             = map (fun x => hd [] (snd x)) (map beside_div l)).
  { intros l. rewrite map_map. apply map_ext. intros t. reflexivity. }
  now rewrite !E, H.
Qed.

Lemma iteration_Input (dX dY dZ : nat) (w w' : world F) (st st' : pdhg F) :
  iteration fuel dX dY dZ w st = Some (w', st') ->
  map input_copy (thr_ctx (tnv_ctx w')) = map input_copy (thr_ctx (tnv_ctx w)).
Proof.
  unfold iteration, measure.
  destruct (hw_sched_run fuel TaskStep _) as [w1|] eqn:E1; cbn [bind];
    [|discriminate].
  destruct (borders _ _ _ _ _ _) as [r|] eqn:E2; cbn [bind]; [|discriminate].
  destruct (aggregate _ _ _) as [a|]; cbn [bind]; [|discriminate].
  pose proof (hw_sched_run_Input TaskStep _ _ ltac:(discriminate)
                ltac:(discriminate) E1) as H1.
  pose proof (beside_div_Input _ _ (borders_beside _ _ _ _ _ _ _ E2)) as H2.
  cbn [thr_ctx tnv_ctx set_ctx set_steps] in H1.
  unfold adapt. destruct (fgt (balance st a) f1).
  - destruct (p_started st).
    + intros E; injection E as <- _. cbn. congruence.
    + destruct (hw_sched_run fuel TaskRestore _) as [w2|] eqn:E3;
        cbn [bind]; [|discriminate].
      intros E; injection E as <- _.
      rewrite (hw_sched_run_Input TaskRestore _ _ ltac:(discriminate)
                 ltac:(discriminate) E3).
      cbn. congruence.
  - match goal with
    | |- context [if fgt ?x ?y then _ else _] => destruct (fgt x y)
    end;
      [|match goal with
        | |- context [if flt ?x ?y then _ else _] => destruct (flt x y)
        end]; intros E; injection E as <- _; cbn; congruence.
Qed.

Lemma iterate_Input (tol : F) (dX dY dZ : nat) (n : nat) :
  forall (iter : nat) (w : world F) (st : pdhg F) w' st' iter',
    iterate fuel n iter tol dX dY dZ w st = Some (w', st', iter') ->
    map input_copy (thr_ctx (tnv_ctx w'))
    = map input_copy (thr_ctx (tnv_ctx w)).
Proof.
  induction n as [|n IH]; intros iter w st w' st' iter'; cbn [iterate].
  - intros E; injection E as <- _ _. reflexivity.
  - destruct (iteration fuel dX dY dZ w st) as [[w1 st1]|] eqn:E1;
      cbn [bind fst snd]; [|discriminate].
    pose proof (iteration_Input _ _ _ _ _ _ _ E1) as H1.
    destruct (flt (p_residual st1) tol).
    + intros E; injection E as <- _ _. exact H1.
    + intros E. rewrite (IH _ _ _ _ _ _ E). exact H1.
Qed.
End InputKept.

Lemma volume_index_inj (dX dY k r i k' r' i' : nat) :
  i < dX -> r < dY -> i' < dX -> r' < dY ->
  k * dX * dY + r * dX + i = k' * dX * dY + r' * dX + i' ->
  k = k' /\ r = r' /\ i = i'.
Proof.
  intros Hi Hr Hi' Hr' E.
  assert (E1 : dX * (k * dY + r) + i = dX * (k' * dY + r') + i') by lia.
  destruct (Nat.div_mod_unique dX _ _ _ _ Hi Hi' E1) as [E2 E3].
  assert (E4 : dY * k + r = dY * k' + r') by lia.
  destruct (Nat.div_mod_unique dY _ _ _ _ Hr Hr' E4) as [E5 E6].
  auto.
Qed.

Lemma volume_index_bound (dX dY dZ k r i : nat) :
  i < dX -> r < dY -> k < dZ ->
  k * dX * dY + r * dX + i < dX * dY * dZ.
Proof.
  intros Hi Hr Hk.
  assert (H1 : r * dX + i + 1 <= dY * dX) by nia.
  assert (H2 : (k + 1) * (dX * dY) <= dZ * (dX * dY))
    by (apply Nat.mul_le_mono_r; lia).
  nia.
Qed.

Section Writes.
Context {F : Type}.

Lemma apply_writes_app (l : list F) (ws1 ws2 : list (nat * F)) :
  apply_writes l (ws1 ++ ws2) = apply_writes (apply_writes l ws1) ws2.
Proof. unfold apply_writes. apply fold_left_app. Qed.

Lemma apply_writes_length (ws : list (nat * F)) : forall l,
  length (apply_writes l ws) = length l.
Proof.
  induction ws as [|x ws IH]; intros l; cbn; [reflexivity|].
  unfold apply_writes in IH. rewrite IH. apply upd_length.
Qed.

(** A cell holds what it held before or what some store put there. *)
Lemma apply_writes_nth (ws : list (nat * F)) : forall l idx d,
  nth idx (apply_writes l ws) d = nth idx l d \/
  exists v, In (idx, v) ws /\ nth idx (apply_writes l ws) d = v.
Proof.
  induction ws as [|[i0 v0] ws IH]; intros l idx d; cbn; [now left|].
  destruct (IH (upd l i0 v0) idx d) as [H|[v [Hin H]]].
  - unfold apply_writes in H. cbn [fst snd]. rewrite H.
    destruct (Nat.eq_dec i0 idx) as [->|Hne].
    + destruct (Nat.lt_ge_cases idx (length l)) as [L|L].
      * right. exists v0. split; [now left|]. now apply nth_upd_same.
      * left. now rewrite upd_outside.
    + left. now apply nth_upd_other.
  - right. exists v. split; [now right|exact H].
Qed.

(** A store into the list is seen unless a later store overwrites it. *)
Lemma apply_writes_stored (ws : list (nat * F)) : forall l idx v d,
  In (idx, v) ws -> idx < length l ->
  exists v', In (idx, v') ws /\ nth idx (apply_writes l ws) d = v'.
Proof.
  induction ws as [|[i0 v0] ws IH]; intros l idx v d Hin Hl; [destruct Hin|].
  destruct Hin as [E|Hin].
  - injection E as -> ->. cbn.
    destruct (apply_writes_nth ws (upd l idx v) idx d) as [H|[v' [Hin' H]]].
    + exists v. split; [now left|].
      unfold apply_writes in H. cbn [fst snd]. rewrite H.
      now apply nth_upd_same.
    + exists v'. split; [now right|exact H].
  - destruct (IH (upd l i0 v0) idx v d Hin) as [v' [Hin' H]].
    { now rewrite upd_length. }
    exists v'. split; [now right|exact H].
Qed.
End Writes.

Section FinishPhase.
Context {F : Type} {AF : Arith F} {HF : TNVHeader F} {PF : Platform F}.
Variable fuel : nat.

Lemma store_mem_same (w : world F) (p : ptr) (i : nat) (v : F) :
  mem (store w p i v) p = upd (mem w p) i v.
Proof. cbn. now rewrite Nat.eqb_refl. Qed.

(** The stores of one partition. *)
Lemma tnv_finish_writes (d : nat) (w w' : world F) (c : tnv_thread_t F) :
  nth_error (thr_ctx (tnv_ctx w)) d = Some c ->
  tnv_finish d w = Some w' ->
  tnv_ctx w' = tnv_ctx w /\
  mem w' (uT (tnv_ctx w))
  = apply_writes (mem w (uT (tnv_ctx w))) (finish_writes (tnv_ctx w) c).
Proof.
  intros Ec. unfold tnv_finish. rewrite Ec. cbn [bind].
  intros E; injection E as <-.
  unfold finish_writes, apply_writes.
  rewrite fold_left_flat_map.
  set (ctx := tnv_ctx w). set (p := uT ctx).
  set (R := fun (x : world F) (l : list F) =>
              tnv_ctx x = ctx /\ mem x p = l).
  assert (Sim : forall (A : Type) (f : world F -> A -> world F)
                       (g : list F -> A -> list F) (l : list A),
             (forall x m a, R x m -> R (f x a) (g m a)) ->
             forall x m, R x m -> R (fold_left f l x) (fold_left g l m)).
  { intros A f g l Hfg. induction l as [|a l IH]; intros x m Hx; cbn;
      [exact Hx|]. apply IH. now apply Hfg. }
  apply (Sim nat); [|split; reflexivity].
  intros x m k Hx. rewrite fold_left_flat_map.
  apply (Sim nat); [|exact Hx].
  intros x1 m1 j Hx1. rewrite fold_left_map.
  apply (Sim nat); [|exact Hx1].
  intros x2 m2 i [Hc Hm]. split; [exact Hc|].
  cbn [fst snd]. unfold p. rewrite store_mem_same. fold p. rewrite Hm.
  reflexivity.
Qed.

(** The stores of the whole phase, in the order of the workers. *)
Lemma hw_sched_run_finish_writes (n : nat) (w w' : world F) :
  sched w = Some n -> n <= length (thr_ctx (tnv_ctx w)) ->
  hw_sched_run fuel TaskFinish w = Some w' ->
  tnv_ctx w' = tnv_ctx w /\
  mem w' (uT (tnv_ctx w))
  = apply_writes (mem w (uT (tnv_ctx w))) (phase_writes (tnv_ctx w) n).
Proof.
  intros Hs Hn E. unfold hw_sched_run in E. rewrite Hs in E. cbn [bind] in E.
  set (I := fun (k : nat) (s : world F) =>
              tnv_ctx s = tnv_ctx w /\
              mem s (uT (tnv_ctx w))
              = apply_writes (mem w (uT (tnv_ctx w)))
                             (phase_writes (tnv_ctx w) k)).
  change (I (0 + n) w'). revert E. apply (foldM_seq_ind I).
  - split; reflexivity.
  - intros d s s' Hd [Hc Hm]. cbn [run_task]. intros E.
    destruct (nth_error (thr_ctx (tnv_ctx w)) d) as [c|] eqn:Ec.
    2:{ apply nth_error_None in Ec. lia. }
    assert (Ec' : nth_error (thr_ctx (tnv_ctx (log s [EvTask TaskFinish d]))) d
                  = Some c) by (cbn [log tnv_ctx]; now rewrite Hc).
    destruct (tnv_finish_writes d _ s' c Ec' E) as [Hc' Hm'].
    cbn [log tnv_ctx mem] in Hc', Hm'. rewrite Hc in Hc', Hm'.
    split; [exact Hc'|].
    rewrite Hm', Hm. unfold phase_writes.
    replace (1 + d) with (S d) by lia.
    rewrite seq_S, flat_map_app, apply_writes_app. cbn [flat_map Nat.add].
    rewrite Ec, app_nil_r. reflexivity.
Qed.

Lemma in_finish_writes (ctx : tnv_context_t F) (c : tnv_thread_t F)
      (idx : nat) (v : F) :
  In (idx, v) (finish_writes ctx c) <->
  exists j i k, j < stepY c /\ i < dimX ctx /\ k < dimZ ctx /\
                idx = volume_index ctx (offY c) j i k /\
                v = rd (arrays c) u (local_index ctx j i k).
Proof.
  unfold finish_writes. rewrite in_flat_map. split.
  - intros [k [Hk H]]. rewrite in_flat_map in H. destruct H as [j [Hj H]].
    rewrite in_map_iff in H. destruct H as [i [E Hi]].
    apply in_seq in Hk, Hj, Hi. injection E as <- <-.
    exists j, i, k. repeat split; lia.
  - intros [j [i [k [Hj [Hi [Hk [-> ->]]]]]]].
    exists k. split; [apply in_seq; lia|].
    rewrite in_flat_map. exists j. split; [apply in_seq; lia|].
    rewrite in_map_iff. exists i. split; [reflexivity|apply in_seq; lia].
Qed.

Lemma in_phase_writes (ctx : tnv_context_t F) (n idx : nat) (v : F) :
  In (idx, v) (phase_writes ctx n) <->
  exists d c, d < n /\ nth_error (thr_ctx ctx) d = Some c /\
              In (idx, v) (finish_writes ctx c).
Proof.
  unfold phase_writes. rewrite in_flat_map. split.
  - intros [d [Hd H]]. apply in_seq in Hd.
    destruct (nth_error (thr_ctx ctx) d) as [c|] eqn:Ec; [|destruct H].
    exists d, c. split; [lia|]. split; assumption.
  - intros [d [c [Hd [Ec H]]]]. exists d. split; [apply in_seq; lia|].
    now rewrite Ec.
Qed.

(** After the write-back every owned cell of every partition is in its
    place in the estimate volume. *)
Lemma hw_sched_run_finish_stores (n : nat) (w w' : world F) :
  sched w = Some n -> n <= length (thr_ctx (tnv_ctx w)) -> tiled w ->
  dimX (tnv_ctx w) * dimY (tnv_ctx w) * dimZ (tnv_ctx w)
  <= length (mem w (uT (tnv_ctx w))) ->
  hw_sched_run fuel TaskFinish w = Some w' ->
  forall d c, d < n -> nth_error (thr_ctx (tnv_ctx w)) d = Some c ->
  forall j i k, j < stepY c -> i < dimX (tnv_ctx w) -> k < dimZ (tnv_ctx w) ->
    nth (volume_index (tnv_ctx w) (offY c) j i k)
        (mem w' (uT (tnv_ctx w))) f0
    = rd (arrays c) u (local_index (tnv_ctx w) j i k).
Proof.
  intros Hs Hn Ht Hlen E d c Hd Ec j i k Hj Hi Hk.
  destruct (hw_sched_run_finish_writes n w w' Hs Hn E) as [_ Hm].
  rewrite Hm.
  set (idx := volume_index (tnv_ctx w) (offY c) j i k).
  set (v := rd (arrays c) u (local_index (tnv_ctx w) j i k)).
  destruct (Ht d c Ec) as [Hin_c Hlater].
  assert (Hidx : idx < length (mem w (uT (tnv_ctx w)))).
  { eapply Nat.lt_le_trans; [|exact Hlen].
    unfold idx, volume_index. apply volume_index_bound; lia. }
  assert (Hw : In (idx, v) (phase_writes (tnv_ctx w) n)).
  { apply in_phase_writes. exists d, c. repeat split; try assumption.
    apply in_finish_writes. exists j, i, k. repeat split; assumption. }
  destruct (apply_writes_stored _ _ idx v f0 Hw Hidx) as [v' [Hw' ->]].
  apply in_phase_writes in Hw'. destruct Hw' as [d' [c' [Hd' [Ec' Hw']]]].
  apply in_finish_writes in Hw'.
  destruct Hw' as [j' [i' [k' [Hj' [Hi' [Hk' [Eidx ->]]]]]]].
  destruct (Ht d' c' Ec') as [Hin_c' Hlater'].
  unfold idx, volume_index in Eidx.
  destruct (volume_index_inj (dimX (tnv_ctx w)) (dimY (tnv_ctx w)) k (j + offY c) i
              k' (j' + offY c') i') as [-> [Er ->]]; try lia.
  assert (Edd : d = d').
  { destruct (Nat.lt_trichotomy d d') as [L|[L|L]]; [|exact L|].
    - pose proof (Hlater d' c' Ec' L). lia.
    - pose proof (Hlater' d c Ec L). lia. }
  subst d'. rewrite Ec in Ec'. injection Ec' as <-.
  replace j' with j by lia. reflexivity.
Qed.

(** The bands that the first initialization lays out are tiled. *)
Lemma TNV_CPU_init_tiled (inT outT : ptr) (dX dY dZ : nat) (w w' : world F) :
  sched w = None -> TNV_CPU_init fuel inT outT dX dY dZ w = Some w' ->
  tiled w'.
Proof.
  intros Hs E d c Ec.
  destruct (TNV_CPU_init_bands fuel _ _ _ _ _ _ _ Hs E)
    as [Hn [Ht [Hdim _]]].
  injection Hdim as _ Hy _ _.
  pose proof (partition_count_le hw_sched_get_cpu_count dY) as Hle.
  assert (Hb : 1 <= threads (tnv_ctx w') <= dY) by lia.
  destruct (TNV_CPU_init_band fuel _ _ _ _ _ _ _ d c Hs E Ec)
    as [Hdn [Ho [Hst Hc]]].
  destruct (band_in_image _ dY d Hb Hdn) as [B1 [B2 _]].
  cbv zeta in B1, B2. rewrite <- Hst in B1, B2. rewrite <- Ho in B2.
  split.
  - rewrite Hy. destruct (d =? threads (tnv_ctx w') - 1); lia.
  - intros d' c' Ec' Hlt.
    destruct (TNV_CPU_init_band fuel _ _ _ _ _ _ _ d' c' Hs E Ec')
      as [_ [Ho' _]].
    rewrite Ho', Ho, Hst.
    set (q := dY / threads (tnv_ctx w')).
    set (r := dY mod threads (tnv_ctx w')).
    assert ((d + 1) * q <= d' * q) by (apply Nat.mul_le_mono_r; lia).
    destruct (Nat.ltb_spec d r); lia.
Qed.
End FinishPhase.

Section DualBall.
Context {HF : TNVHeader R}.
Open Scope R_scope.

Ltac real_arith_ops :=
  unfold f0, f1, f2, f4, lit in *;
  cbn [fofZ fadd fsub fmul fdiv fsqrt fabs real_arith] in *.

(** What lines 87-88 and 126-127 leave of a singular value. *)
Lemma shrink_gain (sigma s : R) :
  0 < sigma -> 0 <= s -> 0 <= fTiny <= 1 / sigma ->
  let a := soft_factor sigma s in
  0 <= sigma * ((1 - a) * s) <= 1.
Proof.
  intros Hs H0 HT. cbv zeta. unfold soft_factor.
  assert (Hi : 0 < / sigma) by (apply Rinv_0_lt_compat; lra).
  assert (E : sigma * (1 / sigma) = 1) by (field; lra).
  destruct (Rlt_dec fTiny s) as [L|L].
  - assert (Hs0 : s <> 0) by lra.
    destruct (Rle_dec (1 / sigma) s) as [G|G].
    + rewrite Rmax_left by lra.
      replace (sigma * ((1 - (s - 1 / sigma) / s) * s)) with 1; [lra|].
      field. split; lra.
    + rewrite Rmax_right by lra.
      replace (sigma * ((1 - 0 / s) * s)) with (sigma * s) by (field; lra).
      split; [nra|]. nra.
  - rewrite Rmax_right by lra.
    replace (sigma * ((1 - 0) * s)) with (sigma * s) by ring.
    split; [nra|]. nra.
Qed.

Lemma rotated_gram (x y e1 e2 b1 b2 : R) :
  let n := x * x + y * y in
  let M1 := e1 * (x * x) + e2 * (y * y) in
  let M2 := (e1 - e2) * (x * y) in
  let M3 := e1 * (y * y) + e2 * (x * x) in
  let r0 := b1 * (x * x) + b2 * (y * y) in
  let r1 := (b1 - b2) * (x * y) in
  let r2 := b1 * (y * y) + b2 * (x * x) in
  r0 * r0 * M1 + 2 * (r0 * r1) * M2 + r1 * r1 * M3
  = n * n * (b1 * b1 * e1 * (x * x) + b2 * b2 * e2 * (y * y)) /\
  r0 * r1 * M1 + (r0 * r2 + r1 * r1) * M2 + r1 * r2 * M3
  = n * n * ((b1 * b1 * e1 - b2 * b2 * e2) * (x * y)) /\
  r1 * r1 * M1 + 2 * (r1 * r2) * M2 + r2 * r2 * M3
  = n * n * (b1 * b1 * e1 * (y * y) + b2 * b2 * e2 * (x * x)).
Proof. cbv zeta. repeat split; ring. Qed.

(** A matrix c1 P1 + c2 P2 on an orthonormal frame, with 0 <= c1, c2 <= 1. *)
Lemma rotated_within (x y c1 c2 : R) :
  x * x + y * y = 1 -> 0 <= c1 <= 1 -> 0 <= c2 <= 1 ->
  within_unit_ball (c1 * (x * x) + c2 * (y * y),
                    (c1 - c2) * (x * y),
                    c1 * (y * y) + c2 * (x * x)).
Proof.
  intros Hn H1 H2. unfold within_unit_ball.
  assert (Hx : 0 <= x * x) by nra. assert (Hy : 0 <= y * y) by nra.
  assert (P1 : 0 <= c1 * (x * x)) by (apply Rmult_le_pos; lra).
  assert (P2 : 0 <= c2 * (y * y)) by (apply Rmult_le_pos; lra).
  assert (P3 : 0 <= c1 * (y * y)) by (apply Rmult_le_pos; lra).
  assert (P4 : 0 <= c2 * (x * x)) by (apply Rmult_le_pos; lra).
  assert (Q1 : c1 * (x * x) <= x * x) by nra.
  assert (Q2 : c2 * (y * y) <= y * y) by nra.
  assert (Q3 : c1 * (y * y) <= y * y) by nra.
  assert (Q4 : c2 * (x * x) <= x * x) by nra.
  split; [lra|]. split; [lra|]. split.
  - assert (E : (c1 * (x * x) + c2 * (y * y)) * (c1 * (y * y) + c2 * (x * x))
                - (c1 - c2) * (x * y) * ((c1 - c2) * (x * y))
                = c1 * c2 * ((x * x + y * y) * (x * x + y * y))) by ring.
    rewrite Hn in E. assert (0 <= c1 * c2) by (apply Rmult_le_pos; lra). lra.
  - assert (EA : 1 - (c1 * (x * x) + c2 * (y * y))
                 = (1 - c1) * (x * x) + (1 - c2) * (y * y)) by nra.
    assert (EC : 1 - (c1 * (y * y) + c2 * (x * x))
                 = (1 - c1) * (y * y) + (1 - c2) * (x * x)) by nra.
    rewrite EA, EC.
    assert (E : ((1 - c1) * (x * x) + (1 - c2) * (y * y))
                * ((1 - c1) * (y * y) + (1 - c2) * (x * x))
                - (c1 - c2) * (x * y) * ((c1 - c2) * (x * y))
                = (1 - c1) * (1 - c2) * ((x * x + y * y) * (x * x + y * y)))
      by ring.
    rewrite Hn in E.
    assert (0 <= (1 - c1) * (1 - c2)) by (apply Rmult_le_pos; lra). lra.
Qed.

Lemma coefF_L1_real (fuel : nat) (M1 M2 M3 sigma e1 e2 V1 V2 V3 V4 : R)
      (q r : Z) :
  eigenvalues M1 M2 M3 = (e1, e2) ->
  eigenvectors M1 M2 M3 e1 e2 = (V1, V2, V3, V4) ->
  let a1 := soft_factor sigma (sqrt e1) in
  let a2 := soft_factor sigma (sqrt e2) in
  coefF fuel M1 M2 M3 sigma 1 q r =
  Some (a1 * V1 * V1 + a2 * V2 * V2, a1 * V1 * V3 + a2 * V2 * V4,
        a1 * V3 * V3 + a2 * V4 * V4).
Proof.
  intros E Ev. cbv zeta. unfold coefF, singular_values. rewrite E, Ev.
  unfold prox_diag. cbn [Z.eqb Pos.eqb]. rewrite !MAX_Rmax.
  unfold reconstruct, soft_factor, fgt. real_arith_ops. cbn [flt real_arith].
  destruct (Rlt_dec fTiny (sqrt e1)), (Rlt_dec fTiny (sqrt e2)); reflexivity.
Qed.

Lemma square_gain (sigma b s e : R) :
  s * s = e -> 0 <= sigma * (b * s) <= 1 ->
  0 <= sigma * sigma * (b * b * e) <= 1.
Proof.
  intros <- H.
  replace (sigma * sigma * (b * b * (s * s)))
    with ((sigma * (b * s)) * (sigma * (b * s))) by ring.
  nra.
Qed.

(** The shrinkage of the [p = 1] rule leaves a dual value inside the
    unit ball of the spectral norm. *)
Lemma coefF_contracts (fuel : nat) (M1 M2 M3 sigma : R) (q r : Z) :
  0 <= M1 -> 0 <= M3 -> M2 * M2 <= M1 * M3 ->
  0 < sigma -> 0 <= fTiny <= 1 / sigma ->
  M2 = 0 \/ fTiny < Rabs M2 ->
  exists t,
    coefF fuel M1 M2 M3 sigma 1 q r = Some t /\
    within_unit_ball (dual_gram sigma (M1, M2, M3) t).
Proof.
  intros H1 H3 HD Hs HT [->|HM].
  - rewrite (coefF_diag fuel M1 M3 sigma q r H1 H3).
    eexists. split; [reflexivity|].
    pose proof (shrink_gain sigma (sqrt M1) Hs (sqrt_pos M1) HT) as G1.
    pose proof (shrink_gain sigma (sqrt M3) Hs (sqrt_pos M3) HT) as G3.
    cbv zeta in G1, G3.
    apply (square_gain _ _ _ M1 (sqrt_sqrt M1 H1)) in G1.
    apply (square_gain _ _ _ M3 (sqrt_sqrt M3 H3)) in G3.
    set (a1 := soft_factor sigma (sqrt M1)) in *.
    set (a3 := soft_factor sigma (sqrt M3)) in *.
    unfold dual_gram, within_unit_ball.
    replace (sigma * sigma * ((1 - a1) * (1 - a1) * M1 + 2 * ((1 - a1) * - 0) * 0
                              + - 0 * - 0 * M3))
      with (sigma * sigma * ((1 - a1) * (1 - a1) * M1)) by ring.
    replace (sigma * sigma * ((1 - a1) * - 0 * M1
                              + ((1 - a1) * (1 - a3) + - 0 * - 0) * 0
                              + - 0 * (1 - a3) * M3)) with 0 by ring.
    replace (sigma * sigma * (- 0 * - 0 * M1 + 2 * (- 0 * (1 - a3)) * 0
                              + (1 - a3) * (1 - a3) * M3))
      with (sigma * sigma * ((1 - a3) * (1 - a3) * M3)) by ring.
    split; [exact G1|]. split; [exact G3|]. split; nra.
  - destruct (eigenvectors_psd M1 M2 M3 H1 H3 HD (proj1 HT) HM)
      as [e1 [e2 [V1 [V2 [V3 [V4 [E [Ev [N1 [N2 [O [[A1 A2] [B1 B2]]]]]]]]]]]]].
    destruct (eigenvalues_psd M1 M2 M3 H1 H3 HD)
      as [e1' [e2' [E' [Htr [Hdet Hord]]]]].
    rewrite E in E'. injection E' as <- <-.
    rewrite (coefF_L1_real fuel M1 M2 M3 sigma e1 e2 V1 V2 V3 V4 q r E Ev).
    eexists. split; [reflexivity|].
    assert (He1 : 0 <= e1) by lra. assert (He2 : 0 <= e2) by lra.
    pose proof (shrink_gain sigma (sqrt e1) Hs (sqrt_pos e1) HT) as G1.
    pose proof (shrink_gain sigma (sqrt e2) Hs (sqrt_pos e2) HT) as G2.
    cbv zeta in G1, G2.
    apply (square_gain _ _ _ e1 (sqrt_sqrt e1 He1)) in G1.
    apply (square_gain _ _ _ e2 (sqrt_sqrt e2 He2)) in G2.
    set (a1 := soft_factor sigma (sqrt e1)) in *.
    set (a2 := soft_factor sigma (sqrt e2)) in *.
    set (D := V1 * V4 - V2 * V3).
    assert (HD2 : D * D = 1).
    { replace (D * D)
        with ((V1 * V1 + V3 * V3) * (V2 * V2 + V4 * V4)
              - (V1 * V2 + V3 * V4) * (V1 * V2 + V3 * V4))
        by (unfold D; ring).
      rewrite N1, N2, O. ring. }
    assert (HV4 : V4 = D * V1).
    { replace (D * V1)
        with ((V1 * V1 + V3 * V3) * V4 - V3 * (V1 * V2 + V3 * V4))
        by (unfold D; ring).
      rewrite N1, O. ring. }
    assert (HV2 : V2 = - (D * V3)).
    { replace (- (D * V3))
        with ((V1 * V1 + V3 * V3) * V2 - V1 * (V1 * V2 + V3 * V4))
        by (unfold D; ring).
      rewrite N1, O. ring. }
    assert (S22 : V2 * V2 = V3 * V3).
    { rewrite HV2. replace (- (D * V3) * - (D * V3)) with (D * D * (V3 * V3))
        by ring. rewrite HD2. ring. }
    assert (S44 : V4 * V4 = V1 * V1).
    { rewrite HV4. replace (D * V1 * (D * V1)) with (D * D * (V1 * V1))
        by ring. rewrite HD2. ring. }
    assert (S24 : V2 * V4 = - (V1 * V3)).
    { rewrite HV2, HV4.
      replace (- (D * V3) * (D * V1)) with (- (D * D * (V1 * V3))) by ring.
      rewrite HD2. ring. }
    (* the matrix in the frame of its eigenvectors *)
    assert (C1 : M1 * V3 - M2 * V1 = e2 * V3).
    { assert (X : D * (M1 * V2 + M2 * V4) = D * (e2 * V2)) by now rewrite B1.
      rewrite HV2, HV4 in X.
      replace (D * (M1 * - (D * V3) + M2 * (D * V1)))
        with (- (D * D * (M1 * V3 - M2 * V1))) in X by ring.
      replace (D * (e2 * - (D * V3))) with (- (D * D * (e2 * V3))) in X by ring.
      rewrite HD2 in X. lra. }
    assert (C2 : M3 * V1 - M2 * V3 = e2 * V1).
    { assert (X : D * (M2 * V2 + M3 * V4) = D * (e2 * V4)) by now rewrite B2.
      rewrite HV2, HV4 in X.
      replace (D * (M2 * - (D * V3) + M3 * (D * V1)))
        with (D * D * (M3 * V1 - M2 * V3)) in X by ring.
      replace (D * (e2 * (D * V1))) with (D * D * (e2 * V1)) in X by ring.
      rewrite HD2 in X. lra. }
    assert (EM1 : M1 = e1 * (V1 * V1) + e2 * (V3 * V3)).
    { replace M1 with (M1 * (V1 * V1 + V3 * V3)) at 1 by (rewrite N1; ring).
      replace (M1 * (V1 * V1 + V3 * V3))
        with (V1 * (M1 * V1 + M2 * V3) + V3 * (M1 * V3 - M2 * V1)) by ring.
      rewrite A1, C1. ring. }
    assert (EM3 : M3 = e1 * (V3 * V3) + e2 * (V1 * V1)).
    { replace M3 with (M3 * (V1 * V1 + V3 * V3)) at 1 by (rewrite N1; ring).
      replace (M3 * (V1 * V1 + V3 * V3))
        with (V3 * (M2 * V1 + M3 * V3) + V1 * (M3 * V1 - M2 * V3)) by ring.
      rewrite A2, C2. ring. }
    assert (EM2 : M2 = (e1 - e2) * (V1 * V3)).
    { replace M2 with (M2 * (V1 * V1 + V3 * V3)) at 1 by (rewrite N1; ring).
      replace (M2 * (V1 * V1 + V3 * V3))
        with (V1 * (M2 * V1 + M3 * V3) - V1 * M3 * V3
              + V3 * (M1 * V1 + M2 * V3) - V3 * M1 * V1) by ring.
      rewrite A1, A2. replace e2 with (M1 + M3 - e1) by lra. ring. }
    set (x := V1) in *. set (y := V3) in *.
    set (b1 := 1 - a1) in *. set (b2 := 1 - a2) in *.
    unfold dual_gram.
    assert (T0 : 1 - (a1 * x * x + a2 * V2 * V2)
                 = b1 * (x * x) + b2 * (y * y)).
    { replace (a2 * V2 * V2) with (a2 * (V2 * V2)) by ring. rewrite S22.
      unfold b1, b2. nra. }
    assert (T1 : - (a1 * x * y + a2 * V2 * V4) = (b1 - b2) * (x * y)).
    { replace (a2 * V2 * V4) with (a2 * (V2 * V4)) by ring. rewrite S24.
      unfold b1, b2. ring. }
    assert (T2 : 1 - (a1 * y * y + a2 * V4 * V4)
                 = b1 * (y * y) + b2 * (x * x)).
    { replace (a2 * V4 * V4) with (a2 * (V4 * V4)) by ring. rewrite S44.
      unfold b1, b2. nra. }
    rewrite T0, T1, T2. rewrite EM1, EM2, EM3.
    destruct (rotated_gram x y e1 e2 b1 b2) as [R0 [R1 R2]].
    cbv zeta in R0, R1, R2. rewrite R0, R1, R2. rewrite N1.
    set (c1 := sigma * sigma * (b1 * b1 * e1)) in *.
    set (c2 := sigma * sigma * (b2 * b2 * e2)) in *.
    replace (sigma * sigma
             * (1 * 1 * (b1 * b1 * e1 * (x * x) + b2 * b2 * e2 * (y * y))))
      with (c1 * (x * x) + c2 * (y * y)) by (unfold c1, c2; ring).
    replace (sigma * sigma
             * (1 * 1 * ((b1 * b1 * e1 - b2 * b2 * e2) * (x * y))))
      with ((c1 - c2) * (x * y)) by (unfold c1, c2; ring).
    replace (sigma * sigma
             * (1 * 1 * (b1 * b1 * e1 * (y * y) + b2 * b2 * e2 * (x * x))))
      with (c1 * (y * y) + c2 * (x * x)) by (unfold c1, c2; ring).
    apply rotated_within; assumption.
Qed.

(** *** The channels of a pixel *)

Lemma gram_real_from (d : R) (cs : list (R * R * R * R)) :
  forall m1 m2 m3,
    fold_left (fun M c =>
                 let '(M1, M2, M3) := M in
                 let '(vx, vy) := dual_arg d c in
                 (fadd M1 (fmul vx vx), fadd M2 (fmul vx vy),
                  fadd M3 (fmul vy vy)))
              cs (m1, m2, m3)
    = (m1 + fst (fst (gram_of (map (dual_arg d) cs))),
       m2 + snd (fst (gram_of (map (dual_arg d) cs))),
       m3 + snd (gram_of (map (dual_arg d) cs))).
Proof.
  induction cs as [|c cs IH]; intros m1 m2 m3; cbn [fold_left map].
  - unfold gram_of. cbn. apply (f_equal2 pair); [apply (f_equal2 pair)|]. all: ring.
  - destruct (dual_arg d c) as [vx vy] eqn:Ec. rewrite IH.
    unfold gram_of. cbn [map sum_R fold_right fst snd]. real_arith_ops.
    unfold sum_R.
    (apply (f_equal2 pair); [apply (f_equal2 pair)|]; ring).
Qed.

Lemma gram_real (d : R) (cs : list (R * R * R * R)) :
  gram d cs = gram_of (map (dual_arg d) cs).
Proof.
  unfold gram. rewrite gram_real_from. real_arith_ops.
  destruct (gram_of (map (dual_arg d) cs)) as [[a b] c]. cbn [fst snd].
  (apply (f_equal2 pair); [apply (f_equal2 pair)|]; ring).
Qed.

(** A Gram matrix is positive semidefinite (Cauchy-Schwarz). *)
Lemma gram_of_psd (l : list (R * R)) :
  0 <= fst (fst (gram_of l)) /\ 0 <= snd (gram_of l) /\
  snd (fst (gram_of l)) * snd (fst (gram_of l))
  <= fst (fst (gram_of l)) * snd (gram_of l).
Proof.
  induction l as [|[x y] l IH]; unfold gram_of, sum_R in *;
    cbn [map fold_right fst snd] in *.
  - repeat split; lra.
  - destruct IH as [Ha [Hc Hb]].
    set (a := fold_right Rplus 0 (map (fun p => fst p * fst p) l)) in *.
    set (b := fold_right Rplus 0 (map (fun p => fst p * snd p) l)) in *.
    set (c := fold_right Rplus 0 (map (fun p => snd p * snd p) l)) in *.
    assert (Hx : 0 <= x * x) by nra. assert (Hy : 0 <= y * y) by nra.
    split; [lra|]. split; [lra|].
    assert (Q : 0 <= a * (y * y) + c * (x * x)).
    { assert (0 <= a * (y * y)) by (apply Rmult_le_pos; assumption).
      assert (0 <= c * (x * x)) by (apply Rmult_le_pos; assumption). lra. }
    assert (K : 2 * (b * (x * y)) <= a * (y * y) + c * (x * x)).
    { destruct (Rle_dec (2 * (b * (x * y))) (a * (y * y) + c * (x * x)))
        as [L|L]; [exact L|]. exfalso.
      assert (L' : a * (y * y) + c * (x * x) < 2 * (b * (x * y))) by lra.
      assert (G : (a * (y * y) + c * (x * x)) * (a * (y * y) + c * (x * x))
                  < (2 * (b * (x * y))) * (2 * (b * (x * y)))).
      { apply Rmult_le_0_lt_compat; assumption. }
      assert (J : b * b * (x * x * (y * y)) <= a * c * (x * x * (y * y))).
      { apply Rmult_le_compat_r; [|exact Hb]. apply Rmult_le_pos; assumption. }
      pose proof (Rle_0_sqr (a * (y * y) - c * (x * x))) as I.
      unfold Rsqr in I.
      assert (E1 : (a * (y * y) + c * (x * x)) * (a * (y * y) + c * (x * x))
                   = (a * (y * y) - c * (x * x)) * (a * (y * y) - c * (x * x))
                     + 4 * (a * c * (x * x * (y * y)))) by ring.
      assert (E2 : (2 * (b * (x * y))) * (2 * (b * (x * y)))
                   = 4 * (b * b * (x * x * (y * y)))) by ring.
      lra. }
    replace ((x * y + b) * (x * y + b))
      with (x * x * (y * y) + 2 * (b * (x * y)) + b * b) by ring.
    replace ((x * x + a) * (y * y + c))
      with (x * x * (y * y) + (a * (y * y) + c * (x * x)) + a * c) by ring.
    lra.
Qed.

Lemma dual_step_real (sigma : R) (t0 t1 t2 : R) (c : R * R * R * R) :
  0 < sigma ->
  dual_step sigma (fdiv f1 sigma) (t0, t1, t2) c
  = (sigma * (fst (dual_arg (fdiv f1 sigma) c) * (1 - t0)
              + snd (dual_arg (fdiv f1 sigma) c) * (- t1)),
     sigma * (fst (dual_arg (fdiv f1 sigma) c) * (- t1)
              + snd (dual_arg (fdiv f1 sigma) c) * (1 - t2))).
Proof.
  intros Hs. destruct c as [[[bx by_] qx_] qy_].
  unfold dual_step, dual_arg. cbn [fst snd]. real_arith_ops.
  apply (f_equal2 pair); field; lra.
Qed.

Lemma gram_of_lin (sigma r0 r1 r2 : R) (l : list (R * R)) :
  let f := fun p : R * R => (sigma * (fst p * r0 + snd p * r1),
                             sigma * (fst p * r1 + snd p * r2)) in
  let a := fst (fst (gram_of l)) in
  let b := snd (fst (gram_of l)) in
  let c := snd (gram_of l) in
  gram_of (map f l)
  = (sigma * sigma * (r0 * r0 * a + 2 * (r0 * r1) * b + r1 * r1 * c),
     sigma * sigma * (r0 * r1 * a + (r0 * r2 + r1 * r1) * b + r1 * r2 * c),
     sigma * sigma * (r1 * r1 * a + 2 * (r1 * r2) * b + r2 * r2 * c)).
Proof.
  cbv zeta. induction l as [|[x y] l IH].
  - unfold gram_of, sum_R. cbn [map fold_right fst snd].
    apply (f_equal2 pair); [apply (f_equal2 pair)|]; ring.
  - unfold gram_of, sum_R in *. cbn [map fold_right fst snd] in *.
    set (A := fold_right Rplus 0 (map (fun p => fst p * fst p) l)) in *.
    set (B := fold_right Rplus 0 (map (fun p => fst p * snd p) l)) in *.
    set (C := fold_right Rplus 0 (map (fun p => snd p * snd p) l)) in *.
    injection IH as I1 I2 I3. rewrite I1, I2, I3.
    apply (f_equal2 pair); [apply (f_equal2 pair)|]; ring.
Qed.

Lemma gram_of_dual (sigma : R) (t : R * R * R) (cs : list (R * R * R * R)) :
  0 < sigma ->
  gram_of (map (dual_step sigma (fdiv f1 sigma) t) cs)
  = dual_gram sigma (gram_of (map (dual_arg (fdiv f1 sigma)) cs)) t.
Proof.
  intros Hs. destruct t as [[t0 t1] t2].
  rewrite (map_ext _ _ (fun c => dual_step_real sigma t0 t1 t2 c Hs)).
  rewrite <- (map_map (dual_arg (fdiv f1 sigma))
                      (fun p : R * R =>
                         (sigma * (fst p * (1 - t0) + snd p * - t1),
                          sigma * (fst p * - t1 + snd p * (1 - t2))))).
  rewrite (gram_of_lin sigma (1 - t0) (- t1) (1 - t2)).
  unfold dual_gram.
  destruct (gram_of (map (dual_arg (fdiv f1 sigma)) cs)) as [[a b] c].
  reflexivity.
Qed.

(** The new dual values of a pixel lie in the unit ball. *)
Lemma dual_step_within (fuel : nat) (sigma : R) (q r : Z)
      (cs : list (R * R * R * R)) :
  0 < sigma -> 0 <= fTiny <= 1 / sigma ->
  let M := gram (fdiv f1 sigma) cs in
  snd (fst M) = 0 \/ fTiny < Rabs (snd (fst M)) ->
  exists t,
    coefF fuel (fst (fst M)) (snd (fst M)) (snd M) sigma 1 q r = Some t /\
    within_unit_ball (gram_of (map (dual_step sigma (fdiv f1 sigma) t) cs)).
Proof.
  intros Hs HT M HM.
  pose proof (gram_of_psd (map (dual_arg (fdiv f1 sigma)) cs)) as [Pa [Pc Pb]].
  unfold M in *. rewrite gram_real in *.
  destruct (gram_of (map (dual_arg (fdiv f1 sigma)) cs)) as [[M1 M2] M3] eqn:EM.
  cbn [fst snd] in *.
  destruct (coefF_contracts fuel M1 M2 M3 sigma q r Pa Pc Pb Hs HT HM)
    as [t [E W]].
  exists t. split; [exact E|].
  rewrite (gram_of_dual sigma t cs Hs), EM. exact W.
Qed.
End DualBall.

Section PixelRefines.
Context {F : Type} {AF : Arith F} {HF : TNVHeader F} {PF : Platform F}.
Variable fuel : nat.

Lemma gram_gram_step (divsigma : F) (cs : list (F * F * F * F)) :
  gram divsigma cs = fold_left (gram_step divsigma) cs (f0, f0, f0).
Proof. reflexivity. Qed.

Lemma gram_snoc (divsigma : F) (cs : list (F * F * F * F))
      (c : F * F * F * F) :
  gram divsigma (cs ++ [c]) = gram_step divsigma (gram divsigma cs) c.
Proof. rewrite !gram_gram_step, fold_left_app. reflexivity. Qed.

(** Channel [k] of the first loop: it keeps [qx] and [qy], stores the
    channel's [ubarx] and [ubary] in the scratch arrays and adds the
    channel to the sums. *)
Lemma gather_channel (e : step_env F) (j i : nat) (g : gathered F) (k : nat) :
  k < length (ubarx (g_scr g)) -> k < length (ubary (g_scr g)) ->
  let g' := gather e j i g k in
  buf (g_arr g') qx = buf (g_arr g) qx /\
  buf (g_arr g') qy = buf (g_arr g) qy /\
  length (ubarx (g_scr g')) = length (ubarx (g_scr g)) /\
  length (ubary (g_scr g')) = length (ubary (g_scr g)) /\
  (forall k', k' <> k ->
     nth k' (ubarx (g_scr g')) f0 = nth k' (ubarx (g_scr g)) f0 /\
     nth k' (ubary (g_scr g')) f0 = nth k' (ubary (g_scr g)) f0) /\
  (g_M1 g', g_M2 g', g_M3 g')
  = gram_step (e_divsigma e) (g_M1 g, g_M2 g, g_M3 g)
              (channel e j i (g_scr g') (g_arr g) k).
Proof.
  intros Hx Hy. cbv zeta. unfold gather.
  cbn [g_arr g_scr g_M1 g_M2 g_M3 ubarx ubary].
  rewrite !buf_wr_other by discriminate.
  rewrite !upd_length.
  split; [reflexivity|]. split; [reflexivity|].
  split; [reflexivity|]. split; [reflexivity|]. split.
  - intros k' Hk. rewrite !nth_upd_other by congruence. split; reflexivity.
  - unfold channel, gram_step, dual_arg, pixel_base.
    cbn [ubarx ubary]. rewrite !nth_upd_same by assumption.
    rewrite !(rd_wr_other _ _ qx), !(rd_wr_other _ _ qy)
      by (left; discriminate).
    reflexivity.
Qed.

(** Channel [k] of the second loop: the new dual value of the channel is
    that of [dual_step]; the other cells of [qx] and [qy] are kept. *)
Lemma dual_update_channel (e : step_env F) (j i : nat) (t : F * F * F)
      (sc : scratch F) (b : buffers F) (k : nat) :
  pixel_base e j i + k < length (buf b qx) ->
  pixel_base e j i + k < length (buf b qy) ->
  let b' := d_arr (dual_update e j i t sc b k) in
  (rd b' qx (pixel_base e j i + k), rd b' qy (pixel_base e j i + k))
  = dual_step (e_sigma e) (e_divsigma e) t (channel e j i sc b k) /\
  (forall idx, idx <> pixel_base e j i + k ->
     rd b' qx idx = rd b qx idx /\ rd b' qy idx = rd b qy idx) /\
  same_lengths b b'.
Proof.
  intros Hx Hy. cbv zeta. destruct t as [[t0 t1] t2].
  unfold dual_update, channel, dual_step. fold (pixel_base e j i).
  cbn [d_arr]. split; [|split].
  - apply (f_equal2 pair).
    + rewrite !(rd_wr_other _ _ qx) by (left; discriminate).
      rewrite rd_wr_same by assumption. reflexivity.
    + rewrite !(rd_wr_other _ _ qy) by (left; discriminate).
      rewrite rd_wr_same by (rewrite length_buf_wr; assumption).
      rewrite (rd_wr_other _ qx qy) by (left; discriminate). reflexivity.
  - intros idx Hidx. split.
    + rewrite !(rd_wr_other _ _ qx) by (left; discriminate).
      apply rd_wr_other. right. congruence.
    + rewrite !(rd_wr_other _ _ qy) by (left; discriminate).
      rewrite rd_wr_other by (right; congruence).
      apply rd_wr_other. left. discriminate.
  - repeat apply same_lengths_wr. apply same_lengths_refl.
Qed.
Lemma channel_ext (e : step_env F) (j i : nat) (sc sc' : scratch F)
      (b b' : buffers F) (k : nat) :
  nth k (ubarx sc') f0 = nth k (ubarx sc) f0 ->
  nth k (ubary sc') f0 = nth k (ubary sc) f0 ->
  rd b' qx (pixel_base e j i + k) = rd b qx (pixel_base e j i + k) ->
  rd b' qy (pixel_base e j i + k) = rd b qy (pixel_base e j i + k) ->
  channel e j i sc' b' k = channel e j i sc b k.
Proof. intros H1 H2 H3 H4. unfold channel. now rewrite H1, H2, H3, H4. Qed.

(** The first channel loop of a pixel (lines 378-397) keeps [qx] and [qy]
    and leaves in [M1], [M2], [M3] the sums of lines 393-395 over the
    channels. *)
Lemma gather_channels (e : step_env F) (j i : nat) (b : buffers F)
      (sc : scratch F) (n : nat) :
  n <= length (ubarx sc) -> n <= length (ubary sc) ->
  let g := fold_left (gather e j i) (seq 0 n) (mkGathered b sc f0 f0 f0) in
  buf (g_arr g) qx = buf b qx /\
  buf (g_arr g) qy = buf b qy /\
  (g_M1 g, g_M2 g, g_M3 g)
  = gram (e_divsigma e) (map (channel e j i (g_scr g) b) (seq 0 n)).
Proof.
  intros Hx Hy. cbv zeta.
  pose (I := fun (K : nat) (g : gathered F) =>
    buf (g_arr g) qx = buf b qx /\
    buf (g_arr g) qy = buf b qy /\
    length (ubarx (g_scr g)) = length (ubarx sc) /\
    length (ubary (g_scr g)) = length (ubary sc) /\
    (g_M1 g, g_M2 g, g_M3 g)
    = gram (e_divsigma e) (map (channel e j i (g_scr g) b) (seq 0 K))).
  assert (H : I (0 + n) (fold_left (gather e j i) (seq 0 n)
                                   (mkGathered b sc f0 f0 f0))).
  { apply fold_left_seq_ind.
    - unfold I. cbn. repeat split; reflexivity.
    - intros K g HK (Iqx & Iqy & Ilx & Ily & IM).
      destruct (gather_channel e j i g K) as (Gqx & Gqy & Glx & Gly & Gk & GM);
        [lia | lia |].
      unfold I. rewrite Gqx, Gqy, Glx, Gly.
      split; [assumption|]. split; [assumption|].
      split; [assumption|]. split; [assumption|].
      change (1 + K) with (S K). rewrite seq_S, map_app. cbn [map Nat.add].
      rewrite gram_snoc, GM, IM. f_equal.
      + f_equal. apply map_ext_in. intros k' Hk'. apply in_seq in Hk'.
        destruct (Gk k') as [E1 E2]; [lia|].
        symmetry. apply channel_ext; [exact E1 | exact E2 | reflexivity ..].
      + apply channel_ext; try reflexivity; unfold rd; congruence. }
  destruct H as (Iqx & Iqy & _ & _ & IM). cbn [Nat.add] in IM. auto.
Qed.

(** The second channel loop of a pixel (lines 402-431) replaces the dual
    value of every channel of the pixel by that of [dual_step] and keeps
    the dual values of the other pixels. *)
Lemma scatter_channels (e : step_env F) (j i : nat) (t : F * F * F)
      (sc : scratch F) (b : buffers F) (a : stats F) (n : nat) :
  pixel_base e j i + n <= length (buf b qx) ->
  pixel_base e j i + n <= length (buf b qy) ->
  let r := fold_left (scatter e j i t sc) (seq 0 n) (b, a) in
  same_lengths b (fst r) /\
  (forall k, k < n ->
     (rd (fst r) qx (pixel_base e j i + k),
      rd (fst r) qy (pixel_base e j i + k))
     = dual_step (e_sigma e) (e_divsigma e) t (channel e j i sc b k)) /\
  (forall idx, idx < pixel_base e j i \/ pixel_base e j i + n <= idx ->
     rd (fst r) qx idx = rd b qx idx /\ rd (fst r) qy idx = rd b qy idx).
Proof.
  intros Hx Hy. cbv zeta.
  pose (I := fun (K : nat) (r : buffers F * stats F) =>
    same_lengths b (fst r) /\
    (forall k, k < K ->
       (rd (fst r) qx (pixel_base e j i + k),
        rd (fst r) qy (pixel_base e j i + k))
       = dual_step (e_sigma e) (e_divsigma e) t (channel e j i sc b k)) /\
    (forall idx, idx < pixel_base e j i \/ pixel_base e j i + K <= idx ->
       rd (fst r) qx idx = rd b qx idx /\ rd (fst r) qy idx = rd b qy idx)).
  assert (H : I (0 + n) (fold_left (scatter e j i t sc) (seq 0 n) (b, a))).
  { apply fold_left_seq_ind.
    - unfold I. cbn [fst]. split; [apply same_lengths_refl|].
      split; [intros k Hk; lia|]. intros idx _. split; reflexivity.
    - intros K r HK (Il & Ik & Io).
      destruct (dual_update_channel e j i t sc (fst r) K)
        as (Dk & Do & Dl).
      { rewrite (Il qx). lia. }
      { rewrite (Il qy). lia. }
      unfold I, scatter. cbn [fst]. split; [|split].
      + eapply same_lengths_trans; eassumption.
      + intros k Hk. destruct (Nat.eq_dec k K) as [->|Hne].
        * rewrite Dk. f_equal.
          destruct (Io (pixel_base e j i + K)) as [E1 E2]; [lia|].
          apply channel_ext; try reflexivity; assumption.
        * destruct (Do (pixel_base e j i + k)) as [E1 E2]; [lia|].
          rewrite E1, E2. apply Ik. lia.
      + intros idx Hidx.
        destruct (Do idx) as [E1 E2]; [lia|]. rewrite E1, E2.
        apply Io. lia. }
  destruct H as (Il & Ik & Io). cbn [Nat.add] in Ik, Io. auto.
Qed.

(** Pixel [(j, i)] (lines 371-433): the matrix it hands to [coefF] is the
    one of [gram] over the channels of the pixel, and the dual values it
    leaves in the channels are those of [dual_step] with the matrix that
    [coefF] returned; the dual values of the other pixels are kept. *)
Lemma pixel_channels (e : step_env F) (j i : nat) (s s' : step_state F) :
  e_dimZ e <= length (ubarx (s_scr s)) ->
  e_dimZ e <= length (ubary (s_scr s)) ->
  pixel_base e j i + e_dimZ e <= length (buf (s_arr s) qx) ->
  pixel_base e j i + e_dimZ e <= length (buf (s_arr s) qy) ->
  pixel fuel e j i s = Some s' ->
  exists cs t,
    cs = map (channel e j i (s_scr s') (s_arr s)) (seq 0 (e_dimZ e)) /\
    coefF fuel (fst (fst (gram (e_divsigma e) cs)))
          (snd (fst (gram (e_divsigma e) cs)))
          (snd (gram (e_divsigma e) cs))
          (e_sigma e) (e_p e) (e_q e) (e_r e) = Some t /\
    map (fun k => (rd (s_arr s') qx (pixel_base e j i + k),
                   rd (s_arr s') qy (pixel_base e j i + k)))
        (seq 0 (e_dimZ e))
    = map (dual_step (e_sigma e) (e_divsigma e) t) cs /\
    (forall idx,
       idx < pixel_base e j i \/ pixel_base e j i + e_dimZ e <= idx ->
       rd (s_arr s') qx idx = rd (s_arr s) qx idx /\
       rd (s_arr s') qy idx = rd (s_arr s) qy idx).
Proof.
  intros Hx Hy Hqx Hqy E. unfold pixel in E.
  destruct (gather_channels e j i (s_arr s) (s_scr s) (e_dimZ e) Hx Hy)
    as (Gqx & Gqy & GM).
  cbv zeta in Gqx, Gqy, GM.
  set (g := fold_left (gather e j i) (seq 0 (e_dimZ e))
                      (mkGathered (s_arr s) (s_scr s) f0 f0 f0)) in *.
  destruct (coefF fuel (g_M1 g) (g_M2 g) (g_M3 g) (e_sigma e)
                  (e_p e) (e_q e) (e_r e)) as [t|] eqn:Et;
    [|discriminate].
  cbn [bind] in E. injection E as <-. cbn [s_arr s_scr].
  destruct (scatter_channels e j i t (g_scr g) (g_arr g) (s_acc s)
                             (e_dimZ e)) as (Sl & Sk & So).
  { rewrite Gqx. exact Hqx. }
  { rewrite Gqy. exact Hqy. }
  cbv zeta in Sl, Sk, So.
  exists (map (channel e j i (g_scr g) (s_arr s)) (seq 0 (e_dimZ e))), t.
  split; [reflexivity|]. rewrite <- GM. cbn [fst snd].
  split; [exact Et|]. split.
  - rewrite map_map. apply map_ext_in. intros k Hk. apply in_seq in Hk.
    rewrite Sk by lia. f_equal.
    apply channel_ext; try reflexivity; unfold rd; congruence.
  - intros idx Hidx. destruct (So idx Hidx) as [E1 E2].
    rewrite E1, E2. unfold rd. rewrite Gqx, Gqy. split; reflexivity.
Qed.
End PixelRefines.

(** ** The further properties *)

Lemma singular_values_diag (M1 M3 : R) :
  (0 <= M1)%R -> (0 <= M3)%R ->
  singular_values M1 0%R M3 = (sqrt (Rmax M1 M3), sqrt (Rmin M1 M3)).
Proof.
  intros H1 H3. unfold singular_values.
  now rewrite (eigenvalues_diag M1 M3 H1 H3).
Qed.

Lemma real_init_pooled :
  exists w, TNV_CPU_init (PF:=real_platform 2) (HF:=toolkit_header)
                         0 1 2 2 4 1 (boot real_memory) = Some w /\
            pooled w.
Proof.
  destruct (TNV_CPU_init_first (PF:=real_platform 2) (HF:=toolkit_header)
              0 1 2 2 4 1 (boot real_memory)) as [w [E [Hp _]]].
  - reflexivity.
  - vm_compute. discriminate.
  - exists w. split; assumption.
Qed.

(** X1. The row bands that the first initialization lays out tile the
    image: there are between 1 and dimY of them; band d starts at row
    d q + min(d, r) and owns q rows, one more if d < r, where q and r are
    quotient and remainder of dimY by the number of bands; every band owns
    at least one row; every band but the last has one halo row, which is
    still a row of the image; each band starts where the one before it
    ends, the first at row 0, and the last ends at row dimY. *)
Theorem X1_row_bands_tile_image
        {F : Type} {AF : Arith F} {HF : TNVHeader F} {PF : Platform F}
        (fuel : nat) (inT outT : ptr) (dX dY dZ : nat) (w w' : world F) :
  sched w = None -> TNV_CPU_init fuel inT outT dX dY dZ w = Some w' ->
  let n := threads (tnv_ctx w') in
  let ts := thr_ctx (tnv_ctx w') in
  1 <= n <= dY /\ length ts = n /\
  (forall d t, nth_error ts d = Some t ->
     offY t = d * (dY / n) + Nat.min d (dY mod n) /\
     stepY t = dY / n + (if d <? dY mod n then 1 else 0) /\
     1 <= stepY t /\
     copY t = (if d =? n - 1 then stepY t else stepY t + 1) /\
     offY t + copY t <= dY) /\
  (forall d t t', nth_error ts d = Some t -> nth_error ts (S d) = Some t' ->
     offY t' = offY t + stepY t) /\
  (forall t, nth_error ts 0 = Some t -> offY t = 0) /\
  (forall t, nth_error ts (n - 1) = Some t -> offY t + stepY t = dY).
Proof.
  intros Hs E. cbv zeta.
  destruct (TNV_CPU_init_bands fuel _ _ _ _ _ _ _ Hs E) as [Hn [Ht _]].
  pose proof (partition_count_le hw_sched_get_cpu_count dY) as Hle.
  pose proof (TNV_CPU_init_pooled fuel _ _ _ _ _ _ _ Hs E) as [_ Hl].
  assert (Hb : 1 <= threads (tnv_ctx w') <= dY) by lia.
  assert (Hband : forall d t, nth_error (thr_ctx (tnv_ctx w')) d = Some t ->
            d < threads (tnv_ctx w') /\
            offY t = d * (dY / threads (tnv_ctx w'))
                     + Nat.min d (dY mod threads (tnv_ctx w')) /\
            stepY t = dY / threads (tnv_ctx w')
                      + (if d <? dY mod threads (tnv_ctx w') then 1 else 0) /\
            copY t = (if d =? threads (tnv_ctx w') - 1
                      then stepY t else stepY t + 1)).
  { intros d t Hd. exact (TNV_CPU_init_band fuel _ _ _ _ _ _ _ d t Hs E Hd). }
  split; [exact Hb|]. split; [exact Hl|].
  split; [|split; [|split]].
  - intros d t Hd. destruct (Hband d t Hd) as [Hdn [Ho [Hst Hc]]].
    destruct (band_in_image _ dY d Hb Hdn) as [B1 [B2 B3]].
    cbv zeta in B1, B2, B3. rewrite <- Hst in B1, B2. rewrite <- Ho in B2.
    repeat split; try assumption. rewrite Hc. exact B2.
  - intros d t t' Hd Hd'.
    destruct (Hband d t Hd) as [_ [Ho [Hst _]]].
    destruct (Hband (S d) t' Hd') as [_ [Ho' _]].
    rewrite Ho', Ho, Hst.
    destruct (Nat.ltb_spec d (dY mod threads (tnv_ctx w'))); lia.
  - intros t Hd. destruct (Hband 0 t Hd) as [_ [Ho _]]. rewrite Ho. lia.
  - intros t Hd. destruct (Hband _ t Hd) as [Hdn [Ho [Hst _]]].
    destruct (band_in_image _ dY _ Hb Hdn) as [_ [_ B3]].
    cbv zeta in B3. rewrite Ho, Hst. apply B3. reflexivity.
Qed.

Lemma X1_row_bands_tile_image_witness :
  exists w', demo_init 2 4 = Some w' /\
             1 <= threads (tnv_ctx w') <= 4 /\
             length (thr_ctx (tnv_ctx w')) = threads (tnv_ctx w').
Proof.
  destruct demo_init_pooled as [w' [E _]]. exists w'. split; [exact E|].
  destruct (X1_row_bands_tile_image (PF:=demo_platform 2)
              (HF:=toolkit_header) 0 1 2 2 4 1 (boot demo_memory) w'
              eq_refl E) as [H1 [H2 _]].
  split; assumption.
Defined.

(** X4. A call that finds the scheduler in place reallocates nothing:
    every array of every partition has after the call the length it had
    before, and a state that initialization set up stays such a state,
    whatever dimensions the call is given. *)
Theorem X4_arrays_never_resized
        {F : Type} {AF : Arith F} {HF : TNVHeader F} {PF : Platform F}
        (fuel : nat) (inT outT : ptr) (lam : F) (maxIter : nat) (tol : F)
        (dX dY dZ : nat) (w w' : world F) (ret : F) :
  sched w <> None ->
  TNV_CPU_main fuel inT outT lam maxIter tol dX dY dZ w = Some (ret, w') ->
  sizes w' = sizes w /\ (initialized w -> initialized w').
Proof.
  intros Hs E. split.
  - destruct (TNV_CPU_main_sizes fuel _ _ _ _ _ _ _ _ _ _ _ E)
      as [w1 [E1 H]].
    rewrite TNV_CPU_init_reuses in E1 by exact Hs. injection E1 as <-.
    exact H.
  - intros Hi.
    exact (TNV_CPU_main_initialized fuel _ _ _ _ _ _ _ _ _ _ _
             (or_intror Hi) E).
Qed.

Lemma X4_arrays_never_resized_witness :
  exists (r1 r2 : binary32) (w1 w2 : world binary32),
    demo_main 2 2 4 1 (boot demo_memory) = Some (r1, w1) /\
    demo_main 1 1 4 1 w1 = Some (r2, w2) /\
    sizes w2 = sizes w1.
Proof.
  destruct (TNV_CPU_main_returns (PF:=demo_platform 2) (HF:=toolkit_header)
              0 1 2 (b32_of_Z 1) 2 (b32_of_Z 0) 2 4 1 (boot demo_memory))
    as [r1 [w1 [E1 Hp1]]].
  { right. split; [reflexivity|]. vm_compute. discriminate. }
  destruct (TNV_CPU_main_returns (PF:=demo_platform 2) (HF:=toolkit_header)
              0 1 2 (b32_of_Z 1) 1 (b32_of_Z 0) 1 4 1 w1 (or_introl Hp1))
    as [r2 [w2 [E2 _]]].
  exists r1, r2, w1, w2. split; [exact E1|]. split; [exact E2|].
  apply (X4_arrays_never_resized (PF:=demo_platform 2) (HF:=toolkit_header)
           0 1 2 (b32_of_Z 1) 1 (b32_of_Z 0) 1 4 1 w1 w2 r2).
  - destruct Hp1 as [H _]. rewrite H. discriminate.
  - exact E2.
Defined.

(** X5. Ingest transposes each band into the partition: after the start
    phase on a state that initialization set up, cell (row j, column i,
    channel k) of partition d, for every row of the band including the
    halo row, holds in [u] the value of the estimate volume and in
    [Input] the value of the noisy volume at row offY + j, column i,
    channel k; the partition stores channels innermost, the volumes store
    them outermost. *)
Theorem X5_ingest_copies_band
        {F : Type} {AF : Arith F} {HF : TNVHeader F} {PF : Platform F}
        (fuel : nat) (n : nat) (w w' : world F) :
  sched w = Some n -> initialized w ->
  hw_sched_run fuel TaskStart w = Some w' ->
  forall d c', d < n -> nth_error (thr_ctx (tnv_ctx w')) d = Some c' ->
  forall j i k, j < copY c' -> i < dimX (tnv_ctx w) -> k < dimZ (tnv_ctx w) ->
    rd (arrays c') u (local_index (tnv_ctx w) j i k)
    = nth (volume_index (tnv_ctx w) (offY c') j i k)
          (mem w (uT (tnv_ctx w))) f0 /\
    rd (arrays c') Input (local_index (tnv_ctx w) j i k)
    = nth (volume_index (tnv_ctx w) (offY c') j i k)
          (mem w (InputT (tnv_ctx w))) f0.
Proof.
  intros Hs Hi E d c' Hd Hc j i k Hj Hii Hk.
  exact (hw_sched_run_start_copies fuel n w w' Hs Hi E d c' Hd Hc j i k
           Hj Hii Hk).
Qed.

Lemma X5_ingest_copies_band_witness :
  exists w w' : world binary32,
    hw_sched_run (PF:=demo_platform 2) (HF:=toolkit_header) 0 TaskStart w
    = Some w' /\
    forall d c', d < 2 -> nth_error (thr_ctx (tnv_ctx w')) d = Some c' ->
    forall j i k, j < copY c' -> i < dimX (tnv_ctx w) ->
                  k < dimZ (tnv_ctx w) ->
      rd (arrays c') u (local_index (tnv_ctx w) j i k)
      = nth (volume_index (tnv_ctx w) (offY c') j i k)
            (mem w (uT (tnv_ctx w))) f0 /\
      rd (arrays c') Input (local_index (tnv_ctx w) j i k)
      = nth (volume_index (tnv_ctx w) (offY c') j i k)
            (mem w (InputT (tnv_ctx w))) f0.
Proof.
  destruct demo_init_pooled as [w0 [E0 Hp0]].
  pose proof (TNV_CPU_init_initialized (PF:=demo_platform 2)
                (HF:=toolkit_header) 0 1 2 2 4 1 (boot demo_memory) w0
                eq_refl E0) as Hi0.
  destruct (TNV_CPU_init_bands (PF:=demo_platform 2) (HF:=toolkit_header)
              0 1 2 2 4 1 (boot demo_memory) w0 eq_refl E0)
    as [_ [Ht _]].
  set (w := set_ctx w0 (set_volumes (tnv_ctx w0) 1 2)).
  destruct (hw_sched_run_returns (PF:=demo_platform 2) (HF:=toolkit_header)
              0 TaskStart w Hp0) as [w' [E _]].
  exists w, w'. split; [exact E|].
  apply (X5_ingest_copies_band (PF:=demo_platform 2) (HF:=toolkit_header)
           0 2 w w'); [|exact Hi0|exact E].
  destruct Hp0 as [H _]. cbn [w sched set_ctx]. rewrite H, Ht. reflexivity.
Defined.

(** X6. A call with no iteration to run (maxIter = 0) is ingest followed
    by write-back and changes no cell of any volume of the caller: the
    estimate volume comes back as it went in; the call returns the first
    cell of the estimate and reports zero iterations with the residual at
    its initial value.  This holds on a first call and on every state
    that initialization set up. *)
Theorem X6_zero_iterations_round_trip
        {F : Type} {AF : Arith F} {HF : TNVHeader F} {PF : Platform F}
        (fuel : nat) (inT outT : ptr) (lam : F) (tol : F)
        (dX dY dZ : nat) (w w' : world F) (ret : F) :
  sched w = None \/ (pooled w /\ initialized w) ->
  TNV_CPU_main fuel inT outT lam 0 tol dX dY dZ w = Some (ret, w') ->
  (forall p, mem w' p = mem w p) /\ ret = nth 0 (mem w outT) f0 /\
  exists evs, trace w' = trace w ++ evs ++ [EvStopped 0 fLarge; EvReturn ret].
Proof.
  intros Hw E. exact (TNV_CPU_main_zero fuel _ _ _ _ _ _ _ _ _ _ Hw E).
Qed.

Lemma X6_zero_iterations_round_trip_witness :
  exists (ret : binary32) (w' : world binary32),
    demo_main 0 2 4 1 (boot demo_memory) = Some (ret, w') /\
    (forall p, mem w' p = demo_memory p) /\
    ret = nth 0 (demo_memory 2) f0.
Proof.
  destruct (TNV_CPU_main_returns (PF:=demo_platform 2) (HF:=toolkit_header)
              0 1 2 (b32_of_Z 1) 0 (b32_of_Z 0) 2 4 1 (boot demo_memory))
    as [ret [w' [E _]]].
  { right. split; [reflexivity|]. vm_compute. discriminate. }
  exists ret, w'. split; [exact E|].
  destruct (X6_zero_iterations_round_trip (PF:=demo_platform 2)
              (HF:=toolkit_header) 0 1 2 (b32_of_Z 1) (b32_of_Z 0) 2 4 1
              (boot demo_memory) w' ret (or_introl eq_refl) E)
    as [H1 [H2 _]].
  split; assumption.
Defined.

(** X7. For a cold start the rollback is exact: if the estimate volume
    holds only zeros when the start phase ingests it, and the first
    iteration is rejected (b > 1 with no iteration accepted yet), then
    after that iteration the six mutable fields of every partition are
    what they were right after ingest. *)
Theorem X7_cold_start_rollback_exact
        {F : Type} {AF : Arith F} {HF : TNVHeader F} {PF : Platform F}
        (fuel : nat) (dX dY dZ : nat) (w0 w w' w1 : world F)
        (st st' : pdhg F) (a : stats F) :
  pooled w0 ->
  (forall i, nth i (mem w0 (uT (tnv_ctx w0))) f0 = f0) ->
  hw_sched_run fuel TaskStart w0 = Some w ->
  iteration fuel dX dY dZ w st = Some (w', st') ->
  measure fuel dX dZ w st = Some (w1, a) ->
  fgt (balance st a) f1 = true -> p_started st = false ->
  mutable_state w' = mutable_state w.
Proof.
  intros Hp Hz E0 E E1 Hb Hst.
  exact (cold_start_rollback fuel dX dY dZ w0 w w' w1 st st' a
           Hp Hz E0 E E1 Hb Hst).
Qed.

Lemma X7_cold_start_rollback_exact_witness :
  hw_sched_run (PF:=demo_platform 2) (HF:=toolkit_header) 0 TaskStart
               cold_world0 = Some cold_world /\
  iteration (PF:=demo_platform 2) (HF:=toolkit_header) 0 2 4 1 cold_world
            (pdhg0 (HF:=toolkit_header))
  = Some (fst cold_first, snd cold_first) /\
  fgt (balance (pdhg0 (HF:=toolkit_header)) (snd cold_measured)) f1 = true /\
  mutable_state (fst cold_first) = mutable_state cold_world.
Proof.
  assert (H1 : pooled cold_world0) by (split; vm_compute; reflexivity).
  assert (H2 : forall i, nth i (mem cold_world0 (uT (tnv_ctx cold_world0))) f0
                         = f0).
  { assert (E : mem cold_world0 (uT (tnv_ctx cold_world0))
                = repeat (b32_of_Z 0) 8) by (vm_compute; reflexivity).
    intros i. rewrite E. apply nth_repeat. }
  assert (H3 : hw_sched_run (PF:=demo_platform 2) (HF:=toolkit_header) 0
                 TaskStart cold_world0 = Some cold_world)
    by (vm_compute; reflexivity).
  assert (H4 : iteration (PF:=demo_platform 2) (HF:=toolkit_header) 0 2 4 1
                 cold_world (pdhg0 (HF:=toolkit_header))
               = Some (fst cold_first, snd cold_first))
    by (vm_compute; reflexivity).
  assert (H5 : measure (PF:=demo_platform 2) (HF:=toolkit_header) 0 2 1
                 cold_world (pdhg0 (HF:=toolkit_header))
               = Some (fst cold_measured, snd cold_measured))
    by (vm_compute; reflexivity).
  assert (H6 : fgt (balance (pdhg0 (HF:=toolkit_header)) (snd cold_measured))
                   f1 = true) by (vm_compute; reflexivity).
  split; [exact H3|]. split; [exact H4|]. split; [exact H6|].
  exact (X7_cold_start_rollback_exact (PF:=demo_platform 2)
           (HF:=toolkit_header) 0 2 4 1 cold_world0 cold_world
           (fst cold_first) (fst cold_measured)
           (pdhg0 (HF:=toolkit_header)) (snd cold_first) (snd cold_measured)
           H1 H2 H3 H4 H5 H6 eq_refl).
Defined.

(** X8. A dispatched phase acts partition by partition: the state it
    leaves in partition d, for d below the size of the pool, is what the
    task makes of the state the phase found in partition d, given the
    scalars of the context and the caller's volumes as they were before
    the phase; what the task did on another partition does not enter.
    Partitions beyond the pool are left as they were, the scalars of the
    context are kept, and no phase but the write-back touches a volume. *)
Theorem X8_phase_acts_partitionwise
        {F : Type} {AF : Arith F} {HF : TNVHeader F} {PF : Platform F}
        (fuel : nat) (t : task) (n : nat) (w w' : world F) :
  sched w = Some n -> hw_sched_run fuel t w = Some w' ->
  tnv_ctx w' = set_thr_ctx (tnv_ctx w) (thr_ctx (tnv_ctx w')) /\
  length (thr_ctx (tnv_ctx w')) = length (thr_ctx (tnv_ctx w)) /\
  (t <> TaskFinish -> mem w' = mem w) /\
  (forall d c', d < n -> nth_error (thr_ctx (tnv_ctx w')) d = Some c' ->
     exists c evs, nth_error (thr_ctx (tnv_ctx w)) d = Some c /\
                   task_on fuel t (tnv_ctx w) (mem w) d c = Some (c', evs)) /\
  (forall d, n <= d ->
     nth_error (thr_ctx (tnv_ctx w')) d = nth_error (thr_ctx (tnv_ctx w)) d).
Proof.
  intros Hs E.
  destruct (hw_sched_run_on fuel t n w w' Hs E) as [H1 [_ [H2 [H3 [H4 H5]]]]].
  repeat split; assumption.
Qed.

Lemma X8_phase_acts_partitionwise_witness :
  exists w w' : world binary32,
    hw_sched_run (PF:=demo_platform 2) (HF:=toolkit_header) 0 TaskStep w
    = Some w' /\
    length (thr_ctx (tnv_ctx w')) = length (thr_ctx (tnv_ctx w)) /\
    mem w' = mem w.
Proof.
  destruct demo_ingested_pooled as [w [_ Hp]].
  destruct (hw_sched_run_returns (PF:=demo_platform 2) (HF:=toolkit_header)
              0 TaskStep w Hp) as [w' [E _]].
  exists w, w'. split; [exact E|].
  destruct (X8_phase_acts_partitionwise (PF:=demo_platform 2)
              (HF:=toolkit_header) 0 TaskStep (threads (tnv_ctx w)) w w'
              (proj1 Hp) E) as [_ [H2 [H3 _]]].
  split; [exact H2|]. apply H3. discriminate.
Defined.

(** X9. The boundary pass between partitions (lines 563-582) writes to
    the [div] arrays only: it leaves the bands, the statistics of the step
    and the nine other arrays of every partition as they were. *)
Theorem X9_boundary_pass_writes_div_only {F : Type} {AF : Arith F}
        (dX dZ pz n : nat) (divtau : F) (ts : list (tnv_thread_t F))
        (r : list (tnv_thread_t F) * F) :
  borders dX dZ pz n divtau ts = Some r ->
  map beside_div (fst r) = map beside_div ts.
Proof. apply borders_beside. Qed.

Lemma X9_boundary_pass_writes_div_only_witness :
  exists (w : world binary32) (r : list (tnv_thread_t binary32) * binary32),
    borders 2 1 1 (threads (tnv_ctx w)) (b32_of_Z 2) (thr_ctx (tnv_ctx w))
    = Some r /\
    map beside_div (fst r) = map beside_div (thr_ctx (tnv_ctx w)).
Proof.
  destruct demo_ingested_pooled as [w [_ [Hs Hl]]].
  destruct (borders_returns 2 1 1 (threads (tnv_ctx w)) (b32_of_Z 2)
              (thr_ctx (tnv_ctx w))) as [r [E _]]; [lia|].
  exists w, r. split; [exact E|].
  exact (X9_boundary_pass_writes_div_only _ _ _ _ _ _ _ E).
Defined.

(** X10. What a returning call reports: its trace ends with the line
    "Iterations stopped at iter with the residual" followed by the
    returned value, which is the first cell of the estimate volume; the
    iteration count reported is at most maxIter; if it is below maxIter
    the loop left by the break of line 629, so the reported residual is
    below the tolerance; if it equals maxIter > 0 the last test of the
    tolerance failed; and with maxIter = 0 the residual reported is its
    initial value fLarge. *)
Theorem X10_iteration_count_and_tolerance
        {F : Type} {AF : Arith F} {HF : TNVHeader F} {PF : Platform F}
        (fuel : nat) (inT outT : ptr) (lam : F) (maxIter : nat) (tol : F)
        (dX dY dZ : nat) (w w' : world F) (ret : F) :
  TNV_CPU_main fuel inT outT lam maxIter tol dX dY dZ w = Some (ret, w') ->
  exists evs iter residual,
    trace w' = trace w ++ evs ++ [EvStopped iter residual; EvReturn ret] /\
    ret = nth 0 (mem w' outT) f0 /\
    iter <= maxIter /\
    (iter < maxIter -> flt residual tol = true) /\
    (iter = maxIter -> 0 < maxIter -> flt residual tol = false) /\
    (maxIter = 0 -> residual = fLarge).
Proof. apply TNV_CPU_main_report. Qed.

Lemma X10_iteration_count_and_tolerance_witness :
  exists (ret : binary32) (w' : world binary32),
    demo_main 2 2 4 1 (boot demo_memory) = Some (ret, w') /\
    exists evs iter residual,
      trace w' = trace (boot demo_memory) ++ evs
                 ++ [EvStopped iter residual; EvReturn ret] /\
      iter <= 2.
Proof.
  destruct (TNV_CPU_main_returns (PF:=demo_platform 2) (HF:=toolkit_header)
              0 1 2 (b32_of_Z 1) 2 (b32_of_Z 0) 2 4 1 (boot demo_memory))
    as [ret [w' [E _]]].
  { right. split; [reflexivity|]. vm_compute. discriminate. }
  exists ret, w'. split; [exact E|].
  destruct (X10_iteration_count_and_tolerance (PF:=demo_platform 2)
              (HF:=toolkit_header) 0 1 2 (b32_of_Z 1) 2 (b32_of_Z 0) 2 4 1
              (boot demo_memory) w' ret E)
    as [evs [iter [res [T [_ [H _]]]]]].
  exists evs, iter, res. split; assumption.
Defined.

(** X11. In exact arithmetic the step-size controller keeps its
    variables in range throughout the loop: started from the initial
    values of lines 517-526, after any number of iterations tau and sigma
    are positive, their product is at most its initial value 1/4, and the
    adaptation rate alpha lies in (0, 1/5]. *)
Theorem X11_step_sizes_stay_in_range
        {HF : TNVHeader R} {PF : Platform R}
        (fuel : nat) (n : nat) (tol : R) (dX dY dZ : nat)
        (w w' : world R) (st' : pdhg R) (iter' : nat) :
  iterate fuel n 0 tol dX dY dZ w pdhg0 = Some (w', st', iter') ->
  (0 < p_tau st')%R /\ (0 < p_sigma st')%R /\
  (p_tau st' * p_sigma st' <= 1 / 4)%R /\
  (0 < p_alpha st' <= 1 / 5)%R.
Proof.
  intros E.
  exact (iterate_sizes fuel tol dX dY dZ n 0 w pdhg0 w' st' iter'
           pdhg0_sizes E).
Qed.

Lemma X11_step_sizes_stay_in_range_witness :
  exists (w w' : world R) (st' : pdhg R) (iter' : nat),
    iterate (PF:=real_platform 2) (HF:=toolkit_header) 3 2 0 0%R 2 4 1 w
            (pdhg0 (HF:=toolkit_header)) = Some (w', st', iter') /\
    (0 < p_tau st')%R /\ (0 < p_sigma st')%R /\
    (p_tau st' * p_sigma st' <= 1 / 4)%R /\
    (0 < p_alpha st' <= 1 / 5)%R.
Proof.
  destruct real_init_pooled as [w [_ Hp]].
  destruct (iterate_returns (PF:=real_platform 2) (HF:=toolkit_header)
              3 0%R 2 4 1 2 0 w (pdhg0 (HF:=toolkit_header)) Hp)
    as [w' [st' [iter' [E _]]]].
  exists w, w', st', iter'. split; [exact E|].
  exact (X11_step_sizes_stay_in_range (PF:=real_platform 2)
           (HF:=toolkit_header) 3 2 0%R 2 4 1 w w' st' iter' E).
Defined.

(** X12. In exact arithmetic, with the step sizes in range, the
    controller of lines 600-627 only rebalances on an accepted iteration
    (b <= 1): whichever of its three branches runs, the product
    tau sigma is left unchanged; on a rejected iteration (b > 1) the
    product strictly decreases; either way the step sizes stay in
    range. *)
Theorem X12_controller_rebalances
        {HF : TNVHeader R} {PF : Platform R}
        (fuel : nat) (w w' : world R) (st st' : pdhg R) (a : stats R)
        (residual : R) :
  step_sizes_ok st -> adapt fuel w st a residual = Some (w', st') ->
  step_sizes_ok st' /\
  (fgt (balance st a) f1 = false ->
   (p_tau st' * p_sigma st' = p_tau st * p_sigma st)%R) /\
  (fgt (balance st a) f1 = true ->
   (p_tau st' * p_sigma st' < p_tau st * p_sigma st)%R).
Proof. apply adapt_sizes. Qed.

Lemma X12_controller_rebalances_witness :
  exists (w w' : world R) (st' : pdhg R),
    adapt (PF:=real_platform 2) (HF:=toolkit_header) 3 w
          (pdhg0 (HF:=toolkit_header)) (mkStats 1 1 1 1 1)%R 1%R
    = Some (w', st') /\
    step_sizes_ok st'.
Proof.
  destruct real_init_pooled as [w [_ Hp]].
  destruct (adapt_returns (PF:=real_platform 2) (HF:=toolkit_header) 3 w
              (pdhg0 (HF:=toolkit_header)) (mkStats 1 1 1 1 1)%R 1%R Hp)
    as [w' [st' [E _]]].
  exists w, w', st'. split; [exact E|].
  exact (proj1 (X12_controller_rebalances (PF:=real_platform 2)
                  (HF:=toolkit_header) 3 w w'
                  (pdhg0 (HF:=toolkit_header)) st' (mkStats 1 1 1 1 1)%R 1%R
                  (pdhg0_sizes (HF:=toolkit_header)) E)).
Defined.

(** X13. In exact arithmetic, on a diagonal matrix with non-negative
    entries the [p = 1] rule of [coefF] acts on each axis by itself: the
    result is diagonal, and each diagonal entry is the soft threshold of
    the singular value sqrt(M) of its own axis at 1/sigma, divided by that
    singular value when it exceeds [fTiny]. *)
Theorem X13_coefF_diagonal
        (HF : TNVHeader R) (fuel : nat) (M1 M3 sigma : R) (q r : Z) :
  (0 <= M1)%R -> (0 <= M3)%R ->
  coefF fuel M1 0%R M3 sigma 1 q r =
  Some (soft_factor sigma (sqrt M1), 0%R, soft_factor sigma (sqrt M3)).
Proof. apply coefF_diag. Qed.

Lemma X13_coefF_diagonal_witness :
  coefF (HF:=toolkit_header) 0 4%R 0%R 1%R 1%R 1 1 0 =
  Some (soft_factor (HF:=toolkit_header) 1 (sqrt 4), 0%R,
        soft_factor (HF:=toolkit_header) 1 (sqrt 1)).
Proof. apply (X13_coefF_diagonal toolkit_header 0 4 1 1 1 0)%R; lra. Defined.

(** X14. In exact arithmetic the [p = 1] rule of [coefF] maps to the zero
    matrix every input whose larger singular value is at most 1/sigma. *)
Theorem X14_coefF_zero_below_threshold
        (HF : TNVHeader R) (fuel : nat) (M1 M2 M3 sigma : R) (q r : Z) :
  (fst (singular_values M1 M2 M3) <= 1 / sigma)%R ->
  coefF fuel M1 M2 M3 sigma 1 q r = Some (0%R, 0%R, 0%R).
Proof. apply coefF_below_threshold. Qed.

Lemma X14_coefF_zero_below_threshold_witness :
  coefF (HF:=toolkit_header) 0 1%R 0%R 1%R 1%R 1 1 0 = Some (0%R, 0%R, 0%R).
Proof.
  apply (X14_coefF_zero_below_threshold toolkit_header 0 1 0 1 1 1 0)%R.
  rewrite singular_values_diag by lra. cbn [fst].
  rewrite Rmax_left by lra. rewrite sqrt_1. lra.
Defined.

(** X15. In exact arithmetic, with [fLarge > 1] and a bound of at least
    three passes, the water-filling loop of the [INFNORM] branch returns
    the projection of (sigma |sig1|, sigma |sig2|) onto the unit simplex
    region: both entries stay between zero and their input; inputs that
    sum to at most one come back unchanged; inputs that sum to more than
    one come back summing to exactly one. *)
Theorem X15_water_filling_projects
        (HF : TNVHeader R) (fuel : nat) (sigma sig1 sig2 : R) :
  (0 <= sigma)%R -> (1 < fLarge)%R -> 3 <= fuel ->
  let a := (sigma * Rabs sig1)%R in
  let b := (sigma * Rabs sig2)%R in
  exists s,
    l1_projection fuel sigma sig1 sig2 = Some s /\
    (0 <= proj_0 s <= a)%R /\ (0 <= proj_1 s <= b)%R /\
    ((a + b <= 1)%R -> proj_0 s = a /\ proj_1 s = b) /\
    ((1 < a + b)%R -> (proj_0 s + proj_1 s = 1)%R).
Proof.
  intros Hs HL Hf. cbv zeta. unfold l1_projection.
  apply (l1_loop_projects (sigma * Rabs sig1) (sigma * Rabs sig2) fLarge fuel);
    auto; apply Rmult_le_pos; auto; apply Rabs_pos.
Qed.

Lemma X15_water_filling_projects_witness :
  exists s,
    l1_projection (HF:=toolkit_header) 3 1%R 2%R 1%R = Some s /\
    ((1 < 1 * Rabs 2 + 1 * Rabs 1)%R -> (proj_0 s + proj_1 s = 1)%R).
Proof.
  destruct (X15_water_filling_projects toolkit_header 3 1 2 1)%R
    as [s [E [_ [_ [_ H]]]]].
  - lra.
  - cbn. lra.
  - lia.
  - exists s. split; [exact E|exact H].
Defined.

(** X16. In exact arithmetic the [INFNORM] rule of [coefF] (for a header
    whose [INFNORM] is not 1, a positive sigma, [fLarge > 1] and at least
    three passes) maps to the zero matrix every input whose singular
    values, scaled by sigma, sum to at most one. *)
Theorem X16_coefF_INFNORM_inside_ball
        (HF : TNVHeader R) (fuel : nat) (M1 M2 M3 sigma : R) (q r : Z) :
  INFNORM <> 1%Z -> (0 < sigma)%R -> (1 < fLarge)%R -> 3 <= fuel ->
  (sigma * (fst (singular_values M1 M2 M3) + snd (singular_values M1 M2 M3))
   <= 1)%R ->
  coefF fuel M1 M2 M3 sigma INFNORM q r = Some (0%R, 0%R, 0%R).
Proof. apply coefF_INFNORM_inside. Qed.

Lemma X16_coefF_INFNORM_inside_ball_witness :
  coefF (HF:=toolkit_header) 3 1%R 0%R 0%R (1 / 2)%R (-1) 1 0
  = Some (0%R, 0%R, 0%R).
Proof.
  apply (X16_coefF_INFNORM_inside_ball toolkit_header 3 1 0 0 (1 / 2) 1 0)%R.
  - discriminate.
  - lra.
  - cbn. lra.
  - lia.
  - rewrite singular_values_diag by lra. cbn [fst snd].
    rewrite Rmax_left, Rmin_right by lra. rewrite sqrt_1, sqrt_0. lra.
Defined.

(** X17. In exact arithmetic, and for dimensions whose product
    dimX dimY dimZ an [int] holds (line 593 computes it in [int]; a product
    that wrapped to a negative divisor would make the residual negative),
    a tolerance that is not positive never stops the loop early: on a
    state with one worker per partition, the loop runs its full budget of
    iterations. *)
Theorem X17_nonpositive_tolerance_runs_full_budget
        {HF : TNVHeader R} {PF : Platform R}
        (fuel : nat) (n iter : nat) (tol : R) (dX dY dZ : nat)
        (w w' : world R) (st st' : pdhg R) (iter' : nat) :
  int_range (dX * dY * dZ) -> (tol <= 0)%R -> pooled w ->
  iterate fuel n iter tol dX dY dZ w st = Some (w', st', iter') ->
  iter' = iter + n.
Proof.
  intros Hi Ht Hp E.
  exact (iterate_full_budget fuel tol dX dY dZ n Hi Ht iter w st w' st' iter'
           Hp E).
Qed.

Lemma X17_nonpositive_tolerance_runs_full_budget_witness :
  exists (w w' : world R) (st' : pdhg R) (iter' : nat),
    iterate (PF:=real_platform 2) (HF:=toolkit_header) 3 2 0 0%R 2 4 1 w
            (pdhg0 (HF:=toolkit_header)) = Some (w', st', iter') /\
    iter' = 0 + 2.
Proof.
  destruct real_init_pooled as [w [_ Hp]].
  destruct (iterate_returns (PF:=real_platform 2) (HF:=toolkit_header)
              3 0%R 2 4 1 2 0 w (pdhg0 (HF:=toolkit_header)) Hp)
    as [w' [st' [iter' [E _]]]].
  exists w, w', st', iter'. split; [exact E|].
  apply (X17_nonpositive_tolerance_runs_full_budget (PF:=real_platform 2)
           (HF:=toolkit_header) 3 2 0 0%R 2 4 1 w w'
           (pdhg0 (HF:=toolkit_header)) st' iter');
    [unfold int_range, INT_MAX; cbn; lia|lra|exact Hp|exact E].
Defined.

(** X18. In exact arithmetic the statistics that an iteration measures
    on a state with one worker per partition are sums of magnitudes and of
    squares: the primal and the dual residual and the two norms are never
    negative. *)
Theorem X18_statistics_nonnegative
        {HF : TNVHeader R} {PF : Platform R}
        (fuel : nat) (dX dZ : nat) (w w' : world R) (st : pdhg R)
        (a : stats R) :
  pooled w -> measure fuel dX dZ w st = Some (w', a) ->
  (0 <= resprimal a)%R /\ (0 <= resdual a)%R /\
  (0 <= unorm a)%R /\ (0 <= qnorm a)%R.
Proof.
  intros Hp E. exact (measure_nonneg fuel dX dZ w w' st a Hp E).
Qed.

Lemma X18_statistics_nonnegative_witness :
  exists (w w' : world R) (a : stats R),
    measure (PF:=real_platform 2) (HF:=toolkit_header) 3 2 1 w
            (pdhg0 (HF:=toolkit_header)) = Some (w', a) /\
    (0 <= resprimal a)%R /\ (0 <= resdual a)%R /\
    (0 <= unorm a)%R /\ (0 <= qnorm a)%R.
Proof.
  destruct real_init_pooled as [w [_ Hp]].
  destruct (measure_returns (PF:=real_platform 2) (HF:=toolkit_header)
              3 2 1 w (pdhg0 (HF:=toolkit_header)) Hp) as [w' [a [E _]]].
  exists w, w', a. split; [exact E|].
  exact (X18_statistics_nonnegative (PF:=real_platform 2)
           (HF:=toolkit_header) 3 2 1 w w' (pdhg0 (HF:=toolkit_header)) a
           Hp E).
Defined.

(** X20. The partitions' copies of the noisy volume are written by
    ingest only: whatever the number of iterations, accepted or rolled
    back, the iteration loop leaves the [Input] array of every partition
    as it found it. *)
Theorem X20_noisy_copy_kept
        {F : Type} {AF : Arith F} {HF : TNVHeader F} {PF : Platform F}
        (fuel : nat) (n iter : nat) (tol : F) (dX dY dZ : nat)
        (w w' : world F) (st st' : pdhg F) (iter' : nat) :
  iterate fuel n iter tol dX dY dZ w st = Some (w', st', iter') ->
  map input_copy (thr_ctx (tnv_ctx w'))
  = map input_copy (thr_ctx (tnv_ctx w)).
Proof. apply iterate_Input. Qed.

Lemma X20_noisy_copy_kept_witness :
  exists (w w' : world binary32) (st' : pdhg binary32) (iter' : nat),
    iterate (PF:=demo_platform 2) (HF:=toolkit_header) 0 2 0 (b32_of_Z 0)
            2 4 1 w (pdhg0 (HF:=toolkit_header)) = Some (w', st', iter') /\
    map input_copy (thr_ctx (tnv_ctx w'))
    = map input_copy (thr_ctx (tnv_ctx w)).
Proof.
  destruct demo_ingested_pooled as [w [_ Hp]].
  destruct (iterate_returns (PF:=demo_platform 2) (HF:=toolkit_header)
              0 (b32_of_Z 0) 2 4 1 2 0 w (pdhg0 (HF:=toolkit_header)) Hp)
    as [w' [st' [iter' [E _]]]].
  exists w, w', st', iter'. split; [exact E|].
  exact (X20_noisy_copy_kept (PF:=demo_platform 2) (HF:=toolkit_header)
           0 2 0 (b32_of_Z 0) 2 4 1 w w' (pdhg0 (HF:=toolkit_header)) st'
           iter' E).
Defined.

(** X21. The write-back puts every owned cell in its place: when the
    bands lie inside the image without overlap (as initialization lays
    them out) and the estimate volume has room for dimX dimY dimZ cells,
    then after the finish phase the estimate volume holds, at row
    offY + j, column i, channel k, the value that partition d has in [u]
    for its row j, for every owned row j < stepY; the halo row is not
    written back. *)
Theorem X21_write_back_stores_owned_rows
        {F : Type} {AF : Arith F} {HF : TNVHeader F} {PF : Platform F}
        (fuel : nat) (n : nat) (w w' : world F) :
  sched w = Some n -> n <= length (thr_ctx (tnv_ctx w)) -> tiled w ->
  dimX (tnv_ctx w) * dimY (tnv_ctx w) * dimZ (tnv_ctx w)
  <= length (mem w (uT (tnv_ctx w))) ->
  hw_sched_run fuel TaskFinish w = Some w' ->
  forall d c, d < n -> nth_error (thr_ctx (tnv_ctx w)) d = Some c ->
  forall j i k, j < stepY c -> i < dimX (tnv_ctx w) -> k < dimZ (tnv_ctx w) ->
    nth (volume_index (tnv_ctx w) (offY c) j i k)
        (mem w' (uT (tnv_ctx w))) f0
    = rd (arrays c) u (local_index (tnv_ctx w) j i k).
Proof. apply hw_sched_run_finish_stores. Qed.

Lemma X21_write_back_stores_owned_rows_witness :
  exists w w' : world binary32,
    hw_sched_run (PF:=demo_platform 2) (HF:=toolkit_header) 0 TaskFinish w
    = Some w' /\
    forall d c, d < 2 -> nth_error (thr_ctx (tnv_ctx w)) d = Some c ->
    forall j i k, j < stepY c -> i < dimX (tnv_ctx w) ->
                  k < dimZ (tnv_ctx w) ->
      nth (volume_index (tnv_ctx w) (offY c) j i k)
          (mem w' (uT (tnv_ctx w))) f0
      = rd (arrays c) u (local_index (tnv_ctx w) j i k).
Proof.
  destruct demo_init_pooled as [w0 [E0 Hp0]].
  pose proof (TNV_CPU_init_tiled (PF:=demo_platform 2) (HF:=toolkit_header)
                0 1 2 2 4 1 (boot demo_memory) w0 eq_refl E0) as Ht0.
  destruct (TNV_CPU_init_bands (PF:=demo_platform 2) (HF:=toolkit_header)
              0 1 2 2 4 1 (boot demo_memory) w0 eq_refl E0)
    as [_ [Ht [Hd _]]].
  destruct (TNV_CPU_init_inv (PF:=demo_platform 2) (HF:=toolkit_header)
              0 (@any_event binary32) 1 2 2 4 1 (boot demo_memory) w0
              (fun _ => I) E0) as [Hm _].
  set (w := set_ctx w0 (set_volumes (tnv_ctx w0) 1 2)).
  destruct (hw_sched_run_returns (PF:=demo_platform 2) (HF:=toolkit_header)
              0 TaskFinish w Hp0) as [w' [E _]].
  exists w, w'. split; [exact E|].
  destruct Hp0 as [Hs Hl].
  apply (X21_write_back_stores_owned_rows (PF:=demo_platform 2)
           (HF:=toolkit_header) 0 2 w w').
  - cbn [w sched set_ctx]. rewrite Hs, Ht. reflexivity.
  - cbn [w tnv_ctx set_ctx thr_ctx set_volumes]. rewrite Hl, Ht.
    apply Nat.le_refl.
  - exact Ht0.
  - cbn [w tnv_ctx set_ctx set_volumes dimX dimY dimZ uT mem].
    injection Hd as -> -> -> _. rewrite Hm. apply Nat.le_refl.
  - exact E.
Defined.

(** X22. In exact arithmetic, for a positive-semidefinite matrix whose
    off-diagonal entry exceeds [fTiny >= 0] in magnitude, the
    decomposition of lines 37-66 is an eigen-decomposition: the two values
    sum to the trace and multiply to the determinant, and the two vectors
    (V1, V3) and (V2, V4) are unit vectors, orthogonal to each other, and
    eigenvectors of the matrix for the larger and the smaller value. *)
Theorem X22_eigenvectors_orthonormal
        (HF : TNVHeader R) (M1 M2 M3 : R) :
  (0 <= M1)%R -> (0 <= M3)%R -> (M2 * M2 <= M1 * M3)%R ->
  (0 <= fTiny)%R -> (fTiny < Rabs M2)%R ->
  exists e1 e2 V1 V2 V3 V4 : R,
    eigenvalues M1 M2 M3 = (e1, e2) /\
    eigenvectors M1 M2 M3 e1 e2 = (V1, V2, V3, V4) /\
    (e1 + e2 = M1 + M3)%R /\ (e1 * e2 = M1 * M3 - M2 * M2)%R /\
    (V1 * V1 + V3 * V3 = 1)%R /\ (V2 * V2 + V4 * V4 = 1)%R /\
    (V1 * V2 + V3 * V4 = 0)%R /\
    (M1 * V1 + M2 * V3 = e1 * V1)%R /\ (M2 * V1 + M3 * V3 = e1 * V3)%R /\
    (M1 * V2 + M2 * V4 = e2 * V2)%R /\ (M2 * V2 + M3 * V4 = e2 * V4)%R.
Proof.
  intros H1 H3 HD HT HM.
  destruct (eigenvectors_psd M1 M2 M3 H1 H3 HD HT HM)
    as [e1 [e2 [V1 [V2 [V3 [V4 [E [Ev [N1 [N2 [O [[A1 A2] [B1 B2]]]]]]]]]]]]].
  destruct (eigenvalues_psd M1 M2 M3 H1 H3 HD) as [e1' [e2' [E' [Hs [Hp _]]]]].
  rewrite E in E'. injection E' as <- <-.
  exists e1, e2, V1, V2, V3, V4. repeat split; assumption.
Qed.

Lemma X22_eigenvectors_orthonormal_witness :
  exists e1 e2 V1 V2 V3 V4 : R,
    eigenvalues 2%R 1%R 2%R = (e1, e2) /\
    eigenvectors (HF:=toolkit_header) 2%R 1%R 2%R e1 e2 = (V1, V2, V3, V4) /\
    (V1 * V2 + V3 * V4 = 0)%R.
Proof.
  destruct (X22_eigenvectors_orthonormal toolkit_header 2 1 2)%R
    as [e1 [e2 [V1 [V2 [V3 [V4 [E [Ev [_ [_ [_ [_ [O _]]]]]]]]]]]]].
  - lra.
  - lra.
  - lra.
  - cbn. lra.
  - cbn. rewrite Rabs_R1. lra.
  - exists e1, e2, V1, V2, V3, V4. repeat split; assumption.
Defined.

(** X23. In exact arithmetic, pixel (j, i) of the step leaves the dual
    values of its channels inside the unit ball of the spectral norm: when
    sigma > 0, 0 <= fTiny <= 1 / sigma, the scratch arrays hold dimZ
    entries, the pixel's channels lie inside [qx] and [qy], and the
    off-diagonal sum M2 that the pixel hands to [coefF] is zero or exceeds
    fTiny in magnitude, then the pixel returns, the Gram matrix of the
    2 x dimZ matrix of its new dual values is positive semidefinite with
    eigenvalues at most one, and the dual values of all other pixels are
    unchanged. *)
Theorem X23_pixel_duals_in_unit_ball
        (HF : TNVHeader R) (fuel : nat)
        (ctx : tnv_context_t R) (t : tnv_thread_t R) (j i : nat)
        (s : step_state R) :
  let e := step_env_of ctx t in
  let g := fold_left (gather e j i) (seq 0 (dimZ ctx))
                     (mkGathered (s_arr s) (s_scr s) 0%R 0%R 0%R) in
  (0 < sigma ctx)%R -> (0 <= fTiny <= 1 / sigma ctx)%R ->
  dimZ ctx <= length (ubarx (s_scr s)) ->
  dimZ ctx <= length (ubary (s_scr s)) ->
  pixel_base e j i + dimZ ctx <= length (buf (s_arr s) qx) ->
  pixel_base e j i + dimZ ctx <= length (buf (s_arr s) qy) ->
  g_M2 g = 0%R \/ (fTiny < Rabs (g_M2 g))%R ->
  exists s',
    pixel fuel e j i s = Some s' /\
    within_unit_ball (gram_of (pixel_duals e j i (s_arr s'))) /\
    forall idx,
      idx < pixel_base e j i \/ pixel_base e j i + dimZ ctx <= idx ->
      rd (s_arr s') qx idx = rd (s_arr s) qx idx /\
      rd (s_arr s') qy idx = rd (s_arr s) qy idx.
Proof.
  intros e g Hs HT Hx Hy Hqx Hqy HM.
  destruct (gather_channels e j i (s_arr s) (s_scr s) (dimZ ctx) Hx Hy)
    as (_ & _ & GM).
  cbv zeta in GM. change (@f0 R real_arith) with 0%R in GM. fold g in GM.
  set (cs := map (channel e j i (g_scr g) (s_arr s)) (seq 0 (dimZ ctx)))
    in GM.
  destruct (dual_step_within fuel (sigma ctx) 1 0 cs Hs HT) as [tt [Et Hw]].
  { change (fdiv f1 (sigma ctx)) with (e_divsigma e).
    rewrite <- GM. exact HM. }
  change (fdiv f1 (sigma ctx)) with (e_divsigma e) in Et, Hw.
  rewrite <- GM in Et. cbn [fst snd] in Et.
  assert (E : exists s', pixel fuel e j i s = Some s').
  { unfold pixel. change (e_dimZ e) with (dimZ ctx).
    change (@f0 R real_arith) with 0%R. fold g.
    change (e_sigma e) with (sigma ctx). change (e_p e) with 1%Z.
    change (e_q e) with 1%Z. change (e_r e) with 0%Z.
    rewrite Et. cbn [bind]. eexists. reflexivity. }
  destruct E as [s' E]. exists s'. split; [exact E|].
  destruct (pixel_channels fuel e j i s s' Hx Hy Hqx Hqy E)
    as (cs' & t' & Ecs & Et' & Ed & Eo).
  assert (Escr : s_scr s' = g_scr g).
  { unfold pixel in E. change (e_dimZ e) with (dimZ ctx) in E.
    change (@f0 R real_arith) with 0%R in E. fold g in E.
    change (e_sigma e) with (sigma ctx) in E.
    change (e_p e) with 1%Z in E.
    change (e_q e) with 1%Z in E. change (e_r e) with 0%Z in E.
    rewrite Et in E. cbn [bind] in E. injection E as <-. reflexivity. }
  rewrite Escr in Ecs. change (e_dimZ e) with (dimZ ctx) in Ecs.
  fold cs in Ecs. subst cs'.
  rewrite <- GM in Et'. cbn [fst snd] in Et'.
  change (e_sigma e) with (sigma ctx) in Et'.
  change (e_p e) with 1%Z in Et'.
  change (e_q e) with 1%Z in Et'. change (e_r e) with 0%Z in Et'.
  rewrite Et in Et'. injection Et' as <-.
  split; [|exact Eo].
  unfold pixel_duals. rewrite Ed. exact Hw.
Qed.

Lemma X23_pixel_duals_in_unit_ball_witness :
  exists s',
    pixel (HF:=toolkit_header) 0
          (step_env_of pair_context pair_thread) 0 0 pair_state = Some s' /\
    within_unit_ball
      (gram_of (pixel_duals (step_env_of pair_context pair_thread) 0 0
                            (s_arr s'))).
Proof.
  destruct (X23_pixel_duals_in_unit_ball toolkit_header 0
              pair_context pair_thread 0 0 pair_state)
    as [s' [E [Hw _]]].
  - cbn. lra.
  - cbn. lra.
  - cbn. lia.
  - cbn. lia.
  - cbn. lia.
  - cbn. lia.
  - left. cbn. lra.
  - exists s'. split; assumption.
Defined.

(** ** The caller's volumes over a call *)

Section CallVolumes.
Context {F : Type} {AF : Arith F} {HF : TNVHeader F} {PF : Platform F}.
Variable fuel : nat.

Lemma layout_bands (w w' : world F) :
  layout w' = layout w ->
  map band (thr_ctx (tnv_ctx w')) = map band (thr_ctx (tnv_ctx w)).
Proof. unfold layout. intros E. now injection E. Qed.

Lemma layout_dims (w w' : world F) :
  layout w' = layout w ->
  (dimX (tnv_ctx w'), dimY (tnv_ctx w'), dimZ (tnv_ctx w'))
  = (dimX (tnv_ctx w), dimY (tnv_ctx w), dimZ (tnv_ctx w)).
Proof. unfold layout. intros E. injection E. intros. congruence. Qed.

Lemma layout_tiled (w w' : world F) :
  layout w' = layout w -> tiled w -> tiled w'.
Proof.
  intros L Ht d c' Ec'.
  pose proof (layout_bands _ _ L) as B.
  pose proof (layout_dims _ _ L) as D. injection D as _ Dy _.
  assert (Hb : forall d c', nth_error (thr_ctx (tnv_ctx w')) d = Some c' ->
            exists c, nth_error (thr_ctx (tnv_ctx w)) d = Some c /\
                      band c = band c').
  { intros d0 c0 E0. apply (map_nth_error band) in E0. rewrite B in E0.
    rewrite nth_error_map in E0.
    destruct (nth_error (thr_ctx (tnv_ctx w)) d0) as [c|]; cbn in E0;
      [|discriminate].
    exists c. split; [reflexivity|congruence]. }
  destruct (Hb d c' Ec') as [c [Ec Bc]].
  unfold band in Bc. injection Bc as Bo Bs _.
  destruct (Ht d c Ec) as [H1 H2]. split; [lia|].
  intros d' c2' Ec2' Hlt.
  destruct (Hb d' c2' Ec2') as [c2 [Ec2 Bc2]].
  unfold band in Bc2. injection Bc2 as Bo2 _ _.
  pose proof (H2 d' c2 Ec2 Hlt). lia.
Qed.

(** On tiled bands every store of the write-back falls inside the
    image. *)
Lemma phase_writes_inside (w : world F) (n : nat) :
  tiled w ->
  Forall (fun x => fst x
                   < dimX (tnv_ctx w) * dimY (tnv_ctx w) * dimZ (tnv_ctx w))
         (phase_writes (tnv_ctx w) n).
Proof.
  intros Ht. apply Forall_forall. intros [idx v] Hin. cbn [fst].
  apply in_phase_writes in Hin. destruct Hin as [d [c [_ [Ec Hin]]]].
  apply in_finish_writes in Hin.
  destruct Hin as [j [i [k [Hj [Hi [Hk [-> _]]]]]]].
  destruct (Ht d c Ec) as [Hin _].
  unfold volume_index. apply volume_index_bound; lia.
Qed.

(** The states of a call before and after the write-back. *)
Lemma TNV_CPU_main_stores (inT outT : ptr) (lam : F) (maxIter : nat)
      (tol : F) (dX dY dZ : nat) (w w' : world F) (ret : F) :
  sched w = None \/ (pooled w /\ tiled w) ->
  TNV_CPU_main fuel inT outT lam maxIter tol dX dY dZ w = Some (ret, w') ->
  pooled w' /\ tiled w' /\ uT (tnv_ctx w') = outT /\
  dimX (tnv_ctx w') * dimY (tnv_ctx w') * dimZ (tnv_ctx w')
  = solve_cells w dX dY dZ /\
  mem w' outT
  = apply_writes (mem w outT)
                 (phase_writes (tnv_ctx w') (threads (tnv_ctx w'))).
Proof.
  intros Hw. unfold TNV_CPU_main.
  set (w0 := set_ctx w _).
  destruct (TNV_CPU_init fuel inT outT dX dY dZ w0) as [w1|] eqn:E1;
    cbn [bind]; [|discriminate].
  set (w2 := set_ctx w1 _).
  destruct (hw_sched_run fuel TaskStart w2) as [w3|] eqn:E3; cbn [bind];
    [|discriminate].
  destruct (iterate _ _ _ _ _ _ _ _ _) as [[[w4 st] it]|] eqn:E4; cbn [bind];
    [|discriminate].
  destruct (hw_sched_run fuel TaskFinish w4) as [w5|] eqn:E5; cbn [bind];
    [|discriminate].
  intros H; injection H as _ <-.
  assert (H1 : pooled w1 /\ tiled w1 /\
               dimX (tnv_ctx w1) * dimY (tnv_ctx w1) * dimZ (tnv_ctx w1)
               = solve_cells w dX dY dZ).
  { unfold solve_cells. destruct Hw as [Hs|[Hp Ht]].
    - rewrite Hs. split; [|split].
      + exact (TNV_CPU_init_pooled fuel _ _ _ _ _ w0 w1 Hs E1).
      + exact (TNV_CPU_init_tiled fuel _ _ _ _ _ w0 w1 Hs E1).
      + destruct (TNV_CPU_init_bands fuel _ _ _ _ _ w0 w1 Hs E1)
          as [_ [_ [Hd _]]].
        injection Hd as -> -> -> _. reflexivity.
    - assert (Hs : sched w0 <> None).
      { destruct Hp as [Hs _]. cbn. rewrite Hs. discriminate. }
      rewrite (TNV_CPU_init_reuses fuel _ _ _ _ _ w0 Hs) in E1.
      injection E1 as <-. destruct Hp as [Hs' Hl].
      rewrite Hs'. split; [split; assumption|]. split; [exact Ht|].
      reflexivity. }
  destruct H1 as [Hp1 [Ht1 Hc1]].
  assert (M1 : forall p, mem w1 p = mem w p).
  { destruct (TNV_CPU_init_inv fuel (@any_event F) _ _ _ _ _ _ _
                (fun _ => I) E1) as [M _]. exact M. }
  assert (V3 : evolves no_volume (@any_event F) w2 w3).
  { apply (hw_sched_run_evolves fuel _ _ TaskStart); try discriminate;
      [intros; exact I|exact E3]. }
  assert (V4 : evolves no_volume (@any_event F) w3 w4).
  { apply (iterate_evolves fuel no_volume (@any_event F) tol dX dY dZ maxIter
             (conj (fun _ => I) (conj I (conj (fun _ _ _ _ _ _ => I) I)))
             0 w3 w4 (pdhg0 (F:=F)) st it); [|exact E4].
    intros _ d. exact I. }
  destruct V3 as [L3 [M3 _]]. destruct V4 as [L4 [M4 _]].
  assert (L : layout w4 = layout w2) by congruence.
  assert (Hp4 : pooled w4) by (apply (layout_pooled _ _ L); exact Hp1).
  assert (Ht4 : tiled w4) by (apply (layout_tiled _ _ L); exact Ht1).
  assert (Hu4 : uT (tnv_ctx w4) = outT)
    by (rewrite (layout_uT _ _ L); reflexivity).
  assert (M : forall p, mem w4 p = mem w p).
  { intros p. rewrite M4, M3 by (unfold no_volume; tauto). apply M1. }
  destruct Hp4 as [Hs4 Hl4].
  destruct (hw_sched_run_finish_writes fuel _ w4 w5 Hs4
              (Nat.eq_le_incl _ _ (eq_sym Hl4)) E5) as [Hc5 Hm5].
  pose proof (hw_sched_run_on fuel TaskFinish _ w4 w5 Hs4 E5) as [_ [Hs5 _]].
  match goal with |- pooled ?x /\ _ => set (wf := x) end.
  assert (Cf : tnv_ctx wf = tnv_ctx w4) by exact Hc5.
  assert (Sf : sched wf = sched w4) by exact Hs5.
  assert (Mf : mem wf = mem w5) by reflexivity.
  split; [split; rewrite Cf; [congruence|exact Hl4]|].
  split.
  { intros d c Ec. rewrite Cf in *. apply Ht4. exact Ec. }
  rewrite Cf, Mf. split; [exact Hu4|]. split.
  { pose proof (layout_dims _ _ L) as D. cbn in D. injection D as -> -> ->.
    exact Hc1. }
  rewrite Hu4 in Hm5. rewrite Hm5, M. reflexivity.
Qed.
End CallVolumes.

(** C5 (amended). A complete call of [TNV_CPU_main] leaves the noisy
    input volume as it was, and writes to the caller's memory only the
    stores of the write-back, all of them inside the estimate volume,
    provided that the two volumes are distinct, that the call is the first
    one or finds the singleton as initialization laid it out (one worker
    per band, the bands tiling the image), and that the estimate volume
    holds the cells of the image the singleton is set up for.  The call
    leaves the singleton laid out in this way for the next call. *)
Theorem C5_input_volume_unchanged
        {F : Type} {AF : Arith F} {HF : TNVHeader F} {PF : Platform F}
        (fuel : nat) (inT outT : ptr) (lam : F) (maxIter : nat) (tol : F)
        (dX dY dZ : nat) (w w' : world F) (ret : F) :
  inT <> outT ->
  sched w = None \/ (pooled w /\ tiled w) ->
  solve_cells w dX dY dZ <= length (mem w outT) ->
  TNV_CPU_main fuel inT outT lam maxIter tol dX dY dZ w = Some (ret, w') ->
  mem w' inT = mem w inT /\
  (forall p, p <> outT -> mem w' p = mem w p) /\
  mem w' outT
  = apply_writes (mem w outT)
                 (phase_writes (tnv_ctx w') (threads (tnv_ctx w'))) /\
  Forall (fun x => fst x < length (mem w outT))
         (phase_writes (tnv_ctx w') (threads (tnv_ctx w'))) /\
  pooled w' /\ tiled w'.
Proof.
  intros Hne Hw Hlen E.
  assert (H : forall p, p <> outT -> mem w' p = mem w p).
  { intros p Hp.
    destruct (TNV_CPU_main_inv _ _ _ _ _ _ _ _ _ _ _ _ E) as [w1 [E1 V]].
    destruct (V (eq outT) (@any_event F) eq_refl any_solve_alphabet)
      as [_ [M _]].
    rewrite M by congruence. cbn.
    destruct (TNV_CPU_init_inv fuel (@any_event F) _ _ _ _ _ _ _
                (fun _ => I) E1) as [M1 _].
    now rewrite M1. }
  destruct (TNV_CPU_main_stores fuel _ _ _ _ _ _ _ _ _ _ _ Hw E)
    as [Hp [Ht [_ [Hc Hm]]]].
  split; [apply H; assumption|]. split; [exact H|]. split; [exact Hm|].
  split; [|split; assumption].
  eapply Forall_impl; [|apply (phase_writes_inside w' _ Ht)].
  intros x Hx. cbn beta in Hx. lia.
Qed.

Lemma C5_input_volume_unchanged_witness :
  exists (ret : binary32) (w' : world binary32),
    demo_main 2 2 4 1 (boot demo_memory) = Some (ret, w') /\
    mem w' 1 = mem (boot demo_memory) 1 /\
    forall p, p <> 2 -> mem w' p = mem (boot demo_memory) p.
Proof.
  destruct (TNV_CPU_main_returns (PF:=demo_platform 2) (HF:=toolkit_header)
              0 1 2 (b32_of_Z 1) 2 (b32_of_Z 0) 2 4 1 (boot demo_memory))
    as [ret [w' [E _]]].
  - right. split; [reflexivity|]. vm_compute. discriminate.
  - exists ret, w'. split; [exact E|].
    destruct (C5_input_volume_unchanged (PF:=demo_platform 2)
                (HF:=toolkit_header) 0 1 2 (b32_of_Z 1) 2 (b32_of_Z 0) 2 4 1
                (boot demo_memory) w' ret) as [H1 [H2 _]].
    + discriminate.
    + left. reflexivity.
    + cbn. lia.
    + exact E.
    + split; assumption.
Defined.

(** C5 as stated fails: a call that is given the same volume as noisy
    input and as estimate overwrites the input.  After one iteration on
    the demo image the volume holds zeros only. *)
Lemma C5_counterexample :
  demo_aliased = Some (repeat (b32_of_Z 0) 8) /\
  repeat (b32_of_Z 0) 8 <> demo_image.
Proof.
  split; [vm_compute; reflexivity|]. vm_compute. discriminate.
Qed.

(** ** The step sizes of the context over a call *)

Section StepSizes.
Context {F : Type} {AF : Arith F} {HF : TNVHeader F} {PF : Platform F}.
Variable fuel : nat.




End StepSizes.




(** ** Sizes on [int], the first call, and binary32 *)

Lemma int_mul2_exact (a b : nat) :
  int_range (a * b) -> int_mul (Z.of_nat a) (Z.of_nat b) = Z.of_nat (a * b).
Proof.
  unfold int_range, int_mul. intros H. rewrite <- Nat2Z.inj_mul.
  apply int_wrap_exact. unfold INT_MAX in *. lia.
Qed.

Lemma int_range_le (a b : nat) : a <= b -> int_range b -> int_range a.
Proof. unfold int_range. lia. Qed.

Section FirstCall.
Context {F : Type} {AF : Arith F} {HF : TNVHeader F} {PF : Platform F}.
Variable fuel : nat.

(** Within the range of [int] the products of lines 194-196 are exact. *)
Lemma int_allocation_exact (ctx : tnv_context_t F) (t : tnv_thread_t F)
      (x : buffer) :
  int_range (dimX ctx * (stepY t + 1) * padZ ctx) ->
  int_allocation ctx t x = Z.of_nat (allocation ctx t x).
Proof.
  intros H. unfold int_allocation, allocation.
  destruct x.
  all: first
    [ apply int_mul_exact; exact H
    | apply int_mul_exact; revert H; apply int_range_le;
      apply Nat.mul_le_mono_r; apply Nat.mul_le_mono_l; lia
    | apply int_mul2_exact; revert H; apply int_range_le; nia ].
Qed.
End FirstCall.

(** X2. A first call on a machine that reports no processor, or that
    reports more processors than the image has rows when the image has
    fewer than two rows, computes a partition count of zero and divides by
    it at line 463: neither initialization nor the call returns. *)
Theorem X2_first_call_division_by_zero
        {F : Type} {AF : Arith F} {HF : TNVHeader F} {PF : Platform F}
        (fuel : nat) (inT outT : ptr) (lam : F) (maxIter : nat) (tol : F)
        (dX dY dZ : nat) (w : world F) :
  sched w = None ->
  hw_sched_get_cpu_count = 0 \/ (dY < hw_sched_get_cpu_count /\ dY <= 1) ->
  partition_count hw_sched_get_cpu_count dY = 0 /\
  TNV_CPU_init fuel inT outT dX dY dZ w = None /\
  TNV_CPU_main fuel inT outT lam maxIter tol dX dY dZ w = None.
Proof.
  intros Hs H. apply partition_count_zero in H. split; [exact H|]. split.
  - unfold TNV_CPU_init. rewrite Hs, H. reflexivity.
  - apply TNV_CPU_main_no_partition; assumption.
Qed.

Lemma X2_first_call_division_by_zero_witness :
  TNV_CPU_main (PF:=demo_platform 2) (HF:=toolkit_header) 0 1 2
               (b32_of_Z 1) 2 (b32_of_Z 0) 2 1 1 (boot demo_memory) = None.
Proof.
  apply (X2_first_call_division_by_zero (PF:=demo_platform 2)
           (HF:=toolkit_header) 0 1 2 (b32_of_Z 1) 2 (b32_of_Z 0) 2 1 1
           (boot demo_memory)).
  - reflexivity.
  - right. cbn. lia.
Defined.

(** X3. For dimensions whose product dimX (dimY + 1) dimZ an [int]
    holds, a first initialization that returns stores the dimensions of
    the call, pads no channel, creates a pool of one worker per band, and
    leaves every array of every band with the size that [tnv_init]
    computes from the band: (stepY + 1) rows for [Input], [u] and [div],
    stepY rows for [qx], [qy], [gradx] and [grady], one row for [div0],
    [udiff0] and [udiff]; the products of lines 194-196, computed on
    [int], are these sizes. *)
Theorem X3_first_call_allocates
        {F : Type} {AF : Arith F} {HF : TNVHeader F} {PF : Platform F}
        (fuel : nat) (inT outT : ptr) (dX dY dZ : nat) (w w' : world F) :
  int_range (dX * (dY + 1) * dZ) ->
  sched w = None -> TNV_CPU_init fuel inT outT dX dY dZ w = Some w' ->
  initialized w' /\ pooled w' /\
  (dimX (tnv_ctx w'), dimY (tnv_ctx w'), dimZ (tnv_ctx w'), padZ (tnv_ctx w'))
  = (dX, dY, dZ, dZ) /\
  forall t, In t (thr_ctx (tnv_ctx w')) ->
  forall x, int_allocation (tnv_ctx w') t x
            = Z.of_nat (length (buf (arrays t) x)).
Proof.
  intros Hr Hs E.
  pose proof (TNV_CPU_init_initialized fuel _ _ _ _ _ _ _ Hs E) as Hi.
  destruct (TNV_CPU_init_bands fuel _ _ _ _ _ _ _ Hs E) as [_ [_ [Hd _]]].
  split; [exact Hi|]. split.
  { exact (TNV_CPU_init_pooled fuel _ _ _ _ _ _ _ Hs E). }
  split; [exact Hd|].
  intros t Hin x. destruct Hi as [_ Hi]. destruct (Hi t Hin) as [_ Hlen].
  rewrite Hlen. apply int_allocation_exact.
  injection Hd as -> Hy _ ->.
  apply In_nth_error in Hin. destruct Hin as [d Ed].
  destruct (TNV_CPU_init_tiled fuel _ _ _ _ _ _ _ Hs E d t Ed) as [Hb _].
  rewrite Hy in Hb. revert Hr. apply int_range_le.
  apply Nat.mul_le_mono_r. apply Nat.mul_le_mono_l. lia.
Qed.

Lemma X3_first_call_allocates_witness :
  exists w', demo_init 2 4 = Some w' /\ initialized w' /\ pooled w'.
Proof.
  destruct demo_init_pooled as [w' [E _]]. exists w'. split; [exact E|].
  destruct (X3_first_call_allocates (PF:=demo_platform 2)
              (HF:=toolkit_header) 0 1 2 2 4 1 (boot demo_memory) w')
    as [H1 [H2 _]].
  - unfold int_range, INT_MAX. cbn. lia.
  - reflexivity.
  - exact E.
  - split; assumption.
Defined.

Section LoopExit.
Context {F : Type} {AF : Arith F} {HF : TNVHeader F}.

(** A state of the loop as a pass leaves it: [sum] is the sum of the
    magnitudes of the two entries, as line 110 adds them up. *)
Lemma l1_pass_sum (s : l1state F) :
  l1sum (l1_pass s)
  = fadd (fadd f0 (fabs (proj_0 (l1_pass s)))) (fabs (proj_1 (l1_pass s))).
Proof. reflexivity. Qed.

Lemma l1_loop_leaves (fuel : nat) :
  forall s s' : l1state F,
    l1_loop fuel s = Some s' ->
    (fgt (l1sum s') f1 = false /\
     (l1sum s = fadd (fadd f0 (fabs (proj_0 s))) (fabs (proj_1 s)) ->
      l1sum s' = fadd (fadd f0 (fabs (proj_0 s'))) (fabs (proj_1 s')))) \/
    (fne (proj_0 s') f0 = false /\ fne (proj_1 s') f0 = false /\
     l1sum s' = fadd (fadd f0 (fabs (proj_0 s'))) (fabs (proj_1 s'))).
Proof.
  induction fuel as [|fuel IH]; intros s s'; cbn [l1_loop].
  - destruct (fgt (l1sum s) f1) eqn:Et; [discriminate|].
    intros E; injection E as <-. left. split; [exact Et|auto].
  - destruct (fgt (l1sum s) f1) eqn:Et.
    + destruct (0 <? l1num (l1_pass s))%Z eqn:En.
      * intros E. destruct (IH _ _ E) as [[H1 H2]|H]; [|right; exact H].
        left. split; [exact H1|]. intros _. apply H2. reflexivity.
      * intros E; injection E as <-. right.
        unfold l1_pass in En |- *. cbn [l1num proj_0 proj_1 l1sum] in *.
        destruct (fne (MAX (fsub (proj_0 s) (shrinkfactor s)) f0) f0);
          destruct (fne (MAX (fsub (proj_1 s) (shrinkfactor s)) f0) f0);
          try discriminate En.
        repeat split.
    + intros E; injection E as <-. left. split; [exact Et|auto].
Qed.
End LoopExit.

(** X24. In any arithmetic, binary32 among them, what the water-filling
    loop of lines 98-119 returns, when [fLarge > 1] makes it pass at least
    once: [sum] is the float sum of the magnitudes of the two entries,
    and either the C test [sum > 1] fails on it (the sum is at most one,
    or not a number), or both entries compare equal to zero (the break of
    line 118). *)
Theorem X24_water_filling_exit
        {F : Type} {AF : Arith F} {HF : TNVHeader F}
        (fuel : nat) (sigma sig1 sig2 : F) (s : l1state F) :
  fgt fLarge f1 = true ->
  l1_projection fuel sigma sig1 sig2 = Some s ->
  l1sum s = fadd (fadd f0 (fabs (proj_0 s))) (fabs (proj_1 s)) /\
  (fgt (l1sum s) f1 = false \/
   (fne (proj_0 s) f0 = false /\ fne (proj_1 s) f0 = false)).
Proof.
  intros HL. unfold l1_projection.
  destruct fuel as [|fuel]; cbn [l1_loop l1sum]; rewrite HL; [discriminate|].
  match goal with
  | |- context [l1_pass ?x] => set (s0 := x)
  end.
  destruct (0 <? l1num (l1_pass s0))%Z eqn:En.
  - intros E. destruct (l1_loop_leaves _ _ _ E) as [[H1 H2]|[H1 [H2 H3]]].
    + split; [apply H2; reflexivity|left; exact H1].
    + split; [exact H3|right; split; assumption].
  - intros E; injection E as <-. split; [reflexivity|]. right.
    unfold l1_pass in En |- *. cbn [l1num proj_0 proj_1] in *.
    destruct (fne (MAX (fsub (proj_0 s0) (shrinkfactor s0)) f0) f0);
      destruct (fne (MAX (fsub (proj_1 s0) (shrinkfactor s0)) f0) f0);
      try discriminate En.
    split; reflexivity.
Qed.

Lemma X24_water_filling_exit_witness :
  exists s,
    l1_projection (HF:=toolkit_header) 4 (b32_of_Z 1) (b32_of_Z 33554436)
                  (b32_of_Z 1) = Some s /\
    l1sum s = fadd (fadd f0 (fabs (proj_0 s))) (fabs (proj_1 s)) /\
    fgt (l1sum s) f1 = false.
Proof.
  eexists. split; [vm_compute; reflexivity|].
  destruct (X24_water_filling_exit (HF:=toolkit_header) 4 (b32_of_Z 1)
              (b32_of_Z 33554436) (b32_of_Z 1)
              (mkL1 (b32_of_Z 1) (b32_of_Z 0) (b32_of_Z 1) 1 (b32_of_Z 0)))
    as [H1 _].
  - vm_compute. reflexivity.
  - vm_compute. reflexivity.
  - split; [exact H1|]. vm_compute. reflexivity.
Defined.

(** C7 as stated fails in binary32.  The matrix (1e20 0; 0 1e20) is
    positive semidefinite, but the product T * T of line 40 overflows, the
    difference of two infinities is not a number, and both singular
    values come out as NaN, on which every comparison fails. *)
Lemma C7_counterexample :
  flt f0 huge32 = true /\
  flt (fmul f0 f0) (fmul huge32 huge32) = true /\
  singular_values huge32 f0 huge32 = (S754_nan, S754_nan) /\
  fgt (S754_nan : binary32) S754_nan = false /\
  feq (S754_nan : binary32) S754_nan = false /\
  fgt (S754_nan : binary32) f0 = false /\
  feq (S754_nan : binary32) f0 = false.
Proof. repeat split; vm_compute; reflexivity. Qed.

(** C6 as stated fails in binary32.  At M1 = M3 = 1e20, M2 = 0 and
    sigma = 1 the squares of line 39-40 overflow and [coefF] returns NaN
    in all three entries, under the rule p = 1 and under p = INFNORM:
    t1 is not zero and t0 == t2 is false. *)
Lemma C6_counterexample :
  coefF (HF:=toolkit_header) 3 huge32 f0 huge32 f1 1 1 0
  = Some (S754_nan, S754_nan, S754_nan) /\
  coefF (HF:=toolkit_header) 3 huge32 f0 huge32 f1
        (INFNORM (TNVHeader:=toolkit_header (F:=binary32))) 1 0
  = Some (S754_nan, S754_nan, S754_nan) /\
  feq (S754_nan : binary32) f0 = false /\
  feq (S754_nan : binary32) S754_nan = false.
Proof. repeat split; vm_compute; reflexivity. Qed.

(** C8 as stated fails in binary32.  At M = (1e20 0; 0 0) and sigma = 1
    the larger singular value overflows to infinity; the loop returns
    after two passes with the entries NaN and 0, whose sum is NaN and not
    at most 1 + eps.  And three passes, which suffice in exact
    arithmetic, do not always suffice: at M = (1.303e15 0; 0 1e12) and
    sigma = 1, where every value is finite, the loop still runs after
    three passes (the second pass leaves the entry 17548550, above
    2^24, where the difference 17548550 - 1 of line 116 is rounded to
    17548548; the third pass leaves 2), and returns after the fourth. *)
Lemma C8_counterexample :
  singular_values huge32 f0 f0 = (S754_infinity false, S754_zero false) /\
  option_map (fun s => (proj_0 s, proj_1 s, fadd (proj_0 s) (proj_1 s)))
             (l1_projection (HF:=toolkit_header) 3 f1
                            (S754_infinity false) (S754_zero false))
  = Some (S754_nan, S754_zero false, S754_nan) /\
  (forall eps : binary32, flt S754_nan (fadd f1 eps) = false /\
                          feq S754_nan (fadd f1 eps) = false) /\
  l1_projection (HF:=toolkit_header) 3 f1 (fst wide_singular_values)
                (snd wide_singular_values) = None /\
  option_map (fun s => l1sum s)
             (l1_projection (HF:=toolkit_header) 4 f1
                            (fst wide_singular_values)
                            (snd wide_singular_values))
  = Some f1.
Proof.
  split; [vm_compute; reflexivity|]. split; [vm_compute; reflexivity|].
  split; [|split; vm_compute; reflexivity].
  intros eps. split; reflexivity.
Qed.
